(** * JSONForge: the query and transformation engine of [json.worker.ts]

    A shallow embedding of the jq-subset, JSONata-subset and Mongo-subset
    interpreters, of the shared path resolver [getNestedValue] and of the
    workflow engine, followed by the properties the specification states
    about them; then of further functions of the same worker (the RFC 6902
    patch generator, the structural diff, flattening, the profiler, data
    masking and search), with properties of their own and of the engine.

    Modelling conventions.
    - A JavaScript value is a [value]: [undefined], [null], booleans, numbers,
      strings, arrays and plain objects.  Numbers are the integers together
      with [NaN]; JavaScript holds the integers exactly up to [2^53], and a
      statement that depends on the digits of a number says so
      ([plainText]).  Numerals with a fraction or an exponent and the
      infinities are outside the model (the string-to-number conversion
      reads them as [NaN]: a statement that depends on a text being no
      number says so with [noNumeral]).  Strings are sequences of
      single-byte characters.
    - An object is its list of own properties in enumeration order:
      array-index keys first, ascending, then the other keys in insertion
      order ([define]).  Members inherited from the built-in prototypes
      (methods, [constructor], [__proto__]) are functions, not data, and are
      left out: a property read and [in] see own properties, and the indices
      and [length] of arrays and strings.  A statement that depends on a
      read that a prototype could answer says that the prototypes do not
      come in ([ownRead], [ownPath], [ordinary]).  An assignment [r[k] = v]
      ([obj_set]) defines an own property, except under the name
      [__proto__].
    - [String(v)] and [Number(v)] throw on an object that has a [toString]
      field of its own, and on an array that holds one: the interpreters and
      the workflow steps convert with [String_] and [Number_], which throw
      there ([printable] tells the values that have a string, [toString] and
      [toNumber] give the string and the number of those).
    - A JavaScript exception is the [Throw] result of the [Exc] monad, with
      the text [String(err)] would give.
    - Host facilities that are not code of the repository are parameters of
      the development: [JSON.parse], [RegExp], the collation behind
      [localeCompare] and the evaluation of a user function in a [custom]
      step, which gives the value it received as the call leaves it and
      what the call returns or throws.
      [JSON.stringify] is executable ([JSON_stringify]).  [Math.random]
      is an oracle, asked by the number of the call, and the size of a
      [Blob] is a parameter.
    - A function that fills an array or an object it was handed
      ([generatePatch], [computeDiff], [recurse], [profileRecursive],
      [searchRecursive]) returns what it pushes, or takes the structure and
      returns it.
    - Timings ([performance.now]) are not represented. *)

From Stdlib Require Import String Ascii List ZArith Bool Lia DecimalString.
From Stdlib Require Import Permutation.
From Stdlib Require Sorted OrderedTypeEx DecimalNat DecimalZ.
Import ListNotations.
Local Open Scope list_scope.
Local Open Scope string_scope.

(** ** Exceptions *)

Inductive Exc (A : Type) : Type :=
| Ok (a : A)
| Throw (msg : string).
Arguments Ok {A} a.
Arguments Throw {A} msg.

Definition bind {A B : Type} (m : Exc A) (f : A -> Exc B) : Exc B :=
  match m with
  | Ok a => f a
  | Throw e => Throw e
  end.

Notation "x <- m ;; k" := (bind m (fun x => k))
  (at level 61, m at next level, right associativity).

Fixpoint mapM {A B : Type} (f : A -> Exc B) (l : list A) : Exc (list B) :=
  match l with
  | [] => Ok []
  | x :: r => y <- f x ;; ys <- mapM f r ;; Ok (y :: ys)
  end.

(** [Array.prototype.filter] with a callback that may throw. *)
Fixpoint filterM {A : Type} (f : A -> Exc bool) (l : list A) : Exc (list A) :=
  match l with
  | [] => Ok []
  | x :: r => b <- f x ;; ys <- filterM f r ;; Ok (if b then x :: ys else ys)
  end.

(** A loop that goes on while its body says so ([Array.prototype.every],
    or a [for] whose body returns [false] from the function): left to
    right, stopping at the first [false]. *)
Fixpoint everyM {A : Type} (f : A -> Exc bool) (l : list A) : Exc bool :=
  match l with
  | [] => Ok true
  | x :: r => b <- f x ;; if b then everyM f r else Ok false
  end.

(** ** Strings *)

Module Str.

Definition code (c : ascii) : nat := nat_of_ascii c.

Definition between (lo hi : nat) (c : ascii) : bool :=
  Nat.leb lo (code c) && Nat.leb (code c) hi.

(** [\s] on single-byte characters: TAB, LF, VT, FF, CR, space and the
    no-break space. *)
Definition isSpace (c : ascii) : bool :=
  between 9 13 c || Nat.eqb (code c) 32 || Nat.eqb (code c) 160.

(** The characters the regular-expression dot does not match. *)
Definition isLineTerminator (c : ascii) : bool :=
  Nat.eqb (code c) 10 || Nat.eqb (code c) 13.

(** [\d] and [\w]. *)
Definition isDigit (c : ascii) : bool := between 48 57 c.

Definition isWord (c : ascii) : bool :=
  isDigit c || between 65 90 c || between 97 122 c || Nat.eqb (code c) 95.

Fixpoint all (p : ascii -> bool) (s : string) : bool :=
  match s with
  | EmptyString => true
  | String c r => p c && all p r
  end.

Fixpoint trimStart (s : string) : string :=
  match s with
  | EmptyString => EmptyString
  | String c r => if isSpace c then trimStart r else s
  end.

Fixpoint trimEnd (s : string) : string :=
  match s with
  | EmptyString => EmptyString
  | String c r =>
      match trimEnd r with
      | EmptyString => if isSpace c then EmptyString else String c EmptyString
      | r' => String c r'
      end
  end.

Definition trim (s : string) : string := trimEnd (trimStart s).

(** [s.split(sep)] for a one-character separator: never the empty list. *)
Fixpoint split (sep : ascii) (s : string) : list string :=
  match s with
  | EmptyString => [EmptyString]
  | String c r =>
      if Ascii.eqb c sep then EmptyString :: split sep r
      else match split sep r with
           | h :: t => String c h :: t
           | [] => [String c EmptyString]
           end
  end.

(** [s.split(/\s+/)]: [inSep] tells that the previous character was white
    space, so that a run of white space separates once. *)
Fixpoint splitWs (inSep : bool) (s : string) : list string :=
  match s with
  | EmptyString => [EmptyString]
  | String c r =>
      if isSpace c then
        if inSep then splitWs true r else EmptyString :: splitWs true r
      else match splitWs false r with
           | h :: t => String c h :: t
           | [] => [String c EmptyString]
           end
  end.

Definition startsWith (p s : string) : bool := prefix p s.

Definition endsWith (suf s : string) : bool :=
  let n := String.length suf in
  let m := String.length s in
  Nat.leb n m && String.eqb (substring (m - n) n s) suf.

(** The relative index of [slice]: negative counts from the end, and the
    result is clamped to [0 .. len]. *)
Definition relIndex (len i : Z) : Z :=
  if (i <? 0)%Z then Z.max (len + i) 0 else Z.min i len.

(** [s.slice(b, e)] and [s.slice(b)]. *)
Definition slice (b e : Z) (s : string) : string :=
  let len := Z.of_nat (String.length s) in
  let from := relIndex len b in
  let to := relIndex len e in
  substring (Z.to_nat from) (Z.to_nat (to - from)) s.

Definition sliceFrom (b : Z) (s : string) : string :=
  let len := Z.of_nat (String.length s) in
  let from := relIndex len b in
  substring (Z.to_nat from) (Z.to_nat (len - from)) s.

(** [s.indexOf(needle)] and [s.includes(needle)]. *)
Definition indexOf (needle s : string) : option nat := index 0 needle s.

Definition includes (needle s : string) : bool :=
  match indexOf needle s with
  | Some _ => true
  | None => false
  end.

Definition stripSuffix (suf s : string) : string :=
  if endsWith suf s then substring 0 (String.length s - String.length suf) s
  else s.

Fixpoint join (sep : string) (l : list string) : string :=
  match l with
  | [] => EmptyString
  | [x] => x
  | x :: r => x ++ sep ++ join sep r
  end.

Definition lower (c : ascii) : ascii :=
  if between 65 90 c || between 192 214 c || between 216 222 c
  then ascii_of_nat (code c + 32) else c.

Fixpoint toLowerCase (s : string) : string :=
  match s with
  | EmptyString => EmptyString
  | String c r => String (lower c) (toLowerCase r)
  end.

(** The longest prefix of characters satisfying [p], and what follows it. *)
Fixpoint span (p : ascii -> bool) (s : string) : string * string :=
  match s with
  | EmptyString => (EmptyString, EmptyString)
  | String c r =>
      if p c then let '(a, b) := span p r in (String c a, b)
      else (EmptyString, s)
  end.

Definition nonEmpty (s : string) : bool :=
  match s with
  | EmptyString => false
  | _ => true
  end.

Definition last (s : string) : option ascii :=
  match String.length s with
  | 0 => None
  | S n => String.get n s
  end.

Definition isQuote (c : ascii) : bool :=
  Nat.eqb (code c) 34 || Nat.eqb (code c) 39.

End Str.

(** ** Values *)

#[local] Set Warnings "-register-all".

Inductive number : Type :=
| NaN
| Int (z : Z).

Inductive value : Type :=
| JUndef
| JNull
| JBool (b : bool)
| JNum (n : number)
| JStr (s : string)
| JArr (xs : list value)
| JObj (kvs : list (string * value)).

Definition num (z : Z) : value := JNum (Int z).

Module Js.

Import Str.

(** *** Numbers *)

Definition showZ (z : Z) : string := NilZero.string_of_int (Z.to_int z).

Definition showNat (n : nat) : string := NilZero.string_of_uint (Nat.to_uint n).

Definition showNumber (n : number) : string :=
  match n with
  | NaN => "NaN"
  | Int z => showZ z
  end.

Definition numAdd (a b : number) : number :=
  match a, b with
  | Int x, Int y => Int (x + y)
  | _, _ => NaN
  end.

(** Comparisons are false as soon as one side is [NaN]. *)
Definition numLt (a b : number) : bool :=
  match a, b with
  | Int x, Int y => (x <? y)%Z
  | _, _ => false
  end.

Definition numLe (a b : number) : bool :=
  match a, b with
  | Int x, Int y => (x <=? y)%Z
  | _, _ => false
  end.

Definition numGt (a b : number) : bool := numLt b a.
Definition numGe (a b : number) : bool := numLe b a.

Definition isNaN (n : number) : bool :=
  match n with
  | NaN => true
  | Int _ => false
  end.

Definition digitValue (c : ascii) : option Z :=
  if isDigit c then Some (Z.of_nat (code c - 48))
  else if between 97 102 c then Some (Z.of_nat (code c - 87))
  else if between 65 70 c then Some (Z.of_nat (code c - 55))
  else None.

(** The value of a non-empty string of digits of the given radix. *)
Fixpoint digitsFrom (radix acc : Z) (s : string) : option Z :=
  match s with
  | EmptyString => Some acc
  | String c r =>
      match digitValue c with
      | Some d => if (d <? radix)%Z then digitsFrom radix (acc * radix + d) r else None
      | None => None
      end
  end.

Definition digits (radix : Z) (s : string) : option Z :=
  match s with
  | EmptyString => None
  | _ => digitsFrom radix 0 s
  end.

Definition ofOption (o : option Z) : number :=
  match o with
  | Some z => Int z
  | None => NaN
  end.

(** [Number(s)] for a string: white space is trimmed, the empty string is 0,
    then a signed decimal integer or an unsigned [0x], [0o] or [0b] integer;
    anything else is [NaN]. *)
Definition stringToNumber (s : string) : number :=
  let t := trim s in
  match t with
  | EmptyString => Int 0
  | String "+" r => ofOption (digits 10 r)
  | String "-" r => ofOption (option_map Z.opp (digits 10 r))
  | String "0" (String c r) =>
      if Ascii.eqb c "x" || Ascii.eqb c "X" then ofOption (digits 16 r)
      else if Ascii.eqb c "o" || Ascii.eqb c "O" then ofOption (digits 8 r)
      else if Ascii.eqb c "b" || Ascii.eqb c "B" then ofOption (digits 2 r)
      else ofOption (digits 10 t)
  | _ => ofOption (digits 10 t)
  end.

(** [parseInt(s)]: leading white space, a sign, an optional [0x], then the
    longest run of digits; [NaN] when that run is empty. *)
Definition parseInt (s : string) : number :=
  let t := trimStart s in
  let '(neg, u) :=
    match t with
    | String "-" r => (true, r)
    | String "+" r => (false, r)
    | _ => (false, t)
    end in
  let '(radix, body) :=
    match u with
    | String "0" (String c r) =>
        if Ascii.eqb c "x" || Ascii.eqb c "X" then (16%Z, r) else (10%Z, u)
    | _ => (10%Z, u)
    end in
  let isRadixDigit c :=
    match digitValue c with
    | Some d => (d <? radix)%Z
    | None => false
    end in
  match digits radix (fst (span isRadixDigit body)) with
  | Some z => Int (if neg then - z else z)
  | None => NaN
  end.

(** *** Conversions *)

Definition typeOf (v : value) : string :=
  match v with
  | JUndef => "undefined"
  | JNull | JArr _ | JObj _ => "object"
  | JBool _ => "boolean"
  | JNum _ => "number"
  | JStr _ => "string"
  end.

Definition isArray (v : value) : bool :=
  match v with
  | JArr _ => true
  | _ => false
  end.

(** [typeof v === 'object' && v !== null]. *)
Definition isObjectLike (v : value) : bool :=
  match v with
  | JArr _ | JObj _ => true
  | _ => false
  end.

Definition isUndefined (v : value) : bool :=
  match v with
  | JUndef => true
  | _ => false
  end.

(** The string of a value: an array joins the strings of its elements with
    commas, [null] and [undefined] elements giving the empty string.  It is
    what [String(v)] returns when it returns ([String_] below). *)
Fixpoint toString (v : value) : string :=
  match v with
  | JUndef => "undefined"
  | JNull => "null"
  | JBool true => "true"
  | JBool false => "false"
  | JNum n => showNumber n
  | JStr s => s
  | JArr xs =>
      join "," (map (fun x => match x with
                              | JUndef | JNull => EmptyString
                              | _ => toString x
                              end) xs)
  | JObj _ => "[object Object]"
  end.

(** The number of a value: what [Number(v)] returns when it returns
    ([Number_] below). *)
Definition toNumber (v : value) : number :=
  match v with
  | JUndef => NaN
  | JNull => Int 0
  | JBool true => Int 1
  | JBool false => Int 0
  | JNum n => n
  | JStr s => stringToNumber s
  | JArr _ | JObj _ => stringToNumber (toString v)
  end.

(** [!!v]. *)
Definition truthy (v : value) : bool :=
  match v with
  | JUndef | JNull => false
  | JBool b => b
  | JNum NaN => false
  | JNum (Int z) => negb (z =? 0)%Z
  | JStr s => nonEmpty s
  | JArr _ | JObj _ => true
  end.

(** [a === b] where the two sides are not the same allocation (one of them
    is a primitive, or they come from two different parsed texts): arrays
    and objects are then never identical. *)
Definition strictEq (a b : value) : bool :=
  match a, b with
  | JUndef, JUndef => true
  | JNull, JNull => true
  | JBool x, JBool y => Bool.eqb x y
  | JNum (Int x), JNum (Int y) => (x =? y)%Z
  | JStr x, JStr y => String.eqb x y
  | _, _ => false
  end.

(** The comparison of [Array.prototype.includes]: as [===], but [NaN] is
    found. *)
Definition sameValueZero (a b : value) : bool :=
  match a, b with
  | JNum NaN, JNum NaN => true
  | _, _ => strictEq a b
  end.

(** *** Properties *)

(** An array index as a property key: decimal digits without a leading
    zero, below 2^32 - 1. *)
Definition arrayIndex (k : string) : option Z :=
  match k with
  | EmptyString => None
  | String "0" EmptyString => Some 0%Z
  | String "0" _ => None
  | _ =>
      match digits 10 (if all isDigit k then k else EmptyString) with
      | Some z => if (z <? 4294967295)%Z then Some z else None
      | None => None
      end
  end.

(** The element at a position given as an integer; nothing when it is
    negative or past the end. *)
Fixpoint nthZ {A : Type} (l : list A) (i : Z) : option A :=
  match l with
  | [] => None
  | x :: r => if (i =? 0)%Z then Some x else nthZ r (i - 1)
  end.

Fixpoint assoc (k : string) (kvs : list (string * value)) : option value :=
  match kvs with
  | [] => None
  | (k', v) :: r => if String.eqb k k' then Some v else assoc k r
  end.

Definition hasKey (k : string) (kvs : list (string * value)) : bool :=
  match assoc k kvs with
  | Some _ => true
  | None => false
  end.

Definition orUndef (o : option value) : value :=
  match o with
  | Some v => v
  | None => JUndef
  end.

Fixpoint chars (s : string) : list value :=
  match s with
  | EmptyString => []
  | String c r => JStr (String c EmptyString) :: chars r
  end.

(** [v[key]]: reading a property of [null] or [undefined] throws. *)
Definition get (v : value) (key : string) : Exc value :=
  match v with
  | JUndef => Throw "TypeError: Cannot read properties of undefined"
  | JNull => Throw "TypeError: Cannot read properties of null"
  | JObj kvs => Ok (orUndef (assoc key kvs))
  | JArr xs =>
      if String.eqb key "length" then Ok (num (Z.of_nat (List.length xs)))
      else match arrayIndex key with
           | Some n => Ok (orUndef (nthZ xs n))
           | None => Ok JUndef
           end
  | JStr s =>
      if String.eqb key "length" then Ok (num (Z.of_nat (String.length s)))
      else match arrayIndex key with
           | Some n => Ok (orUndef (nthZ (chars s) n))
           | None => Ok JUndef
           end
  | JBool _ | JNum _ => Ok JUndef
  end.

(** [v[key]] where the code has checked that [v] is an object or an
    array. *)
Definition field (v : value) (key : string) : value :=
  match get v key with
  | Ok r => r
  | Throw _ => JUndef
  end.

(** A value that has a string: every value but an object with a
    [toString] field of its own (a field of a parsed document is no function,
    so the conversion finds no method to call) and an array that holds such
    an object, at any depth of arrays. *)
Fixpoint printable (v : value) : bool :=
  match v with
  | JObj kvs => negb (hasKey "toString" kvs)
  | JArr xs => forallb printable xs
  | _ => true
  end.

(** [String(v)] and [Number(v)]: both throw on a value that has no
    string. *)
Definition String_ (v : value) : Exc string :=
  if printable v then Ok (toString v)
  else Throw "TypeError: Cannot convert object to primitive value".

Definition Number_ (v : value) : Exc number :=
  if printable v then Ok (toNumber v)
  else Throw "TypeError: Cannot convert object to primitive value".

(** [xs[n]] for a number [n]. *)
Definition at_ (xs : list value) (n : number) : value :=
  match n with
  | Int z => orUndef (nthZ xs z)
  | NaN => JUndef
  end.

(** ['key' in item] for an own property. *)
Definition hasProperty (v : value) (key : string) : bool :=
  match v with
  | JObj kvs => hasKey key kvs
  | JArr xs =>
      String.eqb key "length" ||
      match arrayIndex key with
      | Some n => (n <? Z.of_nat (List.length xs))%Z
      | None => false
      end
  | _ => false
  end.

Fixpoint update (k : string) (v : value) (kvs : list (string * value))
  : list (string * value) :=
  match kvs with
  | [] => []
  | (k', v') :: r =>
      if String.eqb k k' then (k', v) :: r else (k', v') :: update k v r
  end.

(** A new array-index key goes before the first key that is not an array
    index or is a larger one. *)
Fixpoint insertIndex (n : Z) (k : string) (v : value)
  (kvs : list (string * value)) : list (string * value) :=
  match kvs with
  | [] => [(k, v)]
  | (k', v') :: r =>
      match arrayIndex k' with
      | Some m =>
          if (n <? m)%Z then (k, v) :: kvs else (k', v') :: insertIndex n k v r
      | None => (k, v) :: kvs
      end
  end.

(** The definition of an own property ([CreateDataProperty], as
    [JSON.parse] and object literals do it): the property is updated, or
    created at its place in the enumeration order. *)
Definition define (kvs : list (string * value)) (k : string) (v : value)
  : list (string * value) :=
  if hasKey k kvs then update k v kvs
  else match arrayIndex k with
       | Some n => insertIndex n k v kvs
       | None => (kvs ++ [(k, v)])%list
       end.

(** [r[k] = v] on a plain object: an own property is updated and a new
    name is defined, except [__proto__], which reaches the setter that
    [Object.prototype] has for it and defines nothing (what the setter does
    to the prototype of [r] is not represented). *)
Definition obj_set (kvs : list (string * value)) (k : string) (v : value)
  : list (string * value) :=
  if negb (hasKey k kvs) && String.eqb k "__proto__" then kvs
  else define kvs k v.

Fixpoint indexed {A : Type} (i : nat) (l : list A) : list (string * A) :=
  match l with
  | [] => []
  | x :: r => (showNat i, x) :: indexed (S i) r
  end.

(** [Object.entries(v)]: throws on [null] and [undefined]. *)
Definition entries (v : value) : Exc (list (string * value)) :=
  match v with
  | JUndef | JNull => Throw "TypeError: Cannot convert undefined or null to object"
  | JObj kvs => Ok kvs
  | JArr xs => Ok (indexed 0 xs)
  | JStr s => Ok (indexed 0 (chars s))
  | JBool _ | JNum _ => Ok []
  end.

(** [Object.keys] and [Object.values] where the code has checked that the
    argument is an object or an array. *)
Definition keys (v : value) : list string :=
  match entries v with
  | Ok kvs => map fst kvs
  | Throw _ => []
  end.

Definition values (v : value) : list value :=
  match entries v with
  | Ok kvs => map snd kvs
  | Throw _ => []
  end.

End Js.

(** ** JSON.stringify *)

Module Json.

Import Str Js.

Definition hexDigit (n : nat) : ascii :=
  if Nat.ltb n 10 then ascii_of_nat (48 + n) else ascii_of_nat (87 + n).

Definition dquote : string := String (ascii_of_nat 34) EmptyString.
Definition newline : string := String (ascii_of_nat 10) EmptyString.

(** The escape of one character in a JSON string literal. *)
Definition escapeChar (c : ascii) : string :=
  let n := code c in
  if Nat.eqb n 34 then "\" ++ dquote
  else if Nat.eqb n 92 then "\\"
  else if Nat.eqb n 8 then "\b"
  else if Nat.eqb n 9 then "\t"
  else if Nat.eqb n 10 then "\n"
  else if Nat.eqb n 12 then "\f"
  else if Nat.eqb n 13 then "\r"
  else if Nat.ltb n 32 then
    "\u00" ++ String (hexDigit (n / 16)) (String (hexDigit (n mod 16)) EmptyString)
  else String c EmptyString.

Fixpoint escape (s : string) : string :=
  match s with
  | EmptyString => EmptyString
  | String c r => escapeChar c ++ escape r
  end.

Definition quote (s : string) : string := dquote ++ escape s ++ dquote.

Definition serNumber (n : number) : string :=
  match n with
  | NaN => "null"
  | Int z => showZ z
  end.

(** The members of an array or object, laid out compactly when [gap] is
    empty and one per line otherwise. *)
Definition layout (opening closing gap indent : string) (parts : list string)
  : string :=
  match parts with
  | [] => opening ++ closing
  | _ =>
      match gap with
      | EmptyString => opening ++ join "," parts ++ closing
      | _ =>
          let stepped := indent ++ gap in
          opening ++ newline ++ stepped
          ++ join ("," ++ newline ++ stepped) parts
          ++ newline ++ indent ++ closing
      end
  end.

(** [JSON.stringify(v, null, gap)] at the current indentation; [None] is the
    [undefined] that serialising [undefined] gives.  An [undefined] array
    element is written [null], an [undefined] property is left out. *)
Fixpoint ser (gap indent : string) (v : value) : option string :=
  match v with
  | JUndef => None
  | JNull => Some "null"
  | JBool true => Some "true"
  | JBool false => Some "false"
  | JNum n => Some (serNumber n)
  | JStr s => Some (quote s)
  | JArr xs =>
      let stepped := indent ++ gap in
      Some (layout "[" "]" gap indent
              (map (fun x => match ser gap stepped x with
                             | Some t => t
                             | None => "null"
                             end) xs))
  | JObj kvs =>
      let stepped := indent ++ gap in
      let colon := match gap with EmptyString => ":" | _ => ": " end in
      Some (layout "{" "}" gap indent
              (flat_map (fun kv => match ser gap stepped (snd kv) with
                                   | Some t => [quote (fst kv) ++ colon ++ t]
                                   | None => []
                                   end) kvs))
  end.

End Json.

(** [JSON.stringify(v)] and [JSON.stringify(v, null, 2)]. *)
Definition JSON_stringify (v : value) : option string :=
  Json.ser EmptyString EmptyString v.

Definition JSON_stringify2 (v : value) : option string :=
  Json.ser "  " EmptyString v.

(** ** Sorting

    [Array.prototype.sort] is stable, and puts [undefined] elements last
    without showing them to the comparator.  For a comparator that is a
    consistent ordering, which is what the engine passes, every stable sort
    gives the same array; the model is insertion sort. *)

Module Sort.

Import Js.

Fixpoint insertM (cmp : value -> value -> Exc Z) (x : value) (l : list value)
  : Exc (list value) :=
  match l with
  | [] => Ok [x]
  | y :: r =>
      c <- cmp x y ;;
      if (c <=? 0)%Z then Ok (x :: l)
      else r' <- insertM cmp x r ;; Ok (y :: r')
  end.

Fixpoint sortM (cmp : value -> value -> Exc Z) (l : list value)
  : Exc (list value) :=
  match l with
  | [] => Ok []
  | x :: r => r' <- sortM cmp r ;; insertM cmp x r'
  end.

Definition sort (cmp : value -> value -> Exc Z) (l : list value)
  : Exc (list value) :=
  sorted <- sortM cmp (filter (fun v => negb (isUndefined v)) l) ;;
  Ok (sorted ++ filter isUndefined l)%list.

(** The default comparator: the strings of the two elements, by character
    code. *)
Definition byString (a b : value) : Exc Z :=
  sa <- String_ a ;;
  sb <- String_ b ;;
  Ok match String.compare sa sb with
     | Lt => (-1)%Z
     | Eq => 0%Z
     | Gt => 1%Z
     end.

End Sort.

(** ** The types of [types/index.ts] *)

Inductive StepType : Type :=
| jq | map_ | filter_ | sort | pick | omit | rename | custom.

(** A workflow step.  The fields [id], [name] and [type] of the source are
    [stepId_], [name_] and [type_] here. *)
Record WorkflowStep : Type := mkStep {
  stepId_ : string;
  name_ : string;
  type_ : StepType;
  config : string;
  enabled : bool
}.

(** One entry of [WorkflowResult.stepResults], without its timing. *)
Record StepResult : Type := mkStepResult {
  stepId : string;
  output : option string;
  error : option string
}.

Record WorkflowResult : Type := mkWorkflowResult {
  stepResults : list StepResult;
  finalOutput : option string
}.

Inductive QueryLanguage : Type :=
| jqLang | jsonata | mongodb.

(** The payload of a [queryResult] response, without its timing. *)
Record QueryResult : Type := mkQueryResult {
  result : option string;
  queryError : option string
}.

(** ** The path resolver *)

Import Str Js.

(** [p.match(/^(\w+)\[(\d+)\]$/)]: the key and the digits. *)
Definition arrMatch (p : string) : option (string * string) :=
  let '(key, rest) := span isWord p in
  match key, rest with
  | String _ _, String "[" r =>
      let '(ds, rest') := span isDigit r in
      if nonEmpty ds && String.eqb rest' "]" then Some (key, ds) else None
  | _, _ => None
  end.

(** The loop of [getNestedValue] over the parts of the path. *)
Fixpoint walkPath (current : value) (parts : list string) : Exc value :=
  match parts with
  | [] => Ok current
  | p :: rest =>
      match current with
      | JNull | JUndef => Ok JUndef
      | _ =>
          match arrMatch p with
          | Some (key, ds) =>
              c <- get current key ;;
              walkPath (match c with
                        | JArr xs => at_ xs (stringToNumber ds)
                        | _ => c
                        end) rest
          | None =>
              c <- get current p ;;
              walkPath c rest
          end
      end
  end.

Definition getNestedValue (obj : value) (path : string) : Exc value :=
  match path with
  | EmptyString => Ok obj
  | _ => walkPath obj (split "." path)
  end.

(** [s.replace(/^["']|["']$/g, '')]: one quote off the front, and one off
    the end of what remains. *)
Definition stripQuotes (s : string) : string :=
  let s1 := match s with
            | String c r => if isQuote c then r else s
            | EmptyString => s
            end in
  match last s1 with
  | Some c => if isQuote c then substring 0 (String.length s1 - 1) s1 else s1
  | None => s1
  end.

Definition filterOps : list string :=
  [">="; "<="; "!="; "=="; ">"; "<"; "contains"].

Fixpoint findFilterOp (ops : list string) (expr : string)
  : string * string * string :=
  match ops with
  | [] => (expr, "==", "true")
  | op :: rest =>
      match indexOf op expr with
      | Some idx =>
          (trim (slice 0 (Z.of_nat idx) expr), op,
           stripQuotes (trim (sliceFrom (Z.of_nat (idx + String.length op)) expr)))
      | None => findFilterOp rest expr
      end
  end.

Definition parseFilterExpression (expr : string) : string * string * string :=
  findFilterOp filterOps expr.

(** [for (const x of xs) ...] over a state, where the body may throw. *)
Fixpoint foldM {A S : Type} (f : S -> A -> Exc S) (s : S) (l : list A) : Exc S :=
  match l with
  | [] => Ok s
  | x :: r => s' <- f s x ;; foldM f s' r
  end.

(** A [Map] from strings to strings-or-[undefined], in insertion order:
    [m.set(k, v)], [new Map(pairs)] and [m.get(k)]. *)
Fixpoint mapSet (m : list (string * option string)) (k : string)
  (v : option string) : list (string * option string) :=
  match m with
  | [] => [(k, v)]
  | (k', v') :: r =>
      if String.eqb k k' then (k', v) :: r else (k', v') :: mapSet r k v
  end.

Definition newMap (pairs : list (string * option string))
  : list (string * option string) :=
  fold_left (fun m kv => mapSet m (fst kv) (snd kv)) pairs [].

Fixpoint mapGet (m : list (string * option string)) (k : string)
  : option string :=
  match m with
  | [] => None
  | (k', v) :: r => if String.eqb k k' then v else mapGet r k
  end.

(** ** The workflow engine *)

Section Workflow.

(** The evaluation of the user-written function of a [custom] step on the
    current value: the function receives the value itself, not a copy, so
    the call gives the value as it leaves it (changed in place or not)
    together with what it returns or throws.  The function is taken as a
    function of its text and of the value it receives, with values of the
    model for results; [Throw err] is a thrown value whose string is
    [err].  [localeCompare] is the numeric collation. *)
Variable runCustom : string -> value -> value * Exc value.
Variable localeCompare : string -> string -> Z.
Variable JSON_parse : string -> Exc value.

(** The object literal [{ a, b: c.d }] of a [map] step applied to one
    item. *)
Definition mapItem (expr : string) (item : value) : Exc value :=
  if startsWith "{" expr && endsWith "}" expr then
    let fields := map trim (split "," (slice 1 (-1) expr)) in
    r <- foldM (fun result f =>
                  let '(from, to) :=
                    if includes ":" f then
                      let ps := map trim (split ":" f) in
                      (nth 0 ps EmptyString, nth 1 ps EmptyString)
                    else (f, f) in
                  v <- getNestedValue item from ;;
                  Ok (obj_set result to v))
               [] fields ;;
    Ok (JObj r)
  else Ok item.

(** The test a [filter] step applies to one item. *)
Definition filterItem (field op val : string) (item : value) : Exc bool :=
  itemVal <- getNestedValue item field ;;
  if String.eqb op "==" then s <- String_ itemVal ;; Ok (String.eqb s val)
  else if String.eqb op "!=" then s <- String_ itemVal ;; Ok (negb (String.eqb s val))
  else if String.eqb op ">" then n <- Number_ itemVal ;; Ok (numGt n (stringToNumber val))
  else if String.eqb op "<" then n <- Number_ itemVal ;; Ok (numLt n (stringToNumber val))
  else if String.eqb op ">=" then n <- Number_ itemVal ;; Ok (numGe n (stringToNumber val))
  else if String.eqb op "<=" then n <- Number_ itemVal ;; Ok (numLe n (stringToNumber val))
  else if String.eqb op "contains" then s <- String_ itemVal ;; Ok (includes val s)
  else Ok true.

Definition pickItem (fields : list string) (item : value) : Exc value :=
  r <- foldM (fun r f => v <- getNestedValue item f ;; Ok (obj_set r f v))
             [] fields ;;
  Ok (JObj r).

Definition omitItem (fields : list string) (item : value) : Exc value :=
  es <- entries item ;;
  Ok (JObj (fold_left (fun r kv =>
                         if existsb (String.eqb (fst kv)) fields then r
                         else obj_set r (fst kv) (snd kv))
                      es [])).

Definition renameItem (renameMap : list (string * option string))
  (item : value) : Exc value :=
  es <- entries item ;;
  Ok (JObj (fold_left (fun r kv =>
                         let k := fst kv in
                         let k' := match mapGet renameMap k with
                                   | Some (String c t) => String c t
                                   | _ => k
                                   end in
                         obj_set r k' (snd kv))
                      es [])).

(** One step: the value it was given, as the step leaves it, and what the
    step returns or throws.  Only a [custom] step can change the value it
    was given; the other kinds read it and build a new one. *)
Definition executeWorkflowStep (data : value) (step : WorkflowStep)
  : value * Exc value :=
  match type_ step with
  | map_ =>
      (data,
       match data with
       | JArr xs =>
           let expr := trim (config step) in
           ys <- mapM (mapItem expr) xs ;; Ok (JArr ys)
       | _ => Throw "Error: map requires an array"
       end)
  | filter_ =>
      (data,
       match data with
       | JArr xs =>
           let '(field, op, val) := parseFilterExpression (config step) in
           ys <- filterM (filterItem field op val) xs ;; Ok (JArr ys)
       | _ => Throw "Error: filter requires an array"
       end)
  | sort =>
      (data,
       match data with
       | JArr xs =>
           let parts := splitWs false (trim (config step)) in
           let field := nth 0 parts EmptyString in
           let desc := match nth_error parts 1 with
                       | Some p => String.eqb (toLowerCase p) "desc"
                       | None => false
                       end in
           ys <- Sort.sort (fun a b =>
                   va <- getNestedValue a field ;;
                   vb <- getNestedValue b field ;;
                   sa <- String_ va ;;
                   sb <- String_ vb ;;
                   let cmp := localeCompare sa sb in
                   Ok (if desc then - cmp else cmp)%Z) xs ;;
           Ok (JArr ys)
       | _ => Throw "Error: sort requires an array"
       end)
  | pick =>
      let fields := map trim (split "," (config step)) in
      (data,
       match data with
       | JArr xs => ys <- mapM (pickItem fields) xs ;; Ok (JArr ys)
       | _ => pickItem fields data
       end)
  | omit =>
      let fields := map trim (split "," (config step)) in
      (data,
       match data with
       | JArr xs => ys <- mapM (omitItem fields) xs ;; Ok (JArr ys)
       | _ => omitItem fields data
       end)
  | rename =>
      let mappings := map (fun s => map trim (split ":" (trim s)))
                          (split "," (config step)) in
      let renameMap := newMap (map (fun m => (nth 0 m EmptyString, nth_error m 1))
                                   mappings) in
      (data,
       match data with
       | JArr xs => ys <- mapM (renameItem renameMap) xs ;; Ok (JArr ys)
       | _ => renameItem renameMap data
       end)
  | custom => runCustom (config step) data
  | jq =>
      let path := trim (config step) in
      (data,
       if startsWith "." path then getNestedValue data (sliceFrom 1 path)
       else Ok data)
  end.

(** The loop of [handleRunWorkflow]: the running value and the trace so
    far.  An error ends the loop ([break]); [current] still names the value
    the failing step was given, in the state that step left it in. *)
Fixpoint runSteps (current : value) (stepResults : list StepResult)
  (steps : list WorkflowStep) : value * list StepResult :=
  match steps with
  | [] => (current, stepResults)
  | step :: rest =>
      if negb (enabled step) then runSteps current stepResults rest
      else
        match executeWorkflowStep current step with
        | (_, Ok next) =>
            runSteps next
              (stepResults ++ [mkStepResult (stepId_ step) (JSON_stringify2 next) None])%list
              rest
        | (after, Throw err) =>
            (after,
             (stepResults ++ [mkStepResult (stepId_ step) (JSON_stringify2 after)
                                (Some err)])%list)
        end
  end.

(** The response of [handleRunWorkflow]; [JSON.parse] is outside the
    [try], so a malformed input throws. *)
Definition handleRunWorkflow (input : string) (steps : list WorkflowStep)
  : Exc WorkflowResult :=
  current <- JSON_parse input ;;
  let '(final, stepResults) := runSteps current [] steps in
  Ok (mkWorkflowResult stepResults (JSON_stringify2 final)).

End Workflow.

(** ** Regular expressions of the interpreters *)

Definition notLineTerminator (c : ascii) : bool := negb (isLineTerminator c).

(** [\s*(.+)$] on the rest of a text: the text captured by the group.  The
    white space is matched greedily, and given back as long as what follows
    is empty or holds a line terminator. *)
Fixpoint matchTail (s : string) : option string :=
  match s with
  | EmptyString => None
  | String c r =>
      let here := if all notLineTerminator s then Some s else None in
      if isSpace c then
        match matchTail r with
        | Some t => Some t
        | None => here
        end
      else here
  end.

(** The alternatives of an operator group, in order: the first one that is
    a prefix of the text and lets the rest of the pattern match. *)
Fixpoint firstOp (ops : list string) (s : string) : option (string * string) :=
  match ops with
  | [] => None
  | op :: rest =>
      if prefix op s then
        match matchTail (sliceFrom (Z.of_nat (String.length op)) s) with
        | Some raw => Some (op, raw)
        | None => firstOp rest s
        end
      else firstOp rest s
  end.

(** [^(\w+)\s*(op1|op2|...)\s*(.+)$]: key, operator and captured value. *)
Definition condMatch (ops : list string) (s : string)
  : option (string * string * string) :=
  let '(key, rest) := span isWord s in
  match key with
  | EmptyString => None
  | _ =>
      match firstOp ops (trimStart rest) with
      | Some (op, raw) => Some (key, op, raw)
      | None => None
      end
  end.

(** [cond.match(/^\.(\w+)\s*(==|!=|>|>=|<|<=)\s*(.+)$/)]. *)
Definition jqCondMatch (cond : string) : option (string * string * string) :=
  match cond with
  | String "." r => condMatch ["=="; "!="; ">"; ">="; "<"; "<="] r
  | _ => None
  end.

(** [/^".*"$/.test(s)] and [/^['"].*['"]$/.test(s)]. *)
Definition quotedBy (q : ascii -> bool) (s : string) : bool :=
  match s, last s with
  | String c r, Some d =>
      q c && q d && Nat.leb 2 (String.length s)
      && all notLineTerminator (slice 1 (-1) s)
  | _, _ => false
  end.

Definition isDoubleQuote (c : ascii) : bool := Nat.eqb (code c) 34.

(** [part.match(/^(\w+)\[(.+)\]$/)] of the JSONata subset. *)
Definition filterMatch (part : string) : option (string * string) :=
  let '(key, rest) := span isWord part in
  match key, rest with
  | String _ _, String "[" r =>
      let f := slice 0 (-1) r in
      if endsWith "]" r && nonEmpty f && all notLineTerminator f
      then Some (key, f) else None
  | _, _ => None
  end.

(** ** The query interpreters *)

Definition optEqb (a b : option string) : bool :=
  match a, b with
  | Some x, Some y => String.eqb x y
  | None, None => true
  | _, _ => false
  end.

(** [new Set(keys)], spread: each key once, at its first position. *)
Definition setAdd (s : list (option string)) (k : option string)
  : list (option string) :=
  if existsb (optEqb k) s then s else (s ++ [k])%list.

Definition newSet (ks : list (option string)) : list (option string) :=
  fold_left setAdd ks [].

(** [ToIntegerOrInfinity] on the numbers of the model, and
    [xs.slice(start, end)]. *)
Definition toInteger (n : number) : Z :=
  match n with
  | NaN => 0%Z
  | Int z => z
  end.

Definition arraySlice (xs : list value) (start : number) (end_ : option number)
  : list value :=
  let len := Z.of_nat (List.length xs) in
  let from := relIndex len (toInteger start) in
  let to := match end_ with
            | Some e => relIndex len (toInteger e)
            | None => len
            end in
  firstn (Z.to_nat (to - from)) (skipn (Z.to_nat from) xs).

(** The text [JSON.parse] reads for a key of the set: [undefined] becomes
    the text ["undefined"]. *)
Definition keyText (k : option string) : string :=
  match k with
  | Some s => s
  | None => "undefined"
  end.

Section Query.

Variable JSON_parse : string -> Exc value.

(** [new RegExp(pattern).test(text)]: building the expression throws on a
    malformed pattern. *)
Variable RegExp_test : string -> string -> Exc bool.

(** [[...new Set(xs.map(x => JSON.stringify(x)))].map(x => JSON.parse(x))]. *)
Definition uniqueBySerialization (xs : list value) : Exc (list value) :=
  mapM (fun k => JSON_parse (keyText k)) (newSet (map JSON_stringify xs)).

(** The literal of a [select] condition, typed by its text. *)
Definition jqLiteral (rawVal : string) : value :=
  let cmpVal := trim rawVal in
  if String.eqb cmpVal "null" then JNull
  else if String.eqb cmpVal "true" then JBool true
  else if String.eqb cmpVal "false" then JBool false
  else if quotedBy isDoubleQuote cmpVal then JStr (slice 1 (-1) cmpVal)
  else if negb (isNaN (stringToNumber cmpVal)) then JNum (stringToNumber cmpVal)
  else JStr cmpVal.

Definition evalJqCondition (item : value) (cond : string) : Exc bool :=
  match (if isObjectLike item then jqCondMatch cond else None) with
  | Some (key, op, rawVal) =>
      let fieldVal := field item key in
      let cmpVal := jqLiteral rawVal in
      if String.eqb op "==" then
        Ok (strictEq fieldVal cmpVal
            || optEqb (JSON_stringify fieldVal) (JSON_stringify cmpVal))
      else if String.eqb op "!=" then Ok (negb (strictEq fieldVal cmpVal))
      else if String.eqb op ">" then
        n <- Number_ fieldVal ;; m <- Number_ cmpVal ;; Ok (numGt n m)
      else if String.eqb op ">=" then
        n <- Number_ fieldVal ;; m <- Number_ cmpVal ;; Ok (numGe n m)
      else if String.eqb op "<" then
        n <- Number_ fieldVal ;; m <- Number_ cmpVal ;; Ok (numLt n m)
      else
        n <- Number_ fieldVal ;; m <- Number_ cmpVal ;; Ok (numLe n m)
  | None =>
      Ok (if startsWith "." cond && isObjectLike item
          then truthy (field item (sliceFrom 1 cond))
          else true)
  end.

(** One stage of a jq filter chain; [recur] is [executeJq] itself, for
    [map(expr)]. *)
Definition jqStage (recur : value -> string -> Exc value) (current : value)
  (part : string) : Exc value :=
  if String.eqb part "." then Ok current
  else if String.eqb part "keys" || String.eqb part "keys[]" then
    Ok (if isObjectLike current then JArr (map JStr (keys current)) else current)
  else if String.eqb part "values" || String.eqb part "values[]" then
    Ok (if isObjectLike current then JArr (values current) else current)
  else if String.eqb part "length" then
    Ok match current with
       | JArr xs => num (Z.of_nat (List.length xs))
       | JObj kvs => num (Z.of_nat (List.length kvs))
       | JStr s => num (Z.of_nat (String.length s))
       | _ => current
       end
  else if String.eqb part "flatten" then
    Ok match current with
       | JArr xs => JArr (flat_map (fun x => match x with
                                             | JArr ys => ys
                                             | _ => [x]
                                             end) xs)
       | _ => current
       end
  else if String.eqb part "sort" then
    match current with
    | JArr xs => ys <- Sort.sort Sort.byString xs ;; Ok (JArr ys)
    | _ => Ok current
    end
  else if String.eqb part "unique" then
    match current with
    | JArr xs => ys <- uniqueBySerialization xs ;; Ok (JArr ys)
    | _ => Ok current
    end
  else if String.eqb part "reverse" then
    Ok match current with
       | JArr xs => JArr (rev xs)
       | _ => current
       end
  else if String.eqb part "type" then
    Ok (JStr match current with
             | JArr _ => "array"
             | JNull => "null"
             | _ => typeOf current
             end)
  else if startsWith "." part then
    let key := stripSuffix "[]" (sliceFrom 1 part) in
    Ok match current with
       | JArr xs =>
           JArr (filter (fun v => negb (isUndefined v))
                   (map (fun item => if isObjectLike item then field item key
                                     else JUndef) xs))
       | JObj _ => field current key
       | _ => current
       end
  else if startsWith "map(" part && endsWith ")" part then
    let innerExpr := trim (slice 4 (-1) part) in
    match current with
    | JArr xs => ys <- mapM (fun item => recur item innerExpr) xs ;; Ok (JArr ys)
    | _ => Ok current
    end
  else if startsWith "select(" part && endsWith ")" part then
    let cond := trim (slice 7 (-1) part) in
    match current with
    | JArr xs => ys <- filterM (fun item => evalJqCondition item cond) xs ;; Ok (JArr ys)
    | _ => Ok current
    end
  else if startsWith "[" part && endsWith "]" part then
    let inner := trim (slice 1 (-1) part) in
    Ok match current with
       | JArr xs =>
           if nonEmpty inner && all isDigit inner then at_ xs (parseInt inner)
           else if includes ":" inner then
             let bounds := map (fun n => match trim n with
                                         | EmptyString => None
                                         | t => Some (parseInt t)
                                         end) (split ":" inner) in
             let s := match nth 0 bounds None with
                      | Some n => n
                      | None => Int 0
                      end in
             JArr (arraySlice xs s (nth 1 bounds None))
           else current
       | _ => current
       end
  else if String.eqb part "first" then
    Ok match current with
       | JArr xs => at_ xs (Int 0)
       | _ => current
       end
  else if String.eqb part "last" then
    Ok match current with
       | JArr xs => at_ xs (Int (Z.of_nat (List.length xs) - 1))
       | _ => current
       end
  else if String.eqb part "not" then Ok (JBool (negb (truthy current)))
  else if String.eqb part "to_entries" then
    Ok match current with
       | JObj kvs =>
           JArr (map (fun kv => JObj [("key", JStr (fst kv)); ("value", snd kv)]) kvs)
       | _ => current
       end
  else if String.eqb part "from_entries" then
    match current with
    | JArr xs =>
        r <- foldM (fun r item =>
                      if isObjectLike item && hasProperty item "key"
                         && hasProperty item "value"
                      then k <- String_ (field item "key") ;;
                           Ok (obj_set r k (field item "value"))
                      else Ok r)
                   [] xs ;;
        Ok (JObj r)
    | _ => Ok current
    end
  else Ok current.

(** [executeJq] calls itself on the text inside [map(...)], which is
    shorter than the query: the recursion is on a bound of that length. *)
Fixpoint executeJqWithin (depth : nat) (data : value) (query : string)
  : Exc value :=
  match depth with
  | 0 => Throw "RangeError: Maximum call stack size exceeded"
  | S d =>
      foldM (jqStage (executeJqWithin d)) data (map trim (split "|" query))
  end.

Definition executeJq (data : value) (query : string) : Exc value :=
  executeJqWithin (S (String.length query)) data query.

(** The literal of a JSONata predicate, typed by its text. *)
Definition jsonataLiteral (fVal : string) : value :=
  let compareVal := trim fVal in
  if quotedBy isQuote compareVal then JStr (slice 1 (-1) compareVal)
  else if negb (isNaN (stringToNumber compareVal))
  then JNum (stringToNumber compareVal)
  else JStr compareVal.

Definition jsonataFilterItem (fKey fOp : string) (compareVal item : value)
  : Exc bool :=
  if negb (isObjectLike item) then Ok false
  else
    let v := field item fKey in
    if String.eqb fOp "=" then
      if strictEq v compareVal then Ok true
      else s <- String_ v ;; t <- String_ compareVal ;; Ok (String.eqb s t)
    else if String.eqb fOp "!=" then Ok (negb (strictEq v compareVal))
    else if String.eqb fOp ">" then
      n <- Number_ v ;; m <- Number_ compareVal ;; Ok (numGt n m)
    else if String.eqb fOp "<" then
      n <- Number_ v ;; m <- Number_ compareVal ;; Ok (numLt n m)
    else Ok false.

(** The loop of [resolveJsonataPath]; a wildcard and a scalar met on the
    way end it ([return]). *)
Fixpoint resolveParts (current : value) (parts : list string) : Exc value :=
  match parts with
  | [] => Ok current
  | part :: rest =>
      if String.eqb part "*" then
        Ok match current with
           | JArr _ => current
           | JObj _ => JArr (values current)
           | _ => current
           end
      else
        match filterMatch part with
        | Some (key, flt) =>
            let c1 := if isObjectLike current then field current key else current in
            c2 <- match c1 with
                  | JArr xs =>
                      match condMatch ["="; "!="; ">"; "<"] flt with
                      | Some (fKey, fOp, fVal) =>
                          ys <- filterM (jsonataFilterItem fKey fOp (jsonataLiteral fVal))
                                  xs ;;
                          Ok (JArr ys)
                      | None => Ok c1
                      end
                  | _ => Ok c1
                  end ;;
            resolveParts c2 rest
        | None =>
            match current with
            | JArr xs =>
                resolveParts
                  (JArr (filter (fun v => negb (isUndefined v))
                           (map (fun item => if isObjectLike item
                                             then field item part else JUndef) xs)))
                  rest
            | JObj _ => resolveParts (field current part) rest
            | _ => Ok JUndef
            end
        end
  end.

Definition resolveJsonataPath (data : value) (path : string) : Exc value :=
  resolveParts data (filter nonEmpty (split "." path)).

(** [trimmed.match(/^\$name\((\S+)\)$/)]: the captured path. *)
Definition callMatch (name trimmed : string) : option string :=
  let opening := "$" ++ name ++ "(" in
  let inner := slice (Z.of_nat (String.length opening)) (-1) trimmed in
  if startsWith opening trimmed && endsWith ")" trimmed
     && Nat.ltb (String.length opening) (String.length trimmed)
     && nonEmpty inner && all (fun c => negb (isSpace c)) inner
  then Some inner else None.

Definition executeJsonata (data : value) (query : string) : Exc value :=
  let trimmed := trim query in
  if String.eqb trimmed "$count($)" || String.eqb trimmed "count($)" then
    Ok match data with
       | JArr xs => num (Z.of_nat (List.length xs))
       | JObj kvs => num (Z.of_nat (List.length kvs))
       | _ => num 1
       end
  else
    match callMatch "sum" trimmed with
    | Some path =>
        values <- resolveJsonataPath data path ;;
        match values with
        | JArr xs =>
            total <- foldM (fun s v => n <- Number_ v ;; Ok (numAdd s n)) (Int 0) xs ;;
            Ok (JNum total)
        | v => n <- Number_ v ;; Ok (JNum n)
        end
    | None =>
        match callMatch "distinct" trimmed with
        | Some path =>
            values <- resolveJsonataPath data path ;;
            match values with
            | JArr xs => ys <- uniqueBySerialization xs ;; Ok (JArr ys)
            | v => Ok v
            end
        | None => resolveJsonataPath data trimmed
        end
    end.

(** One operator of a field condition of [matchesMongo]: [false] is the
    [return false] of the source, [true] its [break]. *)
Definition mongoOp (fieldVal : value) (op : string) (opVal : value) : Exc bool :=
  if String.eqb op "$eq" then Ok (strictEq fieldVal opVal)
  else if String.eqb op "$ne" then Ok (negb (strictEq fieldVal opVal))
  else if String.eqb op "$gt" then
    n <- Number_ fieldVal ;; m <- Number_ opVal ;; Ok (negb (numLe n m))
  else if String.eqb op "$gte" then
    n <- Number_ fieldVal ;; m <- Number_ opVal ;; Ok (negb (numLt n m))
  else if String.eqb op "$lt" then
    n <- Number_ fieldVal ;; m <- Number_ opVal ;; Ok (negb (numGe n m))
  else if String.eqb op "$lte" then
    n <- Number_ fieldVal ;; m <- Number_ opVal ;; Ok (negb (numGt n m))
  else if String.eqb op "$in" then
    Ok match opVal with
       | JArr ys => existsb (fun y => sameValueZero y fieldVal) ys
       | _ => false
       end
  else if String.eqb op "$nin" then
    Ok match opVal with
       | JArr ys => negb (existsb (fun y => sameValueZero y fieldVal) ys)
       | _ => true
       end
  else if String.eqb op "$exists" then
    Ok (negb ((truthy opVal && isUndefined fieldVal)
              || (negb (truthy opVal) && negb (isUndefined fieldVal))))
  else if String.eqb op "$regex" then
    pattern <- String_ opVal ;;
    match String_ fieldVal with
    | Ok text => RegExp_test pattern text
    | Throw err =>
        (* the expression is built before the field is converted *)
        match RegExp_test pattern EmptyString with
        | Ok _ => Throw err
        | Throw syntaxError => Throw syntaxError
        end
    end
  else Ok true.

(** The body of the loop of [matchesMongo] for a key that is none of
    [$and], [$or], [$not]. *)
Definition mongoField (obj : value) (key : string) (condition : value) : Exc bool :=
  let fieldVal := field obj key in
  match condition with
  | JObj ops => everyM (fun kv => mongoOp fieldVal (fst kv) (snd kv)) ops
  | _ =>
      Ok (negb (negb (strictEq fieldVal condition)
                && negb (optEqb (JSON_stringify fieldVal) (JSON_stringify condition))))
  end.

(** [matchesMongo]: the loop over [Object.entries(query)] returns at the
    first of [$and], [$or], [$not], and at the first condition that fails.
    The entries of an array or of a string used as a query have index keys,
    so only the field case applies to them. *)
Fixpoint matchesMongo (item : value) (query : value) : Exc bool :=
  if negb (isObjectLike item) then Ok false
  else
    match query with
    | JUndef | JNull =>
        Throw "TypeError: Cannot convert undefined or null to object"
    | JObj kvs =>
        (fix loop (kvs : list (string * value)) : Exc bool :=
           match kvs with
           | [] => Ok true
           | (key, condition) :: rest =>
               if String.eqb key "$and" then
                 match condition with
                 | JArr cs =>
                     (fix every (cs : list value) : Exc bool :=
                        match cs with
                        | [] => Ok true
                        | c :: cs' =>
                            b <- matchesMongo item c ;;
                            if b then every cs' else Ok false
                        end) cs
                 | _ => Ok false
                 end
               else if String.eqb key "$or" then
                 match condition with
                 | JArr cs =>
                     (fix some (cs : list value) : Exc bool :=
                        match cs with
                        | [] => Ok false
                        | c :: cs' =>
                            b <- matchesMongo item c ;;
                            if b then Ok true else some cs'
                        end) cs
                 | _ => Ok false
                 end
               else if String.eqb key "$not" then
                 b <- matchesMongo item condition ;; Ok (negb b)
               else
                 b <- mongoField item key condition ;;
                 if b then loop rest else Ok false
           end) kvs
    | JArr _ | JStr _ | JBool _ | JNum _ =>
        es <- entries query ;;
        everyM (fun kv => mongoField item (fst kv) (snd kv)) es
    end.

(** What [executeMongodb] does once the query text is parsed. *)
Definition mongoFind (data query : value) : Exc value :=
  match data with
  | JArr xs => ys <- filterM (fun item => matchesMongo item query) xs ;; Ok (JArr ys)
  | JObj _ =>
      match filter isArray (values data) with
      | JArr xs :: _ =>
          ys <- filterM (fun item => matchesMongo item query) xs ;; Ok (JArr ys)
      | _ => b <- matchesMongo data query ;; Ok (if b then data else JNull)
      end
  | _ => Ok data
  end.

(** [executeMongodb]: one [try] around the parsing and the scan, every
    error thrown again under the same heading. *)
Definition executeMongodb (data : value) (queryStr : string) : Exc value :=
  match (query <- JSON_parse queryStr ;; mongoFind data query) with
  | Ok r => Ok r
  | Throw err => Throw ("Error: Invalid MongoDB query: " ++ err)
  end.

Definition handleQuery (jsonStr query : string) (language : QueryLanguage)
  : QueryResult :=
  match (data <- JSON_parse jsonStr ;;
         match language with
         | jqLang => executeJq data query
         | jsonata => executeJsonata data query
         | mongodb => executeMongodb data query
         end) with
  | Ok r => mkQueryResult (JSON_stringify2 r) None
  | Throw err => mkQueryResult (Some EmptyString) (Some err)
  end.

End Query.

(** The response of a handler that answers an exception with an [error]
    message. *)
Inductive Response (A : Type) : Type :=
| Result (payload : A)
| ErrorMessage (message : string).
Arguments Result {A} payload.
Arguments ErrorMessage {A} message.

(** ** RFC 6902 patches *)

Inductive PatchOpName : Type :=
| add | remove | replace | move | copy | test.

(** A [DiffPatchOp]; its field [value] is [value_] here, and is [None]
    where the object literal has no such property. *)
Record DiffPatchOp : Type := mkPatchOp {
  op : PatchOpName;
  path : string;
  value_ : option value;
  from : option string
}.

(** [s.replace(/c/g, by)] for one character [c]. *)
Fixpoint replaceChar (c : ascii) (by_ : string) (s : string) : string :=
  match s with
  | EmptyString => EmptyString
  | String d r =>
      if Ascii.eqb d c then by_ ++ replaceChar c by_ r
      else String d (replaceChar c by_ r)
  end.

(** [key.replace(/~/g, '~0').replace(/\//g, '~1')]. *)
Definition escapeKey (key : string) : string :=
  replaceChar "/" "~1" (replaceChar "~" "~0" key).

(** [path || '/']. *)
Definition pathOrRoot (p : string) : string :=
  if nonEmpty p then p else "/".

Definition isNull (v : value) : bool :=
  match v with
  | JNull => true
  | _ => false
  end.

(** The turns of the array loop of [generatePatch] from index [i] on, once
    the left array is exhausted: one [add] for each element left on the
    right. *)
Fixpoint addsFrom (p : string) (ys : list value) (i : nat) : list DiffPatchOp :=
  match ys with
  | [] => []
  | y :: yr =>
      mkPatchOp add (p ++ "/" ++ showNat i) (Some y) None :: addsFrom p yr (S i)
  end.

(** The array loop of [generatePatch] from index [i] on, over what remains
    of the two arrays; [recur] is [generatePatch] itself. *)
Definition patchElements (recur : value -> value -> string -> list DiffPatchOp)
  (p : string) : list value -> list value -> nat -> list DiffPatchOp :=
  fix elements (xs ys : list value) (i : nat) {struct xs} : list DiffPatchOp :=
    match xs with
    | [] => addsFrom p ys i
    | x :: xr =>
        match ys with
        | [] => mkPatchOp remove (p ++ "/" ++ showNat i) None None :: elements xr [] (S i)
        | y :: yr => (recur x y (p ++ "/" ++ showNat i)%string ++ elements xr yr (S i))%list
        end
    end.

(** One turn of the loop over the keys of the right object: [leftObj] is
    searched for the key, which gives [key in leftObj] and [leftObj[key]]
    at once. *)
Definition patchMember (recur : value -> value -> string -> list DiffPatchOp)
  (p key : string) (rightVal : value)
  : list (string * value) -> list DiffPatchOp :=
  fix find (leftObj : list (string * value)) : list DiffPatchOp :=
    match leftObj with
    | [] => [mkPatchOp add (p ++ "/" ++ escapeKey key) (Some rightVal) None]
    | (k, leftVal) :: rest =>
        if String.eqb key k then recur leftVal rightVal (p ++ "/" ++ escapeKey key)
        else find rest
    end.

(** [generatePatch]: the operations it pushes, in order. *)
Fixpoint generatePatch (left right : value) (p : string) {struct left}
  : list DiffPatchOp :=
  if strictEq left right then []
  else if isUndefined left && negb (isUndefined right) then
    [mkPatchOp add (pathOrRoot p) (Some right) None]
  else if isUndefined right && negb (isUndefined left) then
    [mkPatchOp remove (pathOrRoot p) None None]
  else if negb (String.eqb (typeOf left) (typeOf right))
          || negb (Bool.eqb (isArray left) (isArray right))
          || negb (Bool.eqb (isNull left) (isNull right)) then
    [mkPatchOp replace (pathOrRoot p) (Some right) None]
  else
    match left, right with
    | JArr xs, JArr ys => patchElements generatePatch p xs ys 0
    | JObj leftObj, JObj rightObj =>
        (flat_map (fun key =>
                     patchMember generatePatch p key (orUndef (assoc key rightObj))
                       leftObj)
                  (map fst rightObj)
         ++ flat_map (fun key =>
                        if hasKey key rightObj then []
                        else [mkPatchOp remove (p ++ "/" ++ escapeKey key)%string
                                None None])
                     (map fst leftObj))%list
    | _, _ => [mkPatchOp replace (pathOrRoot p) (Some right) None]
    end.

(** ** Flattening *)

Record FlattenOptions : Type := mkFlattenOptions {
  delimiter : string;
  safe : bool;
  maxDepth : option number
}.

(** [prefix ? `${prefix}${delim}${key}` : key]. *)
Definition flattenKey (delim pre key : string) : string :=
  if nonEmpty pre then pre ++ delim ++ key else key.

(** [options.maxDepth !== undefined && depth >= options.maxDepth]. *)
Definition atMaxDepth (options : FlattenOptions) (depth : nat) : bool :=
  match maxDepth options with
  | Some m => numGe (Int (Z.of_nat depth)) m
  | None => false
  end.

(** [xs.forEach((item, i) => ...)] over a state, from index [i] on. *)
Definition forEach {T : Type} (f : value -> nat -> T -> T)
  : list value -> nat -> T -> T :=
  fix each (xs : list value) (i : nat) (acc : T) {struct xs} : T :=
    match xs with
    | [] => acc
    | x :: r => each r (S i) (f x i acc)
    end.

(** The function [recurse] of [handleFlatten]; [result] is the object it
    fills, passed in and returned. *)
Fixpoint recurse (options : FlattenOptions) (delim : string) (obj : value)
  (pre : string) (depth : nat) (result : list (string * value)) {struct obj}
  : list (string * value) :=
  if atMaxDepth options depth then obj_set result pre obj
  else
    match obj with
    | JArr xs =>
        if safe options then obj_set result pre obj
        else
          forEach (fun item i acc =>
                     recurse options delim item (flattenKey delim pre (showNat i))
                       (depth + 1) acc)
                  xs 0 result
    | JObj kvs =>
        fold_left (fun acc kv =>
                     recurse options delim (snd kv) (flattenKey delim pre (fst kv))
                       (depth + 1) acc)
                  kvs result
    | _ => obj_set result pre obj
    end.

Section Flatten.

Variable JSON_parse : string -> Exc value.

(** The text of the [flattenResult] response; [JSON.parse] is not inside a
    [try], so a malformed input throws. *)
Definition handleFlatten (input : string) (options : FlattenOptions)
  : Exc (option string) :=
  data <- JSON_parse input ;;
  let delim := if nonEmpty (delimiter options) then delimiter options else "." in
  Ok (JSON_stringify2 (JObj (recurse options delim data EmptyString 0 []))).

End Flatten.

(** ** Profiling *)

(** [ProfileMetrics], without [parseTime]; its field [maxDepth] is
    [maxDepth_] here. *)
Record ProfileMetrics : Type := mkProfileMetrics {
  totalNodes : Z;
  maxDepth_ : Z;
  maxBreadth : Z;
  estimatedMemory : Z;
  uniqueKeys : Z;
  typeDistribution : list (string * value);
  depthDistribution : list (string * value)
}.

Definition getValueType (v : value) : string :=
  match v with
  | JNull => "null"
  | JArr _ => "array"
  | _ => typeOf v
  end.

(** [a || b] and [a + b]. *)
Definition orElse (a b : value) : value := if truthy a then a else b.

Definition plus (a b : value) : value :=
  match a, b with
  | (JStr _ | JArr _ | JObj _), _ | _, (JStr _ | JArr _ | JObj _) =>
      JStr (toString a ++ toString b)
  | _, _ => JNum (numAdd (toNumber a) (toNumber b))
  end.

(** [o[k] = (o[k] || 0) + 1]. *)
Definition increment (o : list (string * value)) (k : string)
  : list (string * value) :=
  obj_set o k (plus (orElse (orUndef (assoc k o)) (num 0)) (num 1)).

(** [keySet.add(k)]. *)
Definition keySetAdd (keySet : list string) (k : string) : list string :=
  if existsb (String.eqb k) keySet then keySet else (keySet ++ [k])%list.

(** The first four statements of [profileRecursive]: the node is counted,
    under its depth and under its type. *)
Definition countNode (v : value) (depth : Z) (metrics : ProfileMetrics)
  : ProfileMetrics :=
  mkProfileMetrics
    (totalNodes metrics + 1)%Z
    (if (depth >? maxDepth_ metrics)%Z then depth else maxDepth_ metrics)
    (maxBreadth metrics)
    (estimatedMemory metrics)
    (uniqueKeys metrics)
    (increment (typeDistribution metrics) (getValueType v))
    (increment (depthDistribution metrics) (showZ depth)).

Definition widen (breadth : nat) (metrics : ProfileMetrics) : ProfileMetrics :=
  mkProfileMetrics
    (totalNodes metrics)
    (maxDepth_ metrics)
    (if (Z.of_nat breadth >? maxBreadth metrics)%Z then Z.of_nat breadth
     else maxBreadth metrics)
    (estimatedMemory metrics)
    (uniqueKeys metrics)
    (typeDistribution metrics)
    (depthDistribution metrics).

(** One turn of the loop over the keys of an object: the key is added to
    the set and [value[k]] is visited; the object is searched for the key,
    and a key it does not hold reads [undefined], a leaf.  [recur] is
    [profileRecursive] itself. *)
Definition visitKey
  (recur : value -> Z -> ProfileMetrics * list string -> ProfileMetrics * list string)
  (k : string) (depth : Z) (st : ProfileMetrics * list string)
  : list (string * value) -> ProfileMetrics * list string :=
  fix find (kvs : list (string * value)) : ProfileMetrics * list string :=
    match kvs with
    | [] => (countNode JUndef (depth + 1)%Z (fst st), keySetAdd (snd st) k)
    | (k', v) :: rest =>
        if String.eqb k k' then recur v (depth + 1)%Z (fst st, keySetAdd (snd st) k)
        else find rest
    end.

(** [profileRecursive]: the metrics and the key set are passed in and
    returned. *)
Fixpoint profileRecursive (v : value) (depth : Z)
  (st : ProfileMetrics * list string) {struct v} : ProfileMetrics * list string :=
  let metrics := countNode v depth (fst st) in
  match v with
  | JObj kvs =>
      fold_left (fun st' k => visitKey profileRecursive k depth st' kvs)
                (map fst kvs)
                (widen (List.length kvs) metrics, snd st)
  | JArr xs =>
      fold_left (fun st' item => profileRecursive item (depth + 1)%Z st')
                xs
                (widen (List.length xs) metrics, snd st)
  | _ => (metrics, snd st)
  end.

Section Profile.

Variable JSON_parse : string -> Exc value.

(** [new Blob([text]).size]. *)
Variable blobSize : string -> Z.

Definition handleProfile (jsonStr : string) : Response ProfileMetrics :=
  match JSON_parse jsonStr with
  | Ok data =>
      let metrics := mkProfileMetrics 0 0 0 (blobSize jsonStr) 0 [] [] in
      let '(m, keySet) := profileRecursive data 0 (metrics, []) in
      Result (mkProfileMetrics (totalNodes m) (maxDepth_ m) (maxBreadth m)
                (estimatedMemory m) (Z.of_nat (List.length keySet))
                (typeDistribution m) (depthDistribution m))
  | Throw err => ErrorMessage ("Profile error: " ++ err)
  end.

End Profile.

(** ** Structural diff *)

Inductive DiffType : Type :=
| added | removed | changed | unchanged.

(** A [DiffResult]; its fields [type], [path] and [key] are [diffType],
    [diffPath] and [diffKey] here, and [oldValue] and [newValue] are [None]
    where the object literal has no such property. *)
Record DiffResult : Type := mkDiffResult {
  diffType : DiffType;
  diffPath : string;
  diffKey : string;
  oldValue : option value;
  newValue : option value
}.

(** [path.split('.').pop() || '$']. *)
Definition keyOfPath (p : string) : string :=
  let lastPart := List.last (split "." p) EmptyString in
  if nonEmpty lastPart then lastPart else "$".

(** [computeDiff(undefined, right, path)], which does not call itself. *)
Definition diffFromUndefined (right : value) (p : string) : list DiffResult :=
  if strictEq JUndef right then
    [mkDiffResult unchanged p (keyOfPath p) (Some JUndef) (Some right)]
  else [mkDiffResult added p (keyOfPath p) None (Some right)].

(** The turns of the array loop of [computeDiff] from index [i] on, once
    the left array is exhausted. *)
Fixpoint diffsFrom (p : string) (ys : list value) (i : nat) : list DiffResult :=
  match ys with
  | [] => []
  | y :: yr =>
      (diffFromUndefined y (p ++ "[" ++ showNat i ++ "]")%string
       ++ diffsFrom p yr (S i))%list
  end.

(** The array loop of [computeDiff] from index [i] on, over what remains
    of the two arrays; [recur] is [computeDiff] itself. *)
Definition diffElements (recur : value -> value -> string -> list DiffResult)
  (p : string) : list value -> list value -> nat -> list DiffResult :=
  fix elements (xs ys : list value) (i : nat) {struct xs} : list DiffResult :=
    match xs with
    | [] => diffsFrom p ys i
    | x :: xr =>
        match ys with
        | [] =>
            (recur x JUndef (p ++ "[" ++ showNat i ++ "]")%string
             ++ elements xr [] (S i))%list
        | y :: yr =>
            (recur x y (p ++ "[" ++ showNat i ++ "]")%string
             ++ elements xr yr (S i))%list
        end
    end.

(** One turn of the loop over the keys of the two objects: [leftObj] is
    searched for the key, and a key it does not hold reads [undefined]. *)
Definition diffMember (recur : value -> value -> string -> list DiffResult)
  (p key : string) (rightVal : value)
  : list (string * value) -> list DiffResult :=
  fix find (leftObj : list (string * value)) : list DiffResult :=
    match leftObj with
    | [] => diffFromUndefined rightVal (p ++ "." ++ key)
    | (k, leftVal) :: rest =>
        if String.eqb key k then recur leftVal rightVal (p ++ "." ++ key)
        else find rest
    end.

(** [new Set(keys)], spread, for strings. *)
Definition newKeySet (ks : list string) : list string :=
  fold_left keySetAdd ks [].

Fixpoint computeDiff (left right : value) (p : string) {struct left}
  : list DiffResult :=
  if strictEq left right then
    [mkDiffResult unchanged p (keyOfPath p) (Some left) (Some right)]
  else if isUndefined left then
    [mkDiffResult added p (keyOfPath p) None (Some right)]
  else if isUndefined right then
    [mkDiffResult removed p (keyOfPath p) (Some left) None]
  else if negb (String.eqb (typeOf left) (typeOf right))
          || negb (Bool.eqb (isArray left) (isArray right)) then
    [mkDiffResult changed p (keyOfPath p) (Some left) (Some right)]
  else
    match left, right with
    | JArr xs, JArr ys => diffElements computeDiff p xs ys 0
    | JObj leftObj, JObj rightObj =>
        flat_map (fun key =>
                    diffMember computeDiff p key (orUndef (assoc key rightObj))
                      leftObj)
                 (newKeySet (map fst leftObj ++ map fst rightObj)%list)
    | _, _ =>
        if negb (optEqb (JSON_stringify left) (JSON_stringify right)) then
          [mkDiffResult changed p (keyOfPath p) (Some left) (Some right)]
        else [mkDiffResult unchanged p (keyOfPath p) (Some left) (Some right)]
    end.

Section Diff.

Variable JSON_parse : string -> Exc value.

Definition handleDiff (leftStr rightStr : string) : Response (list DiffResult) :=
  match (left <- JSON_parse leftStr ;;
         right <- JSON_parse rightStr ;;
         Ok (computeDiff left right "$")) with
  | Ok diffs => Result diffs
  | Throw err => ErrorMessage ("Diff error: " ++ err)
  end.

Definition handleDiffPatch (leftStr rightStr : string)
  : Response (list DiffPatchOp) :=
  match (left <- JSON_parse leftStr ;;
         right <- JSON_parse rightStr ;;
         Ok (generatePatch left right EmptyString)) with
  | Ok patch => Result patch
  | Throw err => ErrorMessage ("DiffPatch error: " ++ err)
  end.

End Diff.

(** ** Data masking *)

(** [ToInt32]: the integer modulo 2^32 that lies in [-2^31, 2^31). *)
Definition toInt32 (z : Z) : Z :=
  ((z + 2147483648) mod 4294967296 - 2147483648)%Z.

(** [n.toString(16)] for an integer [n >= 0]: the digits are produced from
    the last one; [fuel] bounds their number. *)
Fixpoint hexFrom (fuel : nat) (n : Z) (acc : string) : string :=
  match fuel with
  | 0 => acc
  | S f =>
      let acc' := String (Json.hexDigit (Z.to_nat (n mod 16))) acc in
      if (n / 16 =? 0)%Z then acc' else hexFrom f (n / 16)%Z acc'
  end.

Definition toString16 (n : Z) : string :=
  hexFrom (S (Z.to_nat (Z.log2 n))) n EmptyString.

Fixpoint repeat_ (s : string) (n : nat) : string :=
  match n with
  | 0 => EmptyString
  | S m => s ++ repeat_ s m
  end.

(** [s.padStart(width, '0')]. *)
Definition padStart0 (width : nat) (s : string) : string :=
  repeat_ "0" (width - String.length s) ++ s.

(** The loop of [hashString]: [hash = ((hash << 5) - hash) + char], then
    [hash = hash & hash]. *)
Fixpoint hashLoop (hash : Z) (str : string) : Z :=
  match str with
  | EmptyString => hash
  | String c r =>
      hashLoop (toInt32 (toInt32 (hash * 32) - hash + Z.of_nat (code c))) r
  end.

Definition hashString (str : string) : string :=
  "h_" ++ padStart0 8 (toString16 (Z.abs (hashLoop 0 str))).

Record MaskingConfig : Type := mkMaskingConfig {
  fields : list string;
  rule : string;
  preserveStructure : bool
}.

(** [xs.map(f)] where [f] passes a state on. *)
Definition mapState {A B T : Type} (f : A -> T -> B * T)
  : list A -> T -> list B * T :=
  fix go (l : list A) (s : T) : list B * T :=
    match l with
    | [] => ([], s)
    | x :: r =>
        let '(y, s1) := f x s in
        let '(ys, s2) := go r s1 in
        (y :: ys, s2)
    end.

Section Masking.

(** [Math.floor(Math.random() * bound)] at the call of [Math.random] with
    the given number, counted from 0: the state that is passed on is the
    number of calls made so far. *)
Variable randomBelow : nat -> Z -> Z.

Variable JSON_parse : string -> Exc value.

(** ['abcdefghijklmnopqrstuvwxyz'[i]], joined: nothing when [i] is out of
    range. *)
Definition letterAt (i : Z) : string :=
  match nthZ (chars "abcdefghijklmnopqrstuvwxyz") i with
  | Some c => toString c
  | None => EmptyString
  end.

(** [Array.from({ length }, () => letter).join('')]. *)
Fixpoint randomLetters (length : nat) (n : nat) : string * nat :=
  match length with
  | 0 => (EmptyString, n)
  | S m =>
      let '(rest, n') := randomLetters m (S n) in
      (letterAt (randomBelow n 26) ++ rest, n')
  end.

Definition maskValue (val : value) (rule_ : string) (n : nat) : value * nat :=
  if String.eqb rule_ "redact" then (JStr "***REDACTED***", n)
  else if String.eqb rule_ "hash" then (JStr (hashString (toString val)), n)
  else if String.eqb rule_ "partial" then
    let s := toString val in
    if Nat.leb (String.length s) 4 then (JStr "****", n)
    else (JStr (slice 0 2 s ++ repeat_ "*" (String.length s - 4) ++ sliceFrom (-2) s), n)
  else if String.eqb rule_ "randomize" then
    match val with
    | JNum _ => (JNum (Int (randomBelow n 1000)), S n)
    | JStr s =>
        let '(letters, n') := randomLetters (String.length s) n in (JStr letters, n')
    | _ => (val, n)
    end
  else if String.eqb rule_ "nullify" then (JNull, n)
  else (JStr "***", n).

Variable config_ : MaskingConfig.

(** [fieldSet.has(k.toLowerCase())]. *)
Definition listed (k : string) : bool :=
  existsb (String.eqb (toLowerCase k)) (newKeySet (map toLowerCase (fields config_))).

(** One turn of the loop of [processNode] over the entries of an object;
    [recur] is [processNode] itself. *)
Definition maskEntry (recur : value -> nat -> value * nat)
  (st : list (string * value) * nat) (kv : string * value)
  : list (string * value) * nat :=
  let '(result, n) := st in
  let '(k, v) := kv in
  if listed k then
    let '(w, n') :=
      if preserveStructure config_ && isObjectLike v then recur v n
      else maskValue v (rule config_) n in
    (obj_set result k w, n')
  else if isObjectLike v then
    let '(w, n') := recur v n in (obj_set result k w, n')
  else (obj_set result k v, n).

Fixpoint processNode (obj : value) (n : nat) {struct obj} : value * nat :=
  match obj with
  | JArr xs =>
      let '(ys, n') := mapState processNode xs n in (JArr ys, n')
  | JObj kvs =>
      let '(result, n') := fold_left (maskEntry processNode) kvs ([], n) in
      (JObj result, n')
  | _ => (obj, n)
  end.

(** The text of the [maskDataResult] response; [JSON.parse] is not inside
    a [try], so a malformed input throws. *)
Definition handleMaskData (input : string) : Exc (option string) :=
  data <- JSON_parse input ;;
  Ok (JSON_stringify2 (fst (processNode data 0))).

End Masking.

(** ** Search *)

(** [SearchMode]: ['key'], ['value'], ['regex'], ['type'] and ['path']. *)
Inductive SearchMode : Type :=
| byKey | byValue | byRegex | byType | byPath.

Record SearchOptions : Type := mkSearchOptions {
  mode : SearchMode;
  query : string;
  caseSensitive : bool;
  fuzzy : bool
}.

(** A [SearchMatch]; its fields [path], [key], [value] and [type] are
    [matchPath], [matchKey], [matchValue] and [matchType] here. *)
Record SearchMatch : Type := mkSearchMatch {
  matchPath : string;
  matchKey : string;
  matchValue : value;
  matchType : string
}.

Section Search.

(** [new RegExp(pattern, flags).test(text)]: building the expression
    throws on a malformed pattern. *)
Variable RegExp_test : string -> string -> string -> Exc bool.

Variable options : SearchOptions.
Variable limit : Z.

(** [matches.length >= limit]. *)
Definition full (matches : list SearchMatch) : bool :=
  (limit <=? Z.of_nat (List.length matches))%Z.

(** [caseSensitive ? query : query.toLowerCase()]. *)
Definition loweredQuery : string :=
  if caseSensitive options then query options else toLowerCase (query options).

(** [try { matched = re.test(a) || re.test(b) } catch {}], where [matched]
    was [false]; with one text only for an array element. *)
Definition regexMatches (texts : list string) : bool :=
  let flags := if caseSensitive options then EmptyString else "i" in
  match
    foldM (fun found text =>
             if found : bool then Ok true
             else RegExp_test (query options) flags text)
          false texts
  with
  | Ok found => found
  | Throw _ => false
  end.

Definition pathMatches (childPath : string) : bool :=
  if caseSensitive options then includes (query options) childPath
  else includes loweredQuery (toLowerCase childPath).

(** The [switch] of the loop over the entries of an object. *)
Definition entryMatches (childPath k : string) (v : value) : bool :=
  match mode options with
  | byKey =>
      includes loweredQuery (if caseSensitive options then k else toLowerCase k)
  | byValue => includes (toLowerCase loweredQuery) (toLowerCase (toString v))
  | byRegex => regexMatches [k; toString v]
  | byType => String.eqb (getValueType v) loweredQuery
  | byPath => pathMatches childPath
  end.

(** The [switch] of the loop over the elements of an array, which has no
    case for the mode ['key']. *)
Definition itemMatches (childPath : string) (item : value) : bool :=
  match mode options with
  | byKey => false
  | byValue => includes (toLowerCase loweredQuery) (toLowerCase (toString item))
  | byRegex => regexMatches [toString item]
  | byType => String.eqb (getValueType item) loweredQuery
  | byPath => pathMatches childPath
  end.

(** The loop over the entries of an object; [recur] is [searchRecursive]
    itself.  The loop returns as soon as the limit is reached. *)
Definition searchEntries
  (recur : value -> string -> list SearchMatch -> list SearchMatch) (p : string)
  : list (string * value) -> list SearchMatch -> list SearchMatch :=
  fix loop (kvs : list (string * value)) (matches : list SearchMatch)
    : list SearchMatch :=
    match kvs with
    | [] => matches
    | (k, v) :: rest =>
        if full matches then matches
        else
          let childPath := p ++ "." ++ k in
          let matches1 :=
            if entryMatches childPath k v
            then (matches ++ [mkSearchMatch childPath k v (getValueType v)])%list
            else matches in
          loop rest (recur v childPath matches1)
    end.

(** The loop over the elements of an array, from index [i] on. *)
Definition searchItems
  (recur : value -> string -> list SearchMatch -> list SearchMatch) (p : string)
  : list value -> nat -> list SearchMatch -> list SearchMatch :=
  fix loop (xs : list value) (i : nat) (matches : list SearchMatch)
    : list SearchMatch :=
    match xs with
    | [] => matches
    | item :: rest =>
        if full matches then matches
        else
          let childPath := p ++ "[" ++ showNat i ++ "]" in
          let vType := getValueType item in
          let matches1 :=
            if itemMatches childPath item
               && negb (String.eqb vType "object") && negb (String.eqb vType "array")
            then (matches ++ [mkSearchMatch childPath (showNat i) item vType])%list
            else matches in
          loop rest (S i) (recur item childPath matches1)
    end.

(** [searchRecursive]: the array of matches is passed in and returned. *)
Fixpoint searchRecursive (v : value) (p : string) (matches : list SearchMatch)
  {struct v} : list SearchMatch :=
  if full matches then matches
  else
    match v with
    | JObj kvs => searchEntries searchRecursive p kvs matches
    | JArr xs => searchItems searchRecursive p xs 0 matches
    | _ => matches
    end.

End Search.

Section SearchHandler.

Variable JSON_parse : string -> Exc value.
Variable RegExp_test : string -> string -> string -> Exc bool.

Definition handleSearch (jsonStr : string) (options : SearchOptions)
  : Response (list SearchMatch) :=
  match JSON_parse jsonStr with
  | Ok data => Result (searchRecursive RegExp_test options 10000 data "$" [])
  | Throw err => ErrorMessage ("Search error: " ++ err)
  end.

End SearchHandler.

(** ** Instances of the host parameters

    A reader of JSON texts over the values of the model (integers for
    numbers, single-byte characters in strings), a regular-expression
    engine for patterns without metacharacters, a collation by character
    code and a [custom] evaluator that knows one user function and accepts
    no other program.  They stand for the host in the closed examples. *)

Module Host.

Definition isJsonSpace (c : ascii) : bool :=
  Nat.eqb (code c) 32 || Nat.eqb (code c) 9 || Nat.eqb (code c) 10
  || Nat.eqb (code c) 13.

Fixpoint skipWs (s : string) : string :=
  match s with
  | String c r => if isJsonSpace c then skipWs r else s
  | EmptyString => s
  end.

Definition hex2 (a b : ascii) : option ascii :=
  match digitValue a, digitValue b with
  | Some x, Some y => Some (ascii_of_nat (Z.to_nat (16 * x + y)))
  | _, _ => None
  end.

(** The characters of a string literal after its opening quote. *)
Fixpoint readString (s : string) : option (string * string) :=
  match s with
  | EmptyString => None
  | String c r =>
      if Nat.eqb (code c) 34 then Some (EmptyString, r)
      else if Nat.ltb (code c) 32 then None
      else if Nat.eqb (code c) 92 then
        match r with
        | String e r1 =>
            let plain (d : ascii) :=
              match readString r1 with
              | Some (t, r2) => Some (String d t, r2)
              | None => None
              end in
            if Nat.eqb (code e) 34 || Nat.eqb (code e) 92 || Nat.eqb (code e) 47
            then plain e
            else if Ascii.eqb e "b" then plain (ascii_of_nat 8)
            else if Ascii.eqb e "f" then plain (ascii_of_nat 12)
            else if Ascii.eqb e "n" then plain (ascii_of_nat 10)
            else if Ascii.eqb e "r" then plain (ascii_of_nat 13)
            else if Ascii.eqb e "t" then plain (ascii_of_nat 9)
            else if Ascii.eqb e "u" then
              match r1 with
              | String "0" (String "0" (String a (String b r2))) =>
                  match hex2 a b, readString r2 with
                  | Some d, Some (t, r3) => Some (String d t, r3)
                  | _, _ => None
                  end
              | _ => None
              end
            else None
        | EmptyString => None
        end
      else
        match readString r with
        | Some (t, r1) => Some (String c t, r1)
        | None => None
        end
  end.

(** An integer numeral: no leading zero, no fraction, no exponent. *)
Definition readNumber (s : string) : option (value * string) :=
  let '(neg, u) := match s with
                   | String "-" r => (true, r)
                   | _ => (false, s)
                   end in
  let '(ds, rest) := span isDigit u in
  let leadingZero := match ds with
                     | String "0" (String _ _) => true
                     | _ => false
                     end in
  let continued := match rest with
                   | String c _ => Ascii.eqb c "." || Ascii.eqb c "e" || Ascii.eqb c "E"
                   | EmptyString => false
                   end in
  match digits 10 ds with
  | Some z => if leadingZero || continued then None
              else Some (num (if neg then - z else z), rest)
  | None => None
  end.

Fixpoint readValue (fuel : nat) (s : string) : option (value * string) :=
  match fuel with
  | 0 => None
  | S f =>
      let t := skipWs s in
      if prefix "null" t then Some (JNull, sliceFrom 4 t)
      else if prefix "true" t then Some (JBool true, sliceFrom 4 t)
      else if prefix "false" t then Some (JBool false, sliceFrom 5 t)
      else
        match t with
        | String "[" r =>
            match skipWs r with
            | String "]" r' => Some (JArr [], r')
            | _ =>
                (fix elems (n : nat) (r : string) (acc : list value)
                   : option (value * string) :=
                   match n with
                   | 0 => None
                   | S n' =>
                       match readValue f r with
                       | Some (v, r1) =>
                           match skipWs r1 with
                           | String "," r2 => elems n' r2 (acc ++ [v])%list
                           | String "]" r2 => Some (JArr (acc ++ [v])%list, r2)
                           | _ => None
                           end
                       | None => None
                       end
                   end) f r []
            end
        | String "{" r =>
            match skipWs r with
            | String "}" r' => Some (JObj [], r')
            | _ =>
                (fix members (n : nat) (r : string) (acc : list (string * value))
                   : option (value * string) :=
                   match n with
                   | 0 => None
                   | S n' =>
                       match skipWs r with
                       | String q r0 =>
                           if Nat.eqb (code q) 34 then
                             match readString r0 with
                             | Some (k, r1) =>
                                 match skipWs r1 with
                                 | String ":" r2 =>
                                     match readValue f r2 with
                                     | Some (v, r3) =>
                                         match skipWs r3 with
                                         | String "," r4 => members n' r4 (define acc k v)
                                         | String "}" r4 => Some (JObj (define acc k v), r4)
                                         | _ => None
                                         end
                                     | None => None
                                     end
                                 | _ => None
                                 end
                             | None => None
                             end
                           else None
                       | EmptyString => None
                       end
                   end) f r []
            end
        | String q r =>
            if Nat.eqb (code q) 34 then
              match readString r with
              | Some (str, r1) => Some (JStr str, r1)
              | None => None
              end
            else readNumber t
        | EmptyString => None
        end
  end.

Definition JSON_parse (text : string) : Exc value :=
  match readValue (S (String.length text)) text with
  | Some (v, rest) =>
      match skipWs rest with
      | EmptyString => Ok v
      | _ => Throw "SyntaxError: Unexpected non-whitespace character after JSON"
      end
  | None => Throw "SyntaxError: Unexpected token in JSON"
  end.

Definition RegExp_test (pattern text : string) : Exc bool :=
  if all (fun c => isWord c || isSpace c) pattern then Ok (includes pattern text)
  else Throw "SyntaxError: Invalid regular expression".

Definition localeCompare (a b : string) : Z :=
  match String.compare a b with
  | Lt => (-1)%Z
  | Eq => 0%Z
  | Gt => 1%Z
  end.

(** The one user function the [custom] evaluator knows: it appends 9 to
    the array it receives, then throws. *)
Definition pushThenThrow : string :=
  "(d) => { d.push(9); throw new Error('stop'); }".

Definition runCustom (program : string) (data : value) : value * Exc value :=
  if String.eqb program pushThenThrow then
    match data with
    | JArr xs => (JArr (xs ++ [num 9])%list, Throw "Error: stop")
    | JUndef => (data, Throw "TypeError: Cannot read properties of undefined (reading 'push')")
    | JNull => (data, Throw "TypeError: Cannot read properties of null (reading 'push')")
    | _ => (data, Throw "TypeError: d.push is not a function")
    end
  else (data, Throw "SyntaxError: Unexpected token").

(** A text with its double quotes written as single quotes. *)
Fixpoint text (s : string) : string :=
  match s with
  | EmptyString => EmptyString
  | String c r => String (if Nat.eqb (code c) 39 then ascii_of_nat 34 else c) (text r)
  end.

End Host.

(** * Notions used in the statements *)

(** The value the resolver returns, as a total function
    ([getNestedValue_resolved] below: reads of own properties never
    throw). *)
Definition resolved (obj : value) (path : string) : value :=
  match getNestedValue obj path with
  | Ok v => v
  | Throw _ => JUndef
  end.

(** *** Where the built-in prototypes do not come in

    The model reads own properties; JavaScript goes on to the prototype of
    the value.  The statements that depend on a read, a conversion or an
    assignment say, with the notions below, that the prototypes do not come
    in. *)

(** The members of [Object.prototype]: what every plain object inherits. *)
Definition objectMembers : list string :=
  ["constructor"; "__defineGetter__"; "__defineSetter__"; "hasOwnProperty";
   "__lookupGetter__"; "__lookupSetter__"; "isPrototypeOf";
   "propertyIsEnumerable"; "toString"; "valueOf"; "__proto__";
   "toLocaleString"].

(** The members that a number or a boolean finds on [Number.prototype],
    [Boolean.prototype] and [Object.prototype]. *)
Definition primitiveMembers : list string :=
  (["toExponential"; "toFixed"; "toPrecision"] ++ objectMembers)%list.

Definition inherited (k : string) : bool := existsb (String.eqb k) objectMembers.

Definition isDigits (k : string) : bool := nonEmpty k && all isDigit k.

(** A read [v[key]] that the value answers by itself: an own property of an
    object, or a name that [Object.prototype] does not define either (the
    read then gives [undefined]); the length of an array or of a string, or
    a key made of digits; on a number or a boolean, a name that their
    prototypes do not define.  Any other name read on an array or a string
    may be one of the many methods of [Array.prototype] and
    [String.prototype], and is left out. *)
Definition ownRead (v : value) (key : string) : bool :=
  match v with
  | JObj kvs => hasKey key kvs || negb (inherited key)
  | JArr _ | JStr _ => String.eqb key "length" || isDigits key
  | JNum _ | JBool _ => negb (existsb (String.eqb key) primitiveMembers)
  | JUndef | JNull => false
  end.

(** The name that one part of an accessor reads in the current value: the
    name before the brackets for a part of the form [name[digits]]. *)
Definition partKey (p : string) : string :=
  match arrMatch p with
  | Some (key, _) => key
  | None => p
  end.

(** A walk along the parts of an accessor in which every read is answered
    by the value itself, up to the end or to the first [null] or
    [undefined]. *)
Fixpoint ownWalk (current : value) (parts : list string) : bool :=
  match parts with
  | [] => true
  | p :: rest =>
      match current with
      | JNull | JUndef => true
      | _ =>
          ownRead current (partKey p)
          && match walkPath current [p] with
             | Ok next => ownWalk next rest
             | Throw _ => false
             end
      end
  end.

Definition ownPath (obj : value) (path : string) : bool :=
  match path with
  | EmptyString => true
  | _ => ownWalk obj (split "." path)
  end.

(** An element in which a path is read in the values themselves and leads
    to a value that has a string. *)
Definition readable (item : value) (path : string) : bool :=
  ownPath item path && printable (resolved item path).

(** A value whose string is written out digit by digit: it has a string,
    and its numbers are below [2^53] in absolute value, the integers that
    JavaScript holds exactly (a larger number is rounded, and from [10^21]
    on its string has an exponent). *)
Fixpoint plainText (v : value) : bool :=
  match v with
  | JNum (Int z) => (Z.abs z <? 2 ^ 53)%Z
  | JObj kvs => negb (hasKey "toString" kvs)
  | JArr xs => forallb plainText xs
  | _ => true
  end.

(** A document in which no object has a field named [toString], at any
    depth: every value it holds is [printable]. *)
Fixpoint convertible (v : value) : bool :=
  match v with
  | JArr xs => forallb convertible xs
  | JObj kvs =>
      negb (hasKey "toString" kvs) && forallb (fun kv => convertible (snd kv)) kvs
  | _ => true
  end.

(** A document in which no field is named like a member of
    [Object.prototype], at any depth: on its objects, [in] and a read by
    key see own properties only, and an assignment by key creates one. *)
Fixpoint ordinary (v : value) : bool :=
  match v with
  | JArr xs => forallb ordinary xs
  | JObj kvs => forallb (fun kv => negb (inherited (fst kv)) && ordinary (snd kv)) kvs
  | _ => true
  end.

(** A text that is no numeral: not empty once trimmed, without a digit and
    without the word [Infinity].  [Number] reads it as [NaN]. *)
Definition noNumeral (s : string) : bool :=
  let t := trim s in
  nonEmpty t && all (fun c => negb (isDigit c)) t && negb (includes "Infinity" t).

(** A value that [Number] reads as [NaN]: [undefined], a text that is no
    numeral, an object (its string is [[object Object]]). *)
Definition notNumeric (v : value) : bool :=
  match v with
  | JUndef => true
  | JNum NaN => true
  | JStr s => noNumeral s
  | JObj kvs => negb (hasKey "toString" kvs)
  | _ => false
  end.

(** *** Paths *)


(** The output snapshot of the last entry of a trace, or the serialized
    input value when the trace is empty. *)
Definition lastSnapshot (v0 : value) (trace : list StepResult) : option string :=
  fold_left (fun _ r => output r) trace (JSON_stringify2 v0).

(** A filter configuration in which none of the operator tokens occurs. *)
Definition noOpToken (cfg : string) : bool :=
  forallb (fun op => negb (includes op cfg)) filterOps.

(** Structural equality of values. *)
Definition number_eqb (a b : number) : bool :=
  match a, b with
  | NaN, NaN => true
  | Int x, Int y => (x =? y)%Z
  | _, _ => false
  end.

Fixpoint value_eqb (a b : value) : bool :=
  match a, b with
  | JUndef, JUndef => true
  | JNull, JNull => true
  | JBool x, JBool y => Bool.eqb x y
  | JNum x, JNum y => number_eqb x y
  | JStr x, JStr y => String.eqb x y
  | JArr xs, JArr ys =>
      (fix all2 (xs ys : list value) : bool :=
         match xs, ys with
         | [], [] => true
         | x :: xr, y :: yr => value_eqb x y && all2 xr yr
         | _, _ => false
         end) xs ys
  | JObj xs, JObj ys =>
      (fix all2 (xs ys : list (string * value)) : bool :=
         match xs, ys with
         | [], [] => true
         | (kx, x) :: xr, (ky, y) :: yr =>
             String.eqb kx ky && value_eqb x y && all2 xr yr
         | _, _ => false
         end) xs ys
  | _, _ => false
  end.

(** The elements of a list in order, each kept at its first occurrence
    only; [seen] holds the elements met so far. *)
Fixpoint firstOccurrencesFrom (seen xs : list value) : list value :=
  match xs with
  | [] => []
  | x :: r =>
      if existsb (value_eqb x) seen then firstOccurrencesFrom seen r
      else x :: firstOccurrencesFrom (x :: seen) r
  end.

Definition firstOccurrences (xs : list value) : list value :=
  firstOccurrencesFrom [] xs.

(** What a parser does with the serialization of a value: [reparses] when
    it reads it as a value with the same serialization, [parsesBack] when
    it reads the value itself. *)
Definition reparses (parse : string -> Exc value) (x : value) : bool :=
  match parse (keyText (JSON_stringify x)) with
  | Ok y => optEqb (JSON_stringify y) (JSON_stringify x)
  | Throw _ => false
  end.

Definition parsesBack (parse : string -> Exc value) (x : value) : bool :=
  match parse (keyText (JSON_stringify x)) with
  | Ok y => value_eqb y x
  | Throw _ => false
  end.

(** A condition on a field that holds no [$regex] operator. *)
Definition condSafe (c : value) : bool :=
  match c with
  | JObj ops => negb (hasKey "$regex" ops)
  | _ => true
  end.

(** A parsed Mongo query on which the scan cannot throw: no [null] where a
    query document is expected (the query itself, the operand of [$not],
    the elements of [$and] and [$or]) and no [$regex] operator. *)
Fixpoint scanSafe (q : value) : bool :=
  match q with
  | JUndef | JNull => false
  | JObj kvs =>
      forallb (fun kv =>
                 let '(key, c) := kv in
                 if String.eqb key "$and" || String.eqb key "$or" then
                   match c with
                   | JArr cs => forallb scanSafe cs
                   | _ => true
                   end
                 else if String.eqb key "$not" then scanSafe c
                 else condSafe c) kvs
  | JArr xs => forallb condSafe xs
  | JStr _ | JBool _ | JNum _ => true
  end.

(** What a [pick] step makes of one item: an object that holds each listed
    field, with the value the path resolver finds for it in the item, and
    no other field. *)
Definition Picked (fields : list string) (item out : value) : Prop :=
  exists r,
    out = JObj r
    /\ (forall k, In k fields ->
                  exists v, getNestedValue item k = Ok v /\ assoc k r = Some v)
    /\ (forall k, ~ In k fields -> assoc k r = None).

(** The items a step works on: the elements of an array, or the value
    itself when it is no array. *)
Definition items (data : value) : list value :=
  match data with
  | JArr xs => xs
  | v => [v]
  end.

(** The list of fields a [pick] or [omit] step reads in its configuration. *)
Definition fieldList (cfg : string) : list string := map trim (split "," cfg).

(** [a] occurs in [s]. *)
Definition occursIn (a s : string) : Prop :=
  exists pre post, s = pre ++ a ++ post.

(** The order in which the default [Array.prototype.sort] leaves two
    elements: [undefined] after everything, and otherwise the string of
    the first not after the string of the second, by character code. *)
Definition defaultOrder (a b : value) : Prop :=
  isUndefined b = true
  \/ (isUndefined a = false
      /\ String.compare (toString a) (toString b) <> Gt).

(** The stages of a jq filter that convert or parse the values they are
    given ([String], [Number], [JSON.parse]); the other stages only take
    values apart and put them together. *)
Definition convertingStages : list string :=
  ["unique"; "sort"; "select"; "from_entries"].

(** A jq filter in which the name of no converting stage occurs. *)
Definition plainStages (query : string) : bool :=
  forallb (fun w => negb (includes w query)) convertingStages.

(** The keys of an object in the order JavaScript enumerates them: each
    key once, the array-index keys first, in ascending order, then the other
    keys (in the order they were written). *)
Fixpoint indexKeysFirst (ks : list string) : bool :=
  match ks with
  | [] => true
  | k :: r =>
      forallb (fun k' => match arrayIndex k, arrayIndex k' with
                         | Some n, Some m => (n <? m)%Z
                         | None, Some _ => false
                         | _, None => true
                         end) r
      && indexKeysFirst r
  end.

(** The keys that [matchesMongo] reads as logical operators. *)
Definition logicalOperators : list string := ["$and"; "$or"; "$not"].

(** The operators of [matchesMongo] that compare as numbers. *)
Definition rangeOperators : list string := ["$gt"; "$gte"; "$lt"; "$lte"].

(** Two values that hold the same data: primitives that are identical,
    arrays with the same data position by position, objects with the same
    keys (in whatever order) and the same data under each. *)
Inductive SameData : value -> value -> Prop :=
| same_primitive (a b : value) : strictEq a b = true -> SameData a b
| same_array (xs ys : list value) :
    Forall2 SameData xs ys -> SameData (JArr xs) (JArr ys)
| same_object (lk rk : list (string * value)) :
    (forall k, hasKey k lk = hasKey k rk) ->
    (forall k v w, assoc k lk = Some v -> assoc k rk = Some w -> SameData v w) ->
    SameData (JObj lk) (JObj rk).

(** An operation as [generatePatch] writes them: an [add] or a [replace]
    with a value, or a [remove] without one; no [from]; a pointer that
    starts with a slash. *)
Definition plainOp (o : DiffPatchOp) : Prop :=
  startsWith "/" (path o) = true
  /\ from o = None
  /\ match op o with
     | add | replace => value_ o <> None
     | remove => value_ o = None
     | move | copy | test => False
     end.

(** What a flattened object may hold when no depth limit is set: a value
    that is no object and, unless arrays are kept whole, no array. *)
Definition flatLeaf (keepArrays : bool) (v : value) : bool :=
  match v with
  | JObj _ => false
  | JArr _ => keepArrays
  | _ => true
  end.

(** A key that the path resolver reads as one plain part: not empty,
    without a dot, and not of the form [name[digits]]. *)
Definition plainKey (k : string) : bool :=
  nonEmpty k
  && all (fun c => negb (Ascii.eqb c ".")) k
  && match arrMatch k with
     | None => true
     | Some _ => false
     end.

Fixpoint distinct (ks : list string) : bool :=
  match ks with
  | [] => true
  | k :: r => negb (existsb (String.eqb k) r) && distinct r
  end.

Definition objectKeys (ks : list string) : bool := distinct ks && indexKeysFirst ks.

(** A document whose object keys are plain and distinct, at every depth,
    and whose arrays have a length JavaScript allows. *)
Fixpoint plainDocument (v : value) : bool :=
  match v with
  | JArr xs =>
      (Z.of_nat (List.length xs) <? 4294967295)%Z && forallb plainDocument xs
  | JObj kvs =>
      distinct (map fst kvs)
      && forallb (fun kv => plainKey (fst kv) && plainDocument (snd kv)) kvs
  | _ => true
  end.

(** The sum of the counts of a distribution, as JavaScript adds its
    values up from 0. *)
Definition sumOfCounts (o : list (string * value)) : value :=
  fold_left (fun s kv => plus s (snd kv)) o (num 0).

(** The total of a distribution whose values are all positive integers. *)
Fixpoint countsTotal (o : list (string * value)) : option Z :=
  match o with
  | [] => Some 0%Z
  | (_, JNum (Int z)) :: r =>
      if (0 <? z)%Z then option_map (Z.add z) (countsTotal r) else None
  | _ :: _ => None
  end.

(** The number of nodes of a document and its height: 0 for a scalar and
    for an empty array or object. *)
Fixpoint nodes (v : value) : Z :=
  match v with
  | JArr xs => fold_right (fun x n => nodes x + n) 1 xs
  | JObj kvs => fold_right (fun kv n => nodes (snd kv) + n) 1 kvs
  | _ => 1
  end%Z.

Fixpoint height (v : value) : Z :=
  match v with
  | JArr xs => fold_right (fun x h => Z.max (1 + height x) h) 0 xs
  | JObj kvs => fold_right (fun kv h => Z.max (1 + height (snd kv)) h) 0 kvs
  | _ => 0
  end%Z.

(** A document whose objects have distinct keys, at every depth. *)
Fixpoint distinctKeys (v : value) : bool :=
  match v with
  | JArr xs => forallb distinctKeys xs
  | JObj kvs => distinct (map fst kvs) && forallb (fun kv => distinctKeys (snd kv)) kvs
  | _ => true
  end.

(** The key under which a [rename] step with the configuration [cfg]
    stores the field [k]: [renameMap.get(k) || k]. *)
Definition renamedKey (cfg k : string) : string :=
  match
    mapGet
      (newMap (map (fun m => (nth 0 m EmptyString, nth_error m 1))
                 (map (fun s => map trim (split ":" (trim s))) (split "," cfg))))
      k
  with
  | Some (String c t) => String c t
  | _ => k
  end.

(** A document as [JSON.parse] gives them: without [undefined] and without
    [NaN], at any depth. *)
Fixpoint jsonDocument (v : value) : bool :=
  match v with
  | JUndef => false
  | JNum NaN => false
  | JArr xs => forallb jsonDocument xs
  | JObj kvs => forallb (fun kv => jsonDocument (snd kv)) kvs
  | _ => true
  end.

(** The character that an escape of [Json.escapeChar] at the front of a
    text stands for, and what follows it; nothing at a double quote. *)
Definition unescapeOne (s : string) : option (ascii * string) :=
  match s with
  | EmptyString => None
  | String c r =>
      if Nat.eqb (code c) 92 then
        match r with
        | String e r1 =>
            if Nat.eqb (code e) 34 || Nat.eqb (code e) 92 then Some (e, r1)
            else if Ascii.eqb e "b" then Some (ascii_of_nat 8, r1)
            else if Ascii.eqb e "t" then Some (ascii_of_nat 9, r1)
            else if Ascii.eqb e "n" then Some (ascii_of_nat 10, r1)
            else if Ascii.eqb e "f" then Some (ascii_of_nat 12, r1)
            else if Ascii.eqb e "r" then Some (ascii_of_nat 13, r1)
            else
              match r1 with
              | String _ (String _ (String h (String l r2))) =>
                  match digitValue h, digitValue l with
                  | Some x, Some y => Some (ascii_of_nat (Z.to_nat (16 * x + y)), r2)
                  | _, _ => None
                  end
              | _ => None
              end
        | EmptyString => None
        end
      else if Nat.eqb (code c) 34 then None
      else Some (c, r)
  end.

(** A diff that reports no difference. *)
Definition onlyUnchanged (ds : list DiffResult) : Prop :=
  Forall (fun d => diffType d = unchanged) ds.

(** The value [maskValue] writes under a rule that does not look at what
    it masks: a marker for [redact] and for an unknown rule, [null] for
    [nullify]; none for [hash], [partial] and [randomize]. *)
Definition marker (rule_ : string) : option value :=
  if String.eqb rule_ "redact" then Some (JStr "***REDACTED***")
  else if String.eqb rule_ "hash" || String.eqb rule_ "partial"
          || String.eqb rule_ "randomize" then None
  else if String.eqb rule_ "nullify" then Some JNull
  else Some (JStr "***").

(** In a document, every field with a listed name holds the value [c], at
    every depth that is reached without going through such a field. *)
Fixpoint everyListedFieldIs (isListed : string -> bool) (c : value) (v : value)
  : bool :=
  match v with
  | JArr xs => forallb (everyListedFieldIs isListed c) xs
  | JObj kvs =>
      forallb (fun kv => if isListed (fst kv) then value_eqb (snd kv) c
                         else everyListedFieldIs isListed c (snd kv)) kvs
  | _ => true
  end.

(** * Properties *)

(** ** The exception monad *)

Lemma mapM_total {A B : Type} (f : A -> Exc B) (g : A -> B) (l : list A) :
  (forall x, In x l -> f x = Ok (g x)) -> mapM f l = Ok (map g l).
Proof.
  induction l as [|x r IH]; intros H; simpl.
  - reflexivity.
  - rewrite (H x (or_introl eq_refl)). simpl.
    rewrite IH by (intros y Hy; apply H; right; exact Hy).
    reflexivity.
Qed.

Lemma filterM_total {A : Type} (f : A -> Exc bool) (g : A -> bool) (l : list A) :
  (forall x, In x l -> f x = Ok (g x)) -> filterM f l = Ok (filter g l).
Proof.
  induction l as [|x r IH]; intros H; simpl.
  - reflexivity.
  - rewrite (H x (or_introl eq_refl)). simpl.
    rewrite IH by (intros y Hy; apply H; right; exact Hy).
    simpl. destruct (g x); reflexivity.
Qed.

(** ** The path resolver *)

(** Reads of own properties never throw: on the values of the model the
    walk always gives a value. *)
Lemma get_defined (v : value) (key : string) :
  v <> JUndef -> v <> JNull -> exists r, get v key = Ok r.
Proof.
  intros Hu Hn. destruct v; try congruence; simpl; eauto.
  - destruct (String.eqb key "length"); eauto.
    destruct (arrayIndex key); eauto.
  - destruct (String.eqb key "length"); eauto.
    destruct (arrayIndex key); eauto.
Qed.

Lemma walkPath_total (parts : list string) :
  forall current, exists v, walkPath current parts = Ok v.
Proof.
  induction parts as [|p rest IH]; intros current; cbn [walkPath].
  - eauto.
  - assert (Hget : forall key, current <> JUndef -> current <> JNull ->
                     exists r, get current key = Ok r)
      by (intros; apply get_defined; assumption).
    destruct current; eauto;
      (destruct (arrMatch p) as [[key ds]|];
       [ destruct (Hget key) as [c Hc]; try discriminate; rewrite Hc; cbn [bind]; apply IH
       | destruct (Hget p) as [c Hc]; try discriminate; rewrite Hc; cbn [bind]; apply IH ]).
Qed.

Lemma getNestedValue_total (obj : value) (path : string) :
  exists v, getNestedValue obj path = Ok v.
Proof.
  unfold getNestedValue. destruct path; [eauto | apply walkPath_total].
Qed.

Lemma walkPath_undefined (parts : list string) :
  walkPath JUndef parts = Ok JUndef.
Proof. destruct parts; reflexivity. Qed.

Lemma walkPath_app (pre rest : list string) :
  forall current,
    walkPath current (pre ++ rest)%list
    = (c <- walkPath current pre ;; walkPath c rest).
Proof.
  induction pre as [|p pre IH]; intros current; simpl.
  - reflexivity.
  - destruct current; cbn [walkPath app bind];
      try (rewrite walkPath_undefined; reflexivity);
      destruct (arrMatch p) as [[key ds]|];
      match goal with
      | |- context [get ?v ?k] =>
          destruct (get v k) as [c|e]; cbn [bind]; [apply IH | reflexivity]
      end.
Qed.

Lemma getNestedValue_resolved (obj : value) (path : string) :
  getNestedValue obj path = Ok (resolved obj path).
Proof.
  unfold resolved. destruct (getNestedValue_total obj path) as [v Hv].
  rewrite Hv. reflexivity.
Qed.


Lemma arrayIndex_not_length (p : string) (n : Z) :
  arrayIndex p = Some n -> String.eqb p "length" = false.
Proof.
  intros H. destruct (String.eqb_spec p "length") as [->|Hne]; [|reflexivity].
  discriminate H.
Qed.






(** ** The workflow engine *)

Section WorkflowFacts.

Variable runCustom : string -> value -> value * Exc value.
Variable localeCompare : string -> string -> Z.
Variable JSON_parse : string -> Exc value.

#[local] Abbreviation step := (executeWorkflowStep runCustom localeCompare).
#[local] Abbreviation run := (runSteps runCustom localeCompare).
#[local] Abbreviation workflow :=
  (handleRunWorkflow runCustom localeCompare JSON_parse).

(** Only a [custom] step changes the value it is given. *)
Lemma step_leaves_the_value (data : value) (s : WorkflowStep) :
  type_ s <> custom -> fst (step data s) = data.
Proof.
  intros Hty. unfold executeWorkflowStep.
  destruct (type_ s); try reflexivity. congruence.
Qed.

(** The trace so far is only extended. *)
Lemma runSteps_acc (steps : list WorkflowStep) :
  forall current acc,
    run current acc steps
    = (fst (run current [] steps), (acc ++ snd (run current [] steps))%list).
Proof.
  induction steps as [|s rest IH]; intros current acc; cbn [runSteps app].
  - cbn [fst snd]. rewrite app_nil_r. reflexivity.
  - destruct (negb (enabled s)); [apply IH|].
    destruct (step current s) as [after [next|err]].
    + rewrite (IH next (acc ++ _)%list). rewrite (IH next [_]). cbn [fst snd].
      rewrite <- app_assoc. reflexivity.
    + cbn [fst snd]. reflexivity.
Qed.

(** A prefix that ran without error hands its value and its trace to the
    steps that follow. *)
Lemma runSteps_app (pre rest : list WorkflowStep) :
  forall current v trace,
    run current [] pre = (v, trace) ->
    Forall (fun r => error r = None) trace ->
    run current [] (pre ++ rest)%list
    = (fst (run v [] rest), (trace ++ snd (run v [] rest))%list).
Proof.
  induction pre as [|s pre IH]; intros current v trace Hrun Hok; cbn [runSteps app] in *.
  - injection Hrun as <- <-. cbn [app]. apply surjective_pairing.
  - destruct (negb (enabled s)); [apply IH; assumption|].
    destruct (step current s) as [after [next|err]].
    + rewrite runSteps_acc in Hrun. injection Hrun as Hv Ht.
      rewrite <- Ht in Hok. cbn [app] in Hok. inversion Hok as [|r l Hr Hl].
      rewrite runSteps_acc.
      rewrite (IH next v (snd (run next [] pre)));
        [ | rewrite <- Hv; apply surjective_pairing | exact Hl ].
      cbn [fst snd]. rewrite <- Ht. reflexivity.
    + injection Hrun as _ Ht. rewrite <- Ht in Hok.
      inversion Hok as [|r l Hr Hl]. discriminate Hr.
Qed.

(** The running value after an error-free run is the one the last entry of
    the trace shows. *)
Lemma runSteps_snapshot (steps : list WorkflowStep) :
  forall current v trace,
    run current [] steps = (v, trace) ->
    Forall (fun r => error r = None) trace ->
    JSON_stringify2 v = lastSnapshot current trace.
Proof.
  unfold lastSnapshot.
  induction steps as [|s rest IH]; intros current v trace Hrun Hok; cbn [runSteps] in Hrun.
  - injection Hrun as <- <-. reflexivity.
  - destruct (negb (enabled s)); [apply (IH _ _ _ Hrun Hok)|].
    destruct (step current s) as [after [next|err]].
    + cbn [app] in Hrun. rewrite runSteps_acc in Hrun. injection Hrun as Hv Ht.
      rewrite <- Ht in Hok |- *. cbn [app] in Hok. inversion Hok as [|r l Hr Hl].
      cbn [app fold_left output]. rewrite <- Hv.
      apply (IH next (fst (run next [] rest)) (snd (run next [] rest)));
        [apply surjective_pairing | exact Hl].
    + injection Hrun as _ Ht. rewrite <- Ht in Hok.
      inversion Hok as [|r l Hr Hl]. discriminate Hr.
Qed.

(** In every run, an entry that carries an error is the last entry of the
    trace. *)
Lemma runSteps_error_is_last (steps : list WorkflowStep) :
  forall current pre r post,
    snd (run current [] steps) = (pre ++ r :: post)%list ->
    error r <> None -> post = [].
Proof.
  induction steps as [|s rest IH]; intros current pre r post Heq Herr;
    cbn [runSteps] in Heq.
  - destruct pre; discriminate Heq.
  - destruct (negb (enabled s)); [apply (IH _ _ _ _ Heq Herr)|].
    destruct (step current s) as [after [next|err]].
    + rewrite runSteps_acc in Heq. cbn [snd app] in Heq.
      destruct pre as [|e pre]; cbn [app] in Heq; injection Heq as Hhead Htail.
      * subst r. cbn [error] in Herr. congruence.
      * apply (IH _ _ _ _ Htail Herr).
    + cbn [snd app] in Heq.
      destruct pre as [|e pre]; cbn [app] in Heq; injection Heq as Hhead Htail.
      * symmetry. exact Htail.
      * destruct pre; discriminate Htail.
Qed.

(** C2, as amended.  In a workflow run, when the steps before an enabled
    step ran without error and that step raises, no later step is executed:
    the trace ends with the entry of that step (each executed step adds one
    entry) and the response is the one of the run without the later steps;
    the entry carries the error; and [finalOutput] is the serialization of
    the value the failing step was given, as that step left it.  When the
    failing step is of any kind but [custom] it left the value as it was:
    [finalOutput] is then the value as of the last successful step, the
    output of the last successful entry, or the parsed input when no step
    had succeeded. *)
Theorem workflow_halts_at_first_error
  (input : string) (v0 v after : value) (pre post : list WorkflowStep)
  (failing : WorkflowStep) (trace : list StepResult) (err : string) :
  JSON_parse input = Ok v0 ->
  run v0 [] pre = (v, trace) ->
  Forall (fun r => error r = None) trace ->
  enabled failing = true ->
  step v failing = (after, Throw err) ->
  exists res,
    workflow input (pre ++ failing :: post)%list = Ok res
    /\ stepResults res
       = (trace ++ [mkStepResult (stepId_ failing) (JSON_stringify2 after) (Some err)])%list
    /\ finalOutput res = JSON_stringify2 after
    /\ (type_ failing <> custom ->
        after = v /\ finalOutput res = lastSnapshot v0 trace)
    /\ workflow input (pre ++ [failing])%list = Ok res.
Proof.
  intros Hparse Hrun Hok Hen Hthrow.
  unfold handleRunWorkflow. rewrite Hparse. cbn [bind].
  rewrite (runSteps_app pre (failing :: post) v0 v trace Hrun Hok).
  rewrite (runSteps_app pre [failing] v0 v trace Hrun Hok).
  cbn [runSteps]. rewrite Hen, Hthrow. cbn [negb fst snd app].
  eexists. split; [reflexivity|]. cbn [stepResults finalOutput].
  split; [reflexivity|]. split; [reflexivity|].
  split; [|reflexivity].
  intros Hty. pose proof (step_leaves_the_value v failing Hty) as Hsame.
  rewrite Hthrow in Hsame. cbn [fst] in Hsame. subst after.
  split; [reflexivity|].
  apply (runSteps_snapshot pre v0 v trace Hrun Hok).
Qed.



(** C5.  On [{"a":1,"b":2,"c":3}] the workflow [pick a,b] then
    [rename a:x] ends with the serialized object [{"x":1,"b":2}]; in the
    other order it ends with the serialized object [{"b":2}] ([pick] finds
    no [a], and an [undefined] property is not serialized); the two outputs
    differ. *)
Theorem pick_rename_order_is_observable
  (input id1 name1 id2 name2 : string) :
  JSON_parse input = Ok (JObj [("a", num 1); ("b", num 2); ("c", num 3)]) ->
  (exists trace,
     workflow input [mkStep id1 name1 pick "a,b" true; mkStep id2 name2 rename "a:x" true]
     = Ok (mkWorkflowResult trace
             (JSON_stringify2 (JObj [("x", num 1); ("b", num 2)]))))
  /\ (exists trace,
        workflow input [mkStep id2 name2 rename "a:x" true; mkStep id1 name1 pick "a,b" true]
        = Ok (mkWorkflowResult trace (JSON_stringify2 (JObj [("b", num 2)]))))
  /\ JSON_stringify2 (JObj [("x", num 1); ("b", num 2)])
     <> JSON_stringify2 (JObj [("b", num 2)]).
Proof.
  intros Hparse. unfold handleRunWorkflow. rewrite Hparse. cbn [bind].
  split; [|split].
  - eexists. vm_compute. reflexivity.
  - eexists. vm_compute. reflexivity.
  - vm_compute. discriminate.
Qed.

(** [noOpToken]: no operator token occurs at any position of the text. *)
Lemma noOpToken_no_occurrence (cfg op : string) :
  noOpToken cfg = true -> In op filterOps ->
  forall n, substring n (String.length op) cfg <> op.
Proof.
  intros H Hop n. unfold noOpToken in H. rewrite forallb_forall in H.
  specialize (H op Hop). apply negb_true_iff in H. unfold includes, indexOf in H.
  destruct (index 0 op cfg) eqn:Hi; [discriminate H|].
  apply (index_correct3 0 n op cfg Hi); [|lia].
  intros ->. unfold filterOps in Hop. cbn [In] in Hop.
  repeat (destruct Hop as [Hop|Hop]; [discriminate Hop|]). exact Hop.
Qed.

Lemma parseFilterExpression_bare (cfg : string) :
  noOpToken cfg = true -> parseFilterExpression cfg = (cfg, "==", "true").
Proof.
  unfold noOpToken, parseFilterExpression, filterOps. cbn [forallb findFilterOp].
  rewrite !andb_true_iff, !negb_true_iff. unfold includes.
  intros H. decompose [and] H. clear H.
  repeat match goal with
         | Hf : match indexOf ?op cfg with _ => _ end = false |- _ =>
             destruct (indexOf op cfg); [discriminate Hf | clear Hf]
         end.
  reflexivity.
Qed.

(** C6, as amended.  On an array, a filter step whose configuration holds
    none of the operator tokens reads the whole configuration as a path and
    compares the string of the value found there with ["true"]: where the
    path is read in the elements themselves and leads to values that have a
    string, the step keeps exactly the elements for which the two are
    equal. *)
Theorem filter_without_operator_tests_for_true
  (xs : list value) (cfg id name : string) (en : bool) :
  noOpToken cfg = true ->
  Forall (fun item => readable item cfg = true) xs ->
  step (JArr xs) (mkStep id name filter_ cfg en)
  = (JArr xs,
     Ok (JArr (filter (fun item => String.eqb (toString (resolved item cfg)) "true") xs))).
Proof.
  intros Hno Hread. unfold executeWorkflowStep. cbn [type_ config].
  rewrite (parseFilterExpression_bare cfg Hno).
  rewrite (filterM_total _ (fun item => String.eqb (toString (resolved item cfg)) "true")).
  - reflexivity.
  - intros item Hin. unfold filterItem. rewrite getNestedValue_resolved.
    rewrite Forall_forall in Hread. specialize (Hread item Hin).
    unfold readable in Hread. apply andb_true_iff in Hread. destruct Hread as [_ Hp].
    cbn [bind]. change (String.eqb "==" "==") with true. cbv iota.
    unfold String_. rewrite Hp. reflexivity.
Qed.

End WorkflowFacts.

(** *** Closed instances for the workflow engine *)

Lemma workflow_halts_at_first_error_witness :
  exists res,
    handleRunWorkflow Host.runCustom Host.localeCompare Host.JSON_parse "5"
      [mkStep "s1" "keep" jq "." true;
       mkStep "s2" "adults" filter_ "age > 18" true;
       mkStep "s3" "names" pick "name" true]
    = Ok res
    /\ stepResults res
       = [mkStepResult "s1" (Some "5") None;
          mkStepResult "s2" (Some "5") (Some "Error: filter requires an array")]
    /\ finalOutput res = Some "5"
    /\ (filter_ <> custom ->
        num 5 = num 5
        /\ finalOutput res
           = lastSnapshot (num 5) [mkStepResult "s1" (Some "5") None])
    /\ handleRunWorkflow Host.runCustom Host.localeCompare Host.JSON_parse "5"
         [mkStep "s1" "keep" jq "." true;
          mkStep "s2" "adults" filter_ "age > 18" true]
       = Ok res.
Proof.
  apply (workflow_halts_at_first_error Host.runCustom Host.localeCompare
           Host.JSON_parse "5" (num 5) (num 5) (num 5)
           [mkStep "s1" "keep" jq "." true]
           [mkStep "s3" "names" pick "name" true]
           (mkStep "s2" "adults" filter_ "age > 18" true)
           [mkStepResult "s1" (Some "5") None]
           "Error: filter requires an array").
  - reflexivity.
  - reflexivity.
  - repeat constructor.
  - reflexivity.
  - reflexivity.
Defined.

(** C2, as stated, fails: on the input [[1]], a [custom] step whose
    function appends 9 to the array it receives and then throws ends the
    run with an error on its entry, and [finalOutput] is the serialization
    of [[1,9]], not of the parsed input [[1]], the value as of the last
    successful step. *)
Lemma custom_step_changes_the_value_before_raising :
  exists res,
    Host.JSON_parse "[1]" = Ok (JArr [num 1])
    /\ handleRunWorkflow Host.runCustom Host.localeCompare Host.JSON_parse "[1]"
         [mkStep "s1" "grow" custom Host.pushThenThrow true]
       = Ok res
    /\ map error (stepResults res) = [Some "Error: stop"]
    /\ finalOutput res = JSON_stringify2 (JArr [num 1; num 9])
    /\ finalOutput res <> JSON_stringify2 (JArr [num 1]).
Proof.
  eexists. split; [reflexivity|]. split; [vm_compute; reflexivity|].
  split; [reflexivity|]. split; [reflexivity | discriminate].
Qed.



Lemma pick_rename_order_is_observable_witness :
  (exists trace,
     handleRunWorkflow Host.runCustom Host.localeCompare Host.JSON_parse
       (Host.text "{'a':1,'b':2,'c':3}")
       [mkStep "1" "pick" pick "a,b" true; mkStep "2" "rename" rename "a:x" true]
     = Ok (mkWorkflowResult trace
             (JSON_stringify2 (JObj [("x", num 1); ("b", num 2)]))))
  /\ (exists trace,
        handleRunWorkflow Host.runCustom Host.localeCompare Host.JSON_parse
          (Host.text "{'a':1,'b':2,'c':3}")
          [mkStep "2" "rename" rename "a:x" true; mkStep "1" "pick" pick "a,b" true]
        = Ok (mkWorkflowResult trace (JSON_stringify2 (JObj [("b", num 2)]))))
  /\ JSON_stringify2 (JObj [("x", num 1); ("b", num 2)])
     <> JSON_stringify2 (JObj [("b", num 2)]).
Proof.
  apply (pick_rename_order_is_observable Host.runCustom Host.localeCompare
           Host.JSON_parse (Host.text "{'a':1,'b':2,'c':3}") "1" "pick" "2" "rename").
  reflexivity.
Defined.

(** C6, as stated, fails: the configuration [active] holds no operator
    token, and the filter step drops the element whose [active] is
    [false]. *)
Lemma filter_without_operator_drops_elements :
  noOpToken "active" = true
  /\ executeWorkflowStep Host.runCustom Host.localeCompare
       (JArr [JObj [("active", JBool false)]; JObj [("active", JBool true)]])
       (mkStep "s1" "flagged" filter_ "active" true)
     = (JArr [JObj [("active", JBool false)]; JObj [("active", JBool true)]],
        Ok (JArr [JObj [("active", JBool true)]]))
  /\ JArr [JObj [("active", JBool true)]]
     <> JArr [JObj [("active", JBool false)]; JObj [("active", JBool true)]].
Proof.
  split; [reflexivity|]. split; [reflexivity | discriminate].
Qed.

Lemma filter_without_operator_tests_for_true_witness :
  executeWorkflowStep Host.runCustom Host.localeCompare
    (JArr [JObj [("active", JBool false)]; JObj [("active", JStr "true")]; num 3])
    (mkStep "s1" "flagged" filter_ "active" true)
  = (JArr [JObj [("active", JBool false)]; JObj [("active", JStr "true")]; num 3],
     Ok (JArr [JObj [("active", JStr "true")]])).
Proof.
  apply (filter_without_operator_tests_for_true Host.runCustom Host.localeCompare
           [JObj [("active", JBool false)]; JObj [("active", JStr "true")]; num 3]
           "active" "s1" "flagged" true).
  - reflexivity.
  - repeat constructor.
Defined.

(** ** Values: induction and equality *)

(** Induction on a value with the hypothesis for every element of an array
    and every property value of an object. *)
Lemma value_nested_ind (P : value -> Prop) :
  P JUndef -> P JNull -> (forall b, P (JBool b)) -> (forall n, P (JNum n)) ->
  (forall s, P (JStr s)) ->
  (forall xs, Forall P xs -> P (JArr xs)) ->
  (forall kvs, Forall (fun kv => P (snd kv)) kvs -> P (JObj kvs)) ->
  forall v, P v.
Proof.
  intros Hu Hn Hb Hnum Hs Ha Ho.
  fix IH 1. intros v. destruct v as [| |b|n|s|xs|kvs].
  - exact Hu.
  - exact Hn.
  - apply Hb.
  - apply Hnum.
  - apply Hs.
  - apply Ha. induction xs as [|x r IHr]; constructor; [apply IH | exact IHr].
  - apply Ho. induction kvs as [|kv r IHr]; constructor; [apply IH | exact IHr].
Qed.

Lemma number_eqb_eq (a b : number) : number_eqb a b = true <-> a = b.
Proof.
  destruct a as [|x], b as [|y]; simpl; split; intros H;
    try reflexivity; try discriminate.
  - apply Z.eqb_eq in H. congruence.
  - injection H as ->. apply Z.eqb_refl.
Qed.

Lemma value_eqb_eq (a : value) : forall b, value_eqb a b = true <-> a = b.
Proof.
  induction a as [| |x|x|x|xs IH|kvs IH] using value_nested_ind;
    intros b; destruct b as [| |y|y|y|ys|ys]; cbn [value_eqb];
    try (split; [discriminate | discriminate]);
    try (split; reflexivity).
  - rewrite Bool.eqb_true_iff. split; congruence.
  - rewrite number_eqb_eq. split; congruence.
  - rewrite String.eqb_eq. split; congruence.
  - revert ys. induction IH as [|x xr Hx Hxr IHxr]; intros ys; destruct ys as [|y yr];
      try (split; [discriminate | discriminate]); try (split; reflexivity).
    rewrite andb_true_iff, Hx, IHxr. split.
    + intros [-> H]. injection H as ->. reflexivity.
    + intros H. injection H as -> ->. split; reflexivity.
  - revert ys. induction IH as [|[kx x] xr Hx Hxr IHxr]; intros ys;
      destruct ys as [|[ky y] yr];
      try (split; [discriminate | discriminate]); try (split; reflexivity).
    cbn [snd] in Hx. rewrite !andb_true_iff, String.eqb_eq, Hx, IHxr. split.
    + intros [[-> ->] H]. injection H as ->. reflexivity.
    + intros H. injection H as -> -> ->. repeat split; reflexivity.
Qed.

Lemma optEqb_eq (a b : option string) : optEqb a b = true <-> a = b.
Proof.
  destruct a as [x|], b as [y|]; simpl; split; intros H;
    try reflexivity; try discriminate.
  - apply String.eqb_eq in H. congruence.
  - injection H as ->. apply String.eqb_refl.
Qed.

Lemma existsb_optEqb (k : option string) (s : list (option string)) :
  existsb (optEqb k) s = true <-> In k s.
Proof.
  rewrite existsb_exists. split.
  - intros [x [Hin Heq]]. apply optEqb_eq in Heq. subst. exact Hin.
  - intros Hin. exists k. split; [exact Hin | apply optEqb_eq; reflexivity].
Qed.

Lemma existsb_value_eqb (x : value) (s : list value) :
  existsb (value_eqb x) s = true <-> In x s.
Proof.
  rewrite existsb_exists. split.
  - intros [y [Hin Heq]]. apply value_eqb_eq in Heq. subst. exact Hin.
  - intros Hin. exists x. split; [exact Hin | apply value_eqb_eq; reflexivity].
Qed.

(** ** The set of serializations *)

Lemma newSet_from_In (l : list (option string)) :
  forall acc k, In k (fold_left setAdd l acc) <-> In k acc \/ In k l.
Proof.
  induction l as [|x r IH]; intros acc k; cbn [fold_left].
  - simpl. tauto.
  - rewrite IH. unfold setAdd.
    destruct (existsb (optEqb x) acc) eqn:Hx.
    + apply existsb_optEqb in Hx. simpl. split; [tauto|].
      intros [H|[H|H]]; subst; tauto.
    + rewrite in_app_iff. simpl. tauto.
Qed.

Lemma newSet_from_NoDup (l : list (option string)) :
  forall acc, NoDup acc -> NoDup (fold_left setAdd l acc).
Proof.
  induction l as [|x r IH]; intros acc Hacc; cbn [fold_left].
  - exact Hacc.
  - apply IH. unfold setAdd.
    destruct (existsb (optEqb x) acc) eqn:Hx; [exact Hacc|].
    apply NoDup_app; [exact Hacc | repeat constructor; simpl; tauto |].
    intros y Hy [<-|[]]. apply existsb_optEqb in Hy. congruence.
Qed.

Lemma newSet_from_fixed (l : list (option string)) :
  forall acc, NoDup (acc ++ l)%list -> fold_left setAdd l acc = (acc ++ l)%list.
Proof.
  induction l as [|x r IH]; intros acc Hnd; cbn [fold_left].
  - rewrite app_nil_r. reflexivity.
  - assert (Hx : existsb (optEqb x) acc = false).
    { destruct (existsb (optEqb x) acc) eqn:Hx; [|reflexivity].
      apply existsb_optEqb in Hx. apply NoDup_remove_2 in Hnd.
      exfalso. apply Hnd. apply in_or_app. left. exact Hx. }
    unfold setAdd. rewrite Hx. rewrite IH; rewrite <- app_assoc; [reflexivity | exact Hnd].
Qed.

Lemma newSet_NoDup (l : list (option string)) : NoDup (newSet l).
Proof. apply newSet_from_NoDup. constructor. Qed.

Lemma newSet_In (l : list (option string)) (k : option string) :
  In k (newSet l) <-> In k l.
Proof. unfold newSet. rewrite newSet_from_In. simpl. tauto. Qed.

Lemma newSet_idempotent (l : list (option string)) : newSet (newSet l) = newSet l.
Proof.
  unfold newSet at 1. rewrite newSet_from_fixed; [reflexivity|].
  apply newSet_NoDup.
Qed.

(** ** Lengths of the pieces of a text *)

Lemma trimStart_length (s : string) : String.length (trimStart s) <= String.length s.
Proof.
  induction s as [|c r IH]; cbn [trimStart String.length]; [lia|].
  destruct (isSpace c); cbn [String.length]; lia.
Qed.

Lemma trimEnd_length (s : string) : String.length (trimEnd s) <= String.length s.
Proof.
  induction s as [|c r IH]; cbn [trimEnd String.length]; [lia|].
  destruct (trimEnd r) as [|c' r'].
  - destruct (isSpace c); cbn [String.length]; lia.
  - cbn [String.length] in *. lia.
Qed.

Lemma trim_length (s : string) : String.length (trim s) <= String.length s.
Proof.
  unfold trim. pose proof (trimEnd_length (trimStart s)).
  pose proof (trimStart_length s). lia.
Qed.

Lemma split_length (sep : ascii) (s : string) :
  forall part, In part (split sep s) -> String.length part <= String.length s.
Proof.
  induction s as [|c r IH]; intros part Hin; cbn [split] in Hin.
  - destruct Hin as [<-|[]]. cbn [String.length]. lia.
  - cbn [String.length]. destruct (Ascii.eqb c sep).
    + destruct Hin as [<-|Hin]; [cbn [String.length]; lia|].
      specialize (IH part Hin). lia.
    + destruct (split sep r) as [|h t] eqn:Hs.
      * destruct Hin as [<-|[]]. cbn [String.length]. lia.
      * destruct Hin as [<-|Hin].
        -- cbn [String.length]. specialize (IH h (or_introl eq_refl)). lia.
        -- specialize (IH part (or_intror Hin)). lia.
Qed.

Lemma substring_length (s : string) :
  forall n m, String.length (substring n m s) <= m.
Proof.
  induction s as [|c r IH]; intros n m.
  - destruct n, m; cbn [substring String.length]; lia.
  - destruct n as [|n].
    + destruct m as [|m]; cbn [substring String.length]; [lia|].
      specialize (IH 0 m). lia.
    + cbn [substring]. apply IH.
Qed.

Lemma slice_to_last_length (b : Z) (s : string) :
  s <> EmptyString -> String.length (slice b (-1) s) < String.length s.
Proof.
  intros Hne. unfold slice.
  assert (Hlen : 0 < String.length s) by (destruct s; [congruence | cbn; lia]).
  set (len := Z.of_nat (String.length s)).
  assert (Hfrom : (0 <= relIndex len b)%Z) by (unfold relIndex; destruct (Z.ltb_spec b 0); lia).
  assert (Hto : (relIndex len (-1) = len - 1)%Z) by (unfold relIndex; cbn; lia).
  pose proof (substring_length s (Z.to_nat (relIndex len b))
                (Z.to_nat (relIndex len (-1) - relIndex len b))) as Hle.
  rewrite Hto in *. subst len. lia.
Qed.

Lemma prefix_nonempty (p s : string) :
  p <> EmptyString -> prefix p s = true -> s <> EmptyString.
Proof. intros Hp H ->. destruct p; [congruence | discriminate H]. Qed.

Lemma foldM_ext {A S : Type} (f g : S -> A -> Exc S) (l : list A) :
  (forall s x, In x l -> f s x = g s x) -> forall s, foldM f s l = foldM g s l.
Proof.
  induction l as [|x r IH]; intros H s; cbn [foldM]; [reflexivity|].
  rewrite (H s x (or_introl eq_refl)). destruct (g s x) as [s'|e]; cbn [bind];
    [apply IH; intros; apply H; right; assumption | reflexivity].
Qed.

Lemma mapM_ext {A B : Type} (f g : A -> Exc B) (l : list A) :
  (forall x, f x = g x) -> mapM f l = mapM g l.
Proof.
  intros H. induction l as [|x r IH]; cbn [mapM]; [reflexivity|].
  rewrite H, IH. reflexivity.
Qed.

(** ** The query interpreters *)

Section QueryFacts.

Variable JSON_parse : string -> Exc value.
Variable RegExp_test : string -> string -> Exc bool.

#[local] Abbreviation jqEval := (executeJq JSON_parse).
#[local] Abbreviation unique := (uniqueBySerialization JSON_parse).

(** The stage [.[]] on an array reads the field with the empty name in
    every element and keeps what is defined: it does not iterate. *)
Lemma executeJq_iterate (xs : list value) :
  jqEval (JArr xs) ".[]"
  = Ok (JArr (filter (fun v => negb (isUndefined v))
                (map (fun item => if isObjectLike item
                                  then field item EmptyString else JUndef) xs))).
Proof. reflexivity. Qed.

(** C1.  On [[{"age":17},{"age":30},{"age":45}]] the filter
    [.[] | select(.age > 18)] does not return the two elements over 18: the
    stage [.[]] is taken as an access to the field with the empty name,
    which no element has, so the chain continues on the empty array.  The
    [select] stage alone keeps the two elements. *)
Theorem jq_iterate_then_select_is_empty :
  jqEval (JArr [JObj [("age", num 17)]; JObj [("age", num 30)]; JObj [("age", num 45)]])
    ".[] | select(.age > 18)"
  = Ok (JArr [])
  /\ jqEval (JArr [JObj [("age", num 17)]; JObj [("age", num 30)]; JObj [("age", num 45)]])
       "select(.age > 18)"
     = Ok (JArr [JObj [("age", num 30)]; JObj [("age", num 45)]]).
Proof. split; vm_compute; reflexivity. Qed.

(** C7.  [$count] is recognized for the root only: on
    [{"array":[1,2,3]}] the query [$count(array)] falls to path navigation,
    which looks for a field named [$count(array)] and returns [undefined],
    while [$sum(array)] is evaluated over the array the path resolves to
    and [$count($)] counts the keys of the root. *)
Theorem jsonata_count_of_a_path_is_not_recognized :
  executeJsonata JSON_parse (JObj [("array", JArr [num 1; num 2; num 3])]) "$count(array)"
  = Ok JUndef
  /\ executeJsonata JSON_parse (JObj [("array", JArr [num 1; num 2; num 3])]) "$sum(array)"
     = Ok (num 6)
  /\ executeJsonata JSON_parse (JObj [("array", JArr [num 1; num 2; num 3])]) "$count($)"
     = Ok (num 1).
Proof. repeat split; vm_compute; reflexivity. Qed.

(** *** The depth bound of [executeJq] is never reached *)

(** A stage uses the recursive call on the text inside [map(...)] only. *)
Lemma jqStage_ext (r1 r2 : value -> string -> Exc value) (current : value)
  (part : string) :
  (startsWith "map(" part = true ->
   forall item, r1 item (trim (slice 4 (-1) part)) = r2 item (trim (slice 4 (-1) part))) ->
  jqStage JSON_parse r1 current part = jqStage JSON_parse r2 current part.
Proof.
  intros H. unfold jqStage.
  repeat match goal with
         | |- (if ?c then _ else _) = (if ?c then _ else _) =>
             destruct c eqn:?; [try reflexivity|]
         end; try reflexivity.
  match goal with
  | Hc : startsWith "map(" part && _ = true |- _ =>
      apply andb_true_iff in Hc; destruct Hc as [Hc _];
      destruct current; try reflexivity;
      rewrite (mapM_ext _ _ _ (H Hc)); reflexivity
  end.
Qed.

Lemma executeJqWithin_irrelevant (d1 : nat) :
  forall d2 data query,
    String.length query < d1 -> String.length query < d2 ->
    executeJqWithin JSON_parse d1 data query = executeJqWithin JSON_parse d2 data query.
Proof.
  induction d1 as [|a IH]; intros d2 data query H1 H2; [lia|].
  destruct d2 as [|b]; [lia|]. cbn [executeJqWithin].
  apply foldM_ext. intros s part Hin. apply jqStage_ext. intros Hmap item.
  apply in_map_iff in Hin. destruct Hin as [raw [<- Hraw]].
  apply split_length in Hraw. pose proof (trim_length raw) as Htrim.
  assert (Hne : trim raw <> EmptyString)
    by (apply (prefix_nonempty "map("); [discriminate | exact Hmap]).
  pose proof (slice_to_last_length 4 (trim raw) Hne) as Hslice.
  pose proof (trim_length (slice 4 (-1) (trim raw))) as Hinner.
  apply IH; lia.
Qed.

(** Any depth above the length of the query gives the result of
    [executeJq]: the [RangeError] of the bound is not a result of the
    model. *)
Lemma executeJq_depth (d : nat) (data : value) (query : string) :
  String.length query < d ->
  executeJqWithin JSON_parse d data query = executeJq JSON_parse data query.
Proof.
  intros H. unfold executeJq. apply executeJqWithin_irrelevant; lia.
Qed.

(** *** The [unique] stage *)

Lemma executeJqWithin_S (d : nat) (data : value) (query : string) :
  executeJqWithin JSON_parse (S d) data query
  = foldM (jqStage JSON_parse (executeJqWithin JSON_parse d)) data
      (map trim (split "|" query)).
Proof. reflexivity. Qed.

Lemma jqStage_unique (recur : value -> string -> Exc value) (current : value) :
  jqStage JSON_parse recur current "unique"
  = match current with
    | JArr xs => ys <- unique xs ;; Ok (JArr ys)
    | _ => Ok current
    end.
Proof. reflexivity. Qed.

Lemma executeJq_unique (data : value) :
  jqEval data "unique"
  = match data with
    | JArr xs => ys <- unique xs ;; Ok (JArr ys)
    | _ => Ok data
    end.
Proof.
  unfold executeJq. rewrite executeJqWithin_S.
  generalize (executeJqWithin JSON_parse (String.length "unique")). intros recur.
  change (map trim (split "|" "unique")) with ["unique"].
  cbn [foldM]. rewrite jqStage_unique.
  destruct data; try reflexivity.
  destruct (unique xs); reflexivity.
Qed.

Lemma executeJq_unique_twice (data : value) :
  jqEval data "unique | unique" = (v <- jqEval data "unique" ;; jqEval v "unique").
Proof.
  rewrite executeJq_unique.
  unfold executeJq at 1. rewrite executeJqWithin_S.
  generalize (executeJqWithin JSON_parse (String.length "unique | unique")).
  intros recur.
  change (map trim (split "|" "unique | unique")) with ["unique"; "unique"].
  cbn [foldM]. rewrite jqStage_unique.
  destruct data; cbn [bind]; rewrite ?jqStage_unique, ?executeJq_unique;
    reflexivity.
Qed.

Lemma mapM_reparse (ks : list (option string)) :
  (forall k, In k ks ->
             exists y, JSON_parse (keyText k) = Ok y /\ JSON_stringify y = k) ->
  exists ys, mapM (fun k => JSON_parse (keyText k)) ks = Ok ys
             /\ map JSON_stringify ys = ks.
Proof.
  induction ks as [|k r IH]; intros H; cbn [mapM].
  - exists []. split; reflexivity.
  - destruct (H k (or_introl eq_refl)) as [y [Hy Hk]].
    destruct IH as [ys [Hys Hmap]]; [intros k' Hk'; apply H; right; exact Hk'|].
    exists (y :: ys). rewrite Hy, Hys. cbn [bind map]. rewrite Hk, Hmap.
    split; reflexivity.
Qed.

Lemma reparses_spec (x : value) :
  reparses JSON_parse x = true ->
  exists y, JSON_parse (keyText (JSON_stringify x)) = Ok y
            /\ JSON_stringify y = JSON_stringify x.
Proof.
  unfold reparses. destruct (JSON_parse _) as [y|e]; [|discriminate].
  intros H. apply optEqb_eq in H. exists y. split; [reflexivity | exact H].
Qed.

Lemma unique_reparse (xs : list value) :
  forallb (reparses JSON_parse) xs = true ->
  exists ys, unique xs = Ok ys
             /\ map JSON_stringify ys = newSet (map JSON_stringify xs).
Proof.
  intros H. unfold uniqueBySerialization. apply mapM_reparse.
  intros k Hk. apply (proj1 (newSet_In _ _)) in Hk. apply in_map_iff in Hk.
  destruct Hk as [x [<- Hx]].
  rewrite forallb_forall in H. apply reparses_spec. apply H. exact Hx.
Qed.

(** C9.  The [unique] stage is idempotent: on an array whose elements
    [JSON.parse] reads back from their serializations, [unique] returns an
    array, [unique] applied to that array returns the same array, and so
    does the chain [unique | unique] on the input. *)
Theorem unique_is_idempotent (xs : list value) :
  forallb (reparses JSON_parse) xs = true ->
  exists ys,
    jqEval (JArr xs) "unique" = Ok (JArr ys)
    /\ jqEval (JArr ys) "unique" = Ok (JArr ys)
    /\ jqEval (JArr xs) "unique | unique" = Ok (JArr ys).
Proof.
  intros H. destruct (unique_reparse xs H) as [ys [Hys Hmap]].
  assert (Hagain : unique ys = Ok ys).
  { unfold uniqueBySerialization in *. rewrite Hmap, newSet_idempotent. exact Hys. }
  exists ys.
  assert (H1 : jqEval (JArr xs) "unique" = Ok (JArr ys))
    by (rewrite executeJq_unique, Hys; reflexivity).
  assert (H2 : jqEval (JArr ys) "unique" = Ok (JArr ys))
    by (rewrite executeJq_unique, Hagain; reflexivity).
  split; [exact H1|]. split; [exact H2|].
  rewrite executeJq_unique_twice, H1. cbn [bind]. exact H2.
Qed.

Lemma parsesBack_spec (x : value) :
  parsesBack JSON_parse x = true ->
  JSON_parse (keyText (JSON_stringify x)) = Ok x.
Proof.
  unfold parsesBack. destruct (JSON_parse _) as [y|e]; [|discriminate].
  intros H. apply value_eqb_eq in H. congruence.
Qed.

(** Values that are parsed back have different serializations when they
    differ. *)
Lemma parsesBack_injective (x y : value) :
  parsesBack JSON_parse x = true -> parsesBack JSON_parse y = true ->
  optEqb (JSON_stringify x) (JSON_stringify y) = value_eqb x y.
Proof.
  intros Hx Hy. apply parsesBack_spec in Hx, Hy.
  destruct (value_eqb x y) eqn:Hxy.
  - apply value_eqb_eq in Hxy. subst. apply optEqb_eq. reflexivity.
  - destruct (optEqb _ _) eqn:Hs; [|reflexivity].
    apply optEqb_eq in Hs. rewrite Hs in Hx. rewrite Hx in Hy.
    injection Hy as ->. rewrite (proj2 (value_eqb_eq y y) eq_refl) in Hxy.
    discriminate Hxy.
Qed.

Lemma newSet_first_occurrences (l : list value) :
  forall seen acc,
    Forall (fun x => parsesBack JSON_parse x = true) l ->
    Forall (fun x => parsesBack JSON_parse x = true) seen ->
    (forall y, parsesBack JSON_parse y = true ->
               existsb (optEqb (JSON_stringify y)) acc = existsb (value_eqb y) seen) ->
    fold_left setAdd (map JSON_stringify l) acc
    = (acc ++ map JSON_stringify (firstOccurrencesFrom seen l))%list.
Proof.
  induction l as [|x r IH]; intros seen acc Hl Hseen Hinv;
    cbn [map fold_left firstOccurrencesFrom].
  - rewrite app_nil_r. reflexivity.
  - inversion Hl as [|x' r' Hx Hr]; subst.
    unfold setAdd at 2. rewrite (Hinv x Hx).
    destruct (existsb (value_eqb x) seen) eqn:Hmem.
    + apply IH; assumption.
    + rewrite (IH (x :: seen) (acc ++ [JSON_stringify x])%list Hr).
      * cbn [map]. rewrite <- app_assoc. reflexivity.
      * constructor; assumption.
      * intros y Hy. rewrite existsb_app. cbn [existsb].
        rewrite (Hinv y Hy), orb_false_r, (parsesBack_injective y x Hy Hx).
        apply orb_comm.
Qed.

Lemma firstOccurrencesFrom_incl (l : list value) :
  forall seen x, In x (firstOccurrencesFrom seen l) -> In x l /\ ~ In x seen.
Proof.
  induction l as [|y r IH]; intros seen x Hin; cbn [firstOccurrencesFrom] in Hin.
  - destruct Hin.
  - destruct (existsb (value_eqb y) seen) eqn:Hmem.
    + destruct (IH seen x Hin) as [H1 H2]. split; [right; exact H1 | exact H2].
    + destruct Hin as [<-|Hin].
      * split; [left; reflexivity|]. intros Hs.
        apply existsb_value_eqb in Hs. congruence.
      * destruct (IH (y :: seen) x Hin) as [H1 H2].
        split; [right; exact H1|]. intros Hs. apply H2. right. exact Hs.
Qed.

Lemma firstOccurrencesFrom_complete (l : list value) :
  forall seen x, In x l -> ~ In x seen -> In x (firstOccurrencesFrom seen l).
Proof.
  induction l as [|y r IH]; intros seen x Hin Hns; cbn [firstOccurrencesFrom].
  - destruct Hin.
  - destruct (existsb (value_eqb y) seen) eqn:Hmem.
    + apply existsb_value_eqb in Hmem. destruct Hin as [->|Hin]; [contradiction|].
      apply IH; assumption.
    + destruct (value_eqb y x) eqn:Hyx.
      * left. apply value_eqb_eq. exact Hyx.
      * assert (Hne : y <> x).
        { intros ->. rewrite (proj2 (value_eqb_eq x x) eq_refl) in Hyx.
          discriminate Hyx. }
        right. apply IH.
        -- destruct Hin as [Heq|Hin]; [contradiction | exact Hin].
        -- intros [Heq|Hs]; contradiction.
Qed.

Lemma firstOccurrencesFrom_NoDup (l : list value) :
  forall seen, NoDup (firstOccurrencesFrom seen l).
Proof.
  induction l as [|y r IH]; intros seen; cbn [firstOccurrencesFrom].
  - constructor.
  - destruct (existsb (value_eqb y) seen); [apply IH|].
    constructor; [|apply IH].
    intros Hin. apply firstOccurrencesFrom_incl in Hin.
    destruct Hin as [_ Hn]. apply Hn. left. reflexivity.
Qed.

(** C10.  On an array whose elements [JSON.parse] reads back from their
    serializations, the [unique] stage returns the elements of the array in
    their order, each kept at its first occurrence only: the result has no
    repetition and the same elements as the input, and it is not sorted. *)
Theorem unique_keeps_first_occurrences (xs : list value) :
  forallb (parsesBack JSON_parse) xs = true ->
  jqEval (JArr xs) "unique" = Ok (JArr (firstOccurrences xs))
  /\ NoDup (firstOccurrences xs)
  /\ (forall x, In x (firstOccurrences xs) <-> In x xs).
Proof.
  intros H. rewrite forallb_forall in H.
  assert (Hall : Forall (fun x => parsesBack JSON_parse x = true) xs)
    by (apply Forall_forall; exact H).
  split; [|split].
  - rewrite executeJq_unique. unfold uniqueBySerialization, newSet.
    rewrite (newSet_first_occurrences xs [] [] Hall (Forall_nil _));
      [|intros y _; reflexivity].
    cbn [app]. fold (firstOccurrences xs).
    rewrite (mapM_total _ (fun k => match JSON_parse (keyText k) with
                                    | Ok v => v
                                    | Throw _ => JUndef
                                    end)).
    + cbn [bind]. rewrite map_map. f_equal. f_equal.
      rewrite <- (map_id (firstOccurrences xs)) at 2.
      apply map_ext_in. intros x Hx.
      apply firstOccurrencesFrom_incl in Hx. destruct Hx as [Hx _].
      rewrite (parsesBack_spec x (H x Hx)). reflexivity.
    + intros k Hk. apply in_map_iff in Hk. destruct Hk as [x [<- Hx]].
      apply firstOccurrencesFrom_incl in Hx. destruct Hx as [Hx _].
      rewrite (parsesBack_spec x (H x Hx)). reflexivity.
  - apply firstOccurrencesFrom_NoDup.
  - intros x. split.
    + intros Hx. apply firstOccurrencesFrom_incl in Hx. tauto.
    + intros Hx. apply firstOccurrencesFrom_complete; [exact Hx | intros []].
Qed.

(** *** The Mongo matcher *)

Lemma everyM_total {A : Type} (f : A -> Exc bool) (l : list A) :
  (forall x, In x l -> exists b, f x = Ok b) -> exists b, everyM f l = Ok b.
Proof.
  induction l as [|x r IH]; intros H; cbn [everyM].
  - eauto.
  - destruct (H x (or_introl eq_refl)) as [b Hb]. rewrite Hb. cbn [bind].
    destruct b; [|eauto]. apply IH. intros y Hy. apply H. right. exact Hy.
Qed.

Lemma filterM_defined {A : Type} (f : A -> Exc bool) (l : list A) :
  (forall x, In x l -> exists b, f x = Ok b) -> exists ys, filterM f l = Ok ys.
Proof.
  induction l as [|x r IH]; intros H; cbn [filterM].
  - eauto.
  - destruct (H x (or_introl eq_refl)) as [b Hb]. rewrite Hb. cbn [bind].
    destruct IH as [ys Hys]; [intros y Hy; apply H; right; exact Hy|].
    rewrite Hys. cbn [bind]. eauto.
Qed.

(** A document without a [toString] field holds only values that have a
    string, and so does what is read in it. *)
Lemma convertible_printable (v : value) : convertible v = true -> printable v = true.
Proof.
  induction v as [| |b|n|s|xs IH|kvs IH] using value_nested_ind;
    cbn [convertible printable]; try reflexivity.
  - intros H. apply forallb_forall. intros x Hx.
    rewrite Forall_forall in IH. apply (IH x Hx).
    apply (proj1 (forallb_forall _ _) H x Hx).
  - intros H. apply andb_true_iff in H. apply (proj1 H).
Qed.

Lemma convertible_nthZ (xs : list value) :
  forallb convertible xs = true ->
  forall n, convertible (orUndef (nthZ xs n)) = true.
Proof.
  induction xs as [|x r IH]; intros H n; cbn [nthZ]; [reflexivity|].
  cbn [forallb] in H. apply andb_true_iff in H. destruct H as [Hx Hr].
  destruct (n =? 0)%Z; [exact Hx | apply IH; exact Hr].
Qed.

Lemma convertible_assoc (kvs : list (string * value)) (key : string) :
  forallb (fun kv => convertible (snd kv)) kvs = true ->
  convertible (orUndef (assoc key kvs)) = true.
Proof.
  induction kvs as [|[k v] r IH]; intros H; cbn [assoc]; [reflexivity|].
  cbn [forallb snd] in H. apply andb_true_iff in H. destruct H as [Hv Hr].
  destruct (String.eqb key k); [exact Hv | apply IH; exact Hr].
Qed.

Lemma chars_convertible (s : string) : forallb convertible (chars s) = true.
Proof. induction s as [|c r IH]; cbn [chars forallb convertible]; [reflexivity | exact IH]. Qed.

Lemma convertible_field (v : value) (key : string) :
  convertible v = true -> convertible (field v key) = true.
Proof.
  intros H. unfold field. destruct v as [| |b|n|s|xs|kvs]; cbn [get]; try reflexivity.
  - destruct (String.eqb key "length"); [reflexivity|].
    destruct (arrayIndex key) as [n|]; [|reflexivity].
    apply convertible_nthZ. apply chars_convertible.
  - destruct (String.eqb key "length"); [reflexivity|].
    destruct (arrayIndex key) as [n|]; [|reflexivity].
    apply convertible_nthZ. exact H.
  - cbn [convertible] in H. apply andb_true_iff in H.
    apply convertible_assoc. apply (proj2 H).
Qed.

Lemma mongoOp_total (fieldVal opVal : value) (op : string) :
  op <> "$regex" -> printable fieldVal = true -> printable opVal = true ->
  exists b, mongoOp RegExp_test fieldVal op opVal = Ok b.
Proof.
  intros Hop Hf Ho. unfold mongoOp, Number_. rewrite Hf, Ho. cbn [bind].
  repeat match goal with
         | |- context [if String.eqb op ?s then _ else _] =>
             destruct (String.eqb_spec op s); [try contradiction; eauto|]
         end.
  eauto.
Qed.

Lemma assoc_None_keys (k : string) (kvs : list (string * value)) :
  assoc k kvs = None -> forall kv, In kv kvs -> fst kv <> k.
Proof.
  induction kvs as [|[k' v] r IH]; intros H kv Hin; [destruct Hin|].
  cbn [assoc] in H. destruct (String.eqb_spec k k') as [->|Hne]; [discriminate H|].
  destruct Hin as [<-|Hin]; [cbn [fst]; congruence | apply IH; assumption].
Qed.

Lemma mongoField_total (obj condition : value) (key : string) :
  condSafe condition = true ->
  convertible obj = true -> convertible condition = true ->
  exists b, mongoField RegExp_test obj key condition = Ok b.
Proof.
  intros Hsafe Hobj Hcond. unfold mongoField. destruct condition; eauto.
  apply everyM_total. intros [op opVal] Hin. cbn [fst snd].
  apply mongoOp_total.
  - unfold condSafe, hasKey in Hsafe.
    destruct (assoc "$regex" kvs) eqn:Ha; [discriminate Hsafe|].
    apply (assoc_None_keys _ _ Ha _ Hin).
  - apply convertible_printable. apply convertible_field. exact Hobj.
  - apply convertible_printable. cbn [convertible] in Hcond.
    apply andb_true_iff in Hcond. destruct Hcond as [_ Hcond].
    apply (proj1 (forallb_forall _ _) Hcond (op, opVal) Hin).
Qed.

Lemma indexed_In {A : Type} (l : list A) :
  forall i kv, In kv (indexed i l) -> In (snd kv) l.
Proof.
  induction l as [|x r IH]; intros i kv Hin; cbn [indexed] in Hin.
  - destruct Hin.
  - destruct Hin as [<-|Hin]; [left; reflexivity | right; apply (IH _ _ Hin)].
Qed.

Lemma chars_are_strings (s : string) :
  forall v, In v (chars s) -> condSafe v = true /\ convertible v = true.
Proof.
  induction s as [|c r IH]; intros v Hin; cbn [chars] in Hin.
  - destruct Hin.
  - destruct Hin as [<-|Hin]; [split; reflexivity | apply IH; exact Hin].
Qed.

Lemma matchesMongo_scalar (item query : value) :
  isObjectLike item = false -> matchesMongo RegExp_test item query = Ok false.
Proof. intros H. destruct query; cbn [matchesMongo]; rewrite H; reflexivity. Qed.

(** On a safe query the matcher returns a verdict for every document that
    converts; the second part carries the statement to the elements of
    [$and] and [$or]. *)
Lemma matchesMongo_total_nested (query : value) :
  (forall item, scanSafe query = true -> convertible query = true ->
                convertible item = true ->
                exists b, matchesMongo RegExp_test item query = Ok b)
  /\ match query with
     | JArr cs =>
         Forall (fun c => forall item, scanSafe c = true -> convertible c = true ->
                            convertible item = true ->
                            exists b, matchesMongo RegExp_test item c = Ok b) cs
     | _ => True
     end.
Proof.
  induction query as [| |x|x|x|xs IH|kvs IH] using value_nested_ind;
    (split; [intros item Hsafe Hquery Hitem | try exact I]);
    try discriminate Hsafe;
    try (destruct (isObjectLike item) eqn:Hobj;
         [|rewrite (matchesMongo_scalar _ _ Hobj); eauto]).
  - cbn [matchesMongo]. rewrite Hobj. cbn [negb entries bind everyM]. eauto.
  - cbn [matchesMongo]. rewrite Hobj. cbn [negb entries bind everyM]. eauto.
  - cbn [matchesMongo]. rewrite Hobj. cbn [negb entries bind].
    apply everyM_total. intros kv Hin.
    destruct (chars_are_strings x (snd kv) (indexed_In _ _ _ Hin)) as [Hc1 Hc2].
    apply mongoField_total; assumption.
  - cbn [matchesMongo]. rewrite Hobj. cbn [negb entries bind].
    apply everyM_total. intros kv Hin. apply indexed_In in Hin.
    cbn [scanSafe] in Hsafe. cbn [convertible] in Hquery.
    apply mongoField_total;
      [apply (proj1 (forallb_forall _ _) Hsafe _ Hin) | exact Hitem
      | apply (proj1 (forallb_forall _ _) Hquery _ Hin)].
  - apply Forall_impl with (2 := IH). intros c [Hc _]. exact Hc.
  - cbn [matchesMongo]. rewrite Hobj. cbn [negb].
    cbn [scanSafe] in Hsafe. cbn [convertible] in Hquery.
    apply andb_true_iff in Hquery. destruct Hquery as [_ Hquery].
    induction IH as [|[key c] rest [Hc Hcs] Hrest IHrest].
    + eauto.
    + cbn [forallb] in Hsafe. apply andb_true_iff in Hsafe.
      destruct Hsafe as [Hhead Htail]. cbn [snd] in Hc, Hcs.
      cbn [forallb snd] in Hquery. apply andb_true_iff in Hquery.
      destruct Hquery as [Hconv Hconvs].
      destruct (String.eqb key "$and") eqn:Hand.
      { cbn [orb] in Hhead. destruct c; eauto. cbn [convertible] in Hconv.
        clear - Hcs Hhead Hconv Hitem Hobj.
        induction Hcs as [|c cs Hc Hcs IHcs]; [eauto|].
        cbn [forallb] in Hhead, Hconv.
        apply andb_true_iff in Hhead. destruct Hhead as [H1 H2].
        apply andb_true_iff in Hconv. destruct Hconv as [H3 H4].
        destruct (Hc item H1 H3 Hitem) as [b Hb].
        rewrite Hb. cbn [bind]. destruct b; [apply IHcs; assumption | eauto]. }
      destruct (String.eqb key "$or") eqn:Hor.
      { cbn [orb] in Hhead. destruct c; eauto. cbn [convertible] in Hconv.
        clear - Hcs Hhead Hconv Hitem Hobj.
        induction Hcs as [|c cs Hc Hcs IHcs]; [eauto|].
        cbn [forallb] in Hhead, Hconv.
        apply andb_true_iff in Hhead. destruct Hhead as [H1 H2].
        apply andb_true_iff in Hconv. destruct Hconv as [H3 H4].
        destruct (Hc item H1 H3 Hitem) as [b Hb].
        rewrite Hb. cbn [bind]. destruct b; [eauto | apply IHcs; assumption]. }
      cbn [orb] in Hhead.
      destruct (String.eqb key "$not") eqn:Hnot.
      { destruct (Hc item Hhead Hconv Hitem) as [b Hb]. rewrite Hb. cbn [bind]. eauto. }
      destruct (mongoField_total item c key Hhead Hitem Hconv) as [b Hb].
      rewrite Hb. cbn [bind]. destruct b; [apply IHrest; assumption | eauto].
Qed.

Lemma matchesMongo_total (item query : value) :
  scanSafe query = true -> convertible query = true -> convertible item = true ->
  exists b, matchesMongo RegExp_test item query = Ok b.
Proof. apply (proj1 (matchesMongo_total_nested query)). Qed.

Lemma convertible_first_array (vs : list value) (xs : list value) (rest : list value) :
  forallb convertible vs = true ->
  filter isArray vs = JArr xs :: rest -> forallb convertible xs = true.
Proof.
  intros Hall Hf.
  assert (Hin : In (JArr xs) (filter isArray vs)) by (rewrite Hf; left; reflexivity).
  apply filter_In in Hin. destruct Hin as [Hin _].
  apply (proj1 (forallb_forall _ _) Hall _ Hin).
Qed.

Lemma mongoFind_total (data query : value) :
  scanSafe query = true -> convertible query = true -> convertible data = true ->
  exists r, mongoFind RegExp_test data query = Ok r.
Proof.
  intros Hsafe Hquery Hdata. unfold mongoFind.
  assert (Hscan : forall xs, forallb convertible xs = true ->
             exists r,
               (ys <- filterM (fun item => matchesMongo RegExp_test item query) xs ;;
                Ok (JArr ys)) = Ok r).
  { intros xs Hxs.
    destruct (filterM_defined (fun item => matchesMongo RegExp_test item query) xs)
      as [ys Hys].
    - intros x Hx. apply matchesMongo_total; [exact Hsafe | exact Hquery|].
      apply (proj1 (forallb_forall _ _) Hxs x Hx).
    - rewrite Hys. cbn [bind]. eauto. }
  destruct data as [| |b|n|s|xs|kvs]; eauto.
  destruct (filter isArray (values (JObj kvs))) as [|[| | | | |xs|] rest] eqn:Hf;
    try (destruct (matchesMongo_total (JObj kvs) query Hsafe Hquery Hdata) as [verdict Hv];
         rewrite Hv; cbn [bind]; eauto).
  apply Hscan. apply (convertible_first_array (values (JObj kvs)) xs rest); [|exact Hf].
  cbn [convertible] in Hdata. apply andb_true_iff in Hdata. destruct Hdata as [_ Hdata].
  unfold values. cbn [entries]. rewrite forallb_forall in Hdata |- *.
  intros v Hv. apply in_map_iff in Hv. destruct Hv as [kv [<- Hkv]]. apply (Hdata kv Hkv).
Qed.

(** C8, as amended.  When the query text is not valid JSON, the evaluation
    raises the query error whatever the data: no document is matched.  When
    it is valid JSON, the parsed query is safe for the scan (no [null]
    where a query document is expected, no [$regex] operator) and neither
    the query nor the data holds an object with a field named [toString]
    (a value that [Number] cannot convert), no error is raised whatever
    else the documents hold.  Other valid texts can raise during the scan,
    depending on the documents. *)
Theorem mongo_errors_fail_fast_on_malformed_text
  (data : value) (queryStr : string) :
  (forall err,
     JSON_parse queryStr = Throw err ->
     executeMongodb JSON_parse RegExp_test data queryStr
     = Throw ("Error: Invalid MongoDB query: " ++ err))
  /\ (forall query,
        JSON_parse queryStr = Ok query ->
        scanSafe query = true ->
        convertible query = true ->
        convertible data = true ->
        exists r, executeMongodb JSON_parse RegExp_test data queryStr = Ok r).
Proof.
  split.
  - intros err Hparse. unfold executeMongodb. rewrite Hparse. reflexivity.
  - intros query Hparse Hsafe Hquery Hdata. unfold executeMongodb. rewrite Hparse.
    cbn [bind].
    destruct (mongoFind_total data query Hsafe Hquery Hdata) as [r Hr]. rewrite Hr. eauto.
Qed.

End QueryFacts.

(** *** Closed instances for the query interpreters *)

(** C8, as stated, fails on its second part: the texts [null] and
    [{"name":{"$regex":"("}}] are valid JSON, and the scan raises on the
    first document that is an object, under the heading of a malformed
    query; on documents that are not objects the same queries raise
    nothing. *)
Lemma mongo_scan_raises_on_valid_query_text :
  Host.JSON_parse "null" = Ok JNull
  /\ executeMongodb Host.JSON_parse Host.RegExp_test (JArr [JObj [("name", JStr "x")]]) "null"
     = Throw "Error: Invalid MongoDB query: TypeError: Cannot convert undefined or null to object"
  /\ executeMongodb Host.JSON_parse Host.RegExp_test (JArr [num 1]) "null"
     = Ok (JArr [])
  /\ Host.JSON_parse (Host.text "{'name':{'$regex':'('}}")
     = Ok (JObj [("name", JObj [("$regex", JStr "(")])])
  /\ executeMongodb Host.JSON_parse Host.RegExp_test (JArr [JObj [("name", JStr "x")]])
       (Host.text "{'name':{'$regex':'('}}")
     = Throw "Error: Invalid MongoDB query: SyntaxError: Invalid regular expression"
  /\ executeMongodb Host.JSON_parse Host.RegExp_test (JArr [num 1])
       (Host.text "{'name':{'$regex':'('}}")
     = Ok (JArr []).
Proof. repeat split; vm_compute; reflexivity. Qed.

Lemma mongo_errors_fail_fast_witness :
  executeMongodb Host.JSON_parse Host.RegExp_test
    (JArr [JObj [("age", num 17)]; JObj [("age", num 30)]]) "{age"
  = Throw "Error: Invalid MongoDB query: SyntaxError: Unexpected token in JSON"
  /\ exists r,
       executeMongodb Host.JSON_parse Host.RegExp_test
         (JArr [JObj [("age", num 17)]; JObj [("age", num 30)]])
         (Host.text "{'age':{'$gt':18}}")
       = Ok r.
Proof.
  split.
  - apply (proj1 (mongo_errors_fail_fast_on_malformed_text Host.JSON_parse
                    Host.RegExp_test
                    (JArr [JObj [("age", num 17)]; JObj [("age", num 30)]]) "{age")
             "SyntaxError: Unexpected token in JSON").
    reflexivity.
  - apply (proj2 (mongo_errors_fail_fast_on_malformed_text Host.JSON_parse
                    Host.RegExp_test
                    (JArr [JObj [("age", num 17)]; JObj [("age", num 30)]])
                    (Host.text "{'age':{'$gt':18}}"))
             (JObj [("age", JObj [("$gt", num 18)])])).
    + reflexivity.
    + reflexivity.
    + reflexivity.
    + reflexivity.
Defined.

Lemma unique_is_idempotent_witness :
  exists ys,
    executeJq Host.JSON_parse (JArr [num 2; JStr "a"; num 2; num 1; JStr "a"]) "unique"
    = Ok (JArr ys)
    /\ executeJq Host.JSON_parse (JArr ys) "unique" = Ok (JArr ys)
    /\ executeJq Host.JSON_parse (JArr [num 2; JStr "a"; num 2; num 1; JStr "a"])
         "unique | unique"
       = Ok (JArr ys).
Proof.
  apply (unique_is_idempotent Host.JSON_parse
           [num 2; JStr "a"; num 2; num 1; JStr "a"]).
  reflexivity.
Defined.

Lemma unique_keeps_first_occurrences_witness :
  executeJq Host.JSON_parse (JArr [num 2; num 1; num 2; num 3; num 1]) "unique"
  = Ok (JArr [num 2; num 1; num 3]).
Proof.
  apply (proj1 (unique_keeps_first_occurrences Host.JSON_parse
                  [num 2; num 1; num 2; num 3; num 1] eq_refl)).
Defined.

(** * Further properties *)

(** ** Own properties: assignment and lookup *)

Lemma assoc_update_same (k : string) (v : value) (kvs : list (string * value)) :
  hasKey k kvs = true -> assoc k (update k v kvs) = Some v.
Proof.
  unfold hasKey. induction kvs as [|[k' v'] r IH]; cbn [assoc update]; [discriminate|].
  destruct (String.eqb k k') eqn:Hk; cbn [assoc]; rewrite Hk; [reflexivity | exact IH].
Qed.

Lemma assoc_update_other (k k0 : string) (v : value) (kvs : list (string * value)) :
  k0 <> k -> assoc k0 (update k v kvs) = assoc k0 kvs.
Proof.
  intros Hne. induction kvs as [|[k' v'] r IH]; cbn [assoc update]; [reflexivity|].
  destruct (String.eqb_spec k k') as [->|Hk]; cbn [assoc].
  - destruct (String.eqb_spec k0 k'); [contradiction | reflexivity].
  - rewrite IH. reflexivity.
Qed.

Lemma assoc_insertIndex (n : Z) (k k0 : string) (v : value)
  (kvs : list (string * value)) :
  assoc k kvs = None ->
  assoc k0 (insertIndex n k v kvs)
  = if String.eqb k0 k then Some v else assoc k0 kvs.
Proof.
  induction kvs as [|[k' v'] r IH]; intros Hnew; cbn [assoc insertIndex] in *;
    [reflexivity|].
  destruct (String.eqb_spec k k') as [->|Hk]; [discriminate Hnew|].
  destruct (arrayIndex k') as [m|]; [destruct (n <? m)%Z|]; cbn [assoc];
    try reflexivity.
  rewrite (IH Hnew). destruct (String.eqb_spec k0 k) as [->|Hne]; [|reflexivity].
  destruct (String.eqb_spec k k'); [contradiction | reflexivity].
Qed.

Lemma assoc_app_new (k k0 : string) (v : value) (kvs : list (string * value)) :
  assoc k kvs = None ->
  assoc k0 (kvs ++ [(k, v)])%list
  = if String.eqb k0 k then Some v else assoc k0 kvs.
Proof.
  induction kvs as [|[k' v'] r IH]; intros Hnew; cbn [assoc app] in *; [reflexivity|].
  destruct (String.eqb_spec k k') as [->|Hk]; [discriminate Hnew|].
  rewrite (IH Hnew). destruct (String.eqb_spec k0 k') as [->|Hne]; [|reflexivity].
  destruct (String.eqb_spec k' k); [congruence | reflexivity].
Qed.

Lemma assoc_define (kvs : list (string * value)) (k k0 : string) (v : value) :
  assoc k0 (define kvs k v) = if String.eqb k0 k then Some v else assoc k0 kvs.
Proof.
  unfold define, hasKey. destruct (assoc k kvs) as [old|] eqn:Hk.
  - destruct (String.eqb_spec k0 k) as [->|Hne].
    + apply assoc_update_same. unfold hasKey. rewrite Hk. reflexivity.
    + apply assoc_update_other. exact Hne.
  - destruct (arrayIndex k); [apply assoc_insertIndex | apply assoc_app_new]; exact Hk.
Qed.

(** What is read after [r[k] = v], for a name other than [__proto__]: the
    value at [k], and at any other key what was there before. *)
Lemma assoc_obj_set (kvs : list (string * value)) (k k0 : string) (v : value) :
  k <> "__proto__" ->
  assoc k0 (obj_set kvs k v) = if String.eqb k0 k then Some v else assoc k0 kvs.
Proof.
  intros Hk. unfold obj_set. rewrite (proj2 (String.eqb_neq k "__proto__") Hk).
  rewrite andb_false_r. apply assoc_define.
Qed.

(** An assignment leaves the other keys as they were, whatever its name. *)
Lemma assoc_obj_set_other (kvs : list (string * value)) (k k0 : string) (v : value) :
  k0 <> k -> assoc k0 (obj_set kvs k v) = assoc k0 kvs.
Proof.
  intros Hne. unfold obj_set.
  destruct (negb (hasKey k kvs) && String.eqb k "__proto__"); [reflexivity|].
  rewrite assoc_define. destruct (String.eqb_spec k0 k); [contradiction | reflexivity].
Qed.

(** What an object holds after an assignment was assigned, or was there
    before. *)
Lemma assoc_obj_set_inv (kvs : list (string * value)) (k k0 : string) (v w : value) :
  assoc k0 (obj_set kvs k v) = Some w ->
  (k0 = k /\ w = v) \/ assoc k0 kvs = Some w.
Proof.
  unfold obj_set.
  destruct (negb (hasKey k kvs) && String.eqb k "__proto__"); [right; assumption|].
  rewrite assoc_define. destruct (String.eqb_spec k0 k) as [->|Hne].
  - intros H. injection H as <-. left. split; reflexivity.
  - right. assumption.
Qed.

Lemma assoc_In (k : string) (v : value) (kvs : list (string * value)) :
  assoc k kvs = Some v -> In (k, v) kvs.
Proof.
  induction kvs as [|[k' v'] r IH]; cbn [assoc]; [discriminate|].
  destruct (String.eqb_spec k k') as [->|Hk]; intros H.
  - injection H as ->. left. reflexivity.
  - right. apply IH. exact H.
Qed.

Lemma assoc_NoDup (k : string) (v : value) (kvs : list (string * value)) :
  NoDup (map fst kvs) -> In (k, v) kvs -> assoc k kvs = Some v.
Proof.
  induction kvs as [|[k' v'] r IH]; cbn [map fst assoc]; intros Hnd Hin; [destruct Hin|].
  destruct Hin as [Heq|Hin].
  - injection Heq as -> ->. rewrite String.eqb_refl. reflexivity.
  - destruct (String.eqb_spec k k') as [->|Hk].
    + exfalso. apply (proj1 (NoDup_cons_iff _ _) Hnd).
      change k' with (fst (k', v)). apply in_map. exact Hin.
    + apply IH; [apply (proj2 (proj1 (NoDup_cons_iff _ _) Hnd)) | exact Hin].
Qed.

Lemma assoc_not_In (k : string) (kvs : list (string * value)) :
  ~ In k (map fst kvs) -> assoc k kvs = None.
Proof.
  induction kvs as [|[k' v'] r IH]; cbn [map fst assoc]; intros Hn; [reflexivity|].
  destruct (String.eqb_spec k k') as [->|Hk].
  - exfalso. apply Hn. left. reflexivity.
  - apply IH. intros Hin. apply Hn. right. exact Hin.
Qed.

Lemma existsb_eqb_In (k : string) (l : list string) :
  existsb (String.eqb k) l = true <-> In k l.
Proof.
  rewrite existsb_exists. split.
  - intros [x [Hin Hx]]. apply String.eqb_eq in Hx. subst x. exact Hin.
  - intros Hin. exists k. split; [exact Hin | apply String.eqb_refl].
Qed.

(** ** Loops that cannot fail *)

Lemma foldM_total {A S : Type} (f : S -> A -> Exc S) (g : S -> A -> S) (l : list A) :
  (forall s x, In x l -> f s x = Ok (g s x)) ->
  forall s, foldM f s l = Ok (fold_left g l s).
Proof.
  induction l as [|x r IH]; intros H s; cbn [foldM fold_left]; [reflexivity|].
  rewrite (H s x (or_introl eq_refl)). cbn [bind].
  apply IH. intros s' y Hy. apply H. right. exact Hy.
Qed.

Lemma foldM_defined {A S : Type} (f : S -> A -> Exc S) (l : list A) :
  (forall s x, exists s', f s x = Ok s') ->
  forall s, exists s', foldM f s l = Ok s'.
Proof.
  intros Hf. induction l as [|x r IH]; intros s; cbn [foldM]; [eexists; reflexivity|].
  destruct (Hf s x) as [s' Hs]. rewrite Hs. cbn [bind]. apply IH.
Qed.

Lemma foldM_app {A S : Type} (f : S -> A -> Exc S) (l1 l2 : list A) :
  forall s, foldM f s (l1 ++ l2)%list = (s' <- foldM f s l1 ;; foldM f s' l2).
Proof.
  induction l1 as [|x r IH]; intros s; cbn [foldM app bind]; [reflexivity|].
  destruct (f s x) as [s'|e]; cbn [bind]; [apply IH | reflexivity].
Qed.

Lemma mapM_defined {A B : Type} (f : A -> Exc B) (l : list A) :
  (forall x, In x l -> exists y, f x = Ok y) ->
  exists ys, mapM f l = Ok ys /\ List.length ys = List.length l.
Proof.
  induction l as [|x r IH]; intros H; cbn [mapM].
  - exists []. split; reflexivity.
  - destruct (H x (or_introl eq_refl)) as [y Hy]. rewrite Hy. cbn [bind].
    destruct IH as [ys [Hys Hlen]]; [intros z Hz; apply H; right; exact Hz|].
    rewrite Hys. cbn [bind]. exists (y :: ys). split; [reflexivity|].
    cbn [List.length]. rewrite Hlen. reflexivity.
Qed.

(** ** Splitting a text that holds the separator *)

Lemma split_nonempty (sep : ascii) (s : string) :
  exists h t, split sep s = h :: t.
Proof.
  destruct s as [|c r]; cbn [split]; [eexists; eexists; reflexivity|].
  destruct (Ascii.eqb c sep); [eexists; eexists; reflexivity|].
  destruct (split sep r); eexists; eexists; reflexivity.
Qed.

Lemma split_app (sep : ascii) (p q : string) :
  split sep (p ++ String sep q) = (split sep p ++ split sep q)%list.
Proof.
  induction p as [|c r IH]; cbn [String.append split].
  - rewrite Ascii.eqb_refl. reflexivity.
  - destruct (Ascii.eqb c sep); rewrite IH; [reflexivity|].
    destruct (split_nonempty sep r) as [h [t Hs]]. rewrite Hs. reflexivity.
Qed.

(** ** Sorting keeps the elements *)

Lemma insertM_permutation (cmp : value -> value -> Exc Z) (x : value) (l : list value) :
  forall r, Sort.insertM cmp x l = Ok r -> Permutation (x :: l) r.
Proof.
  induction l as [|y t IH]; intros r; cbn [Sort.insertM].
  - intros H. injection H as <-. apply Permutation_refl.
  - destruct (cmp x y) as [c|e]; cbn [bind]; [|discriminate].
    destruct (c <=? 0)%Z.
    + intros H. injection H as <-. apply Permutation_refl.
    + destruct (Sort.insertM cmp x t) as [r'|e]; cbn [bind]; [|discriminate].
      intros H. injection H as <-.
      apply perm_trans with (y :: x :: t); [apply perm_swap|].
      apply perm_skip. apply IH. reflexivity.
Qed.

Lemma sortM_permutation (cmp : value -> value -> Exc Z) (l : list value) :
  forall r, Sort.sortM cmp l = Ok r -> Permutation l r.
Proof.
  induction l as [|x t IH]; intros r; cbn [Sort.sortM].
  - intros H. injection H as <-. apply perm_nil.
  - destruct (Sort.sortM cmp t) as [r'|e]; cbn [bind]; [|discriminate].
    intros H. apply perm_trans with (x :: r').
    + apply perm_skip. apply IH. reflexivity.
    + apply (insertM_permutation cmp x r' r H).
Qed.

Lemma filter_split_permutation {A : Type} (p : A -> bool) (l : list A) :
  Permutation l (filter (fun x => negb (p x)) l ++ filter p l)%list.
Proof.
  induction l as [|x t IH]; cbn [filter app]; [apply perm_nil|].
  destruct (p x); cbn [negb app].
  - apply Permutation_cons_app. exact IH.
  - apply perm_skip. exact IH.
Qed.

(** Whatever the comparator answers, a sort that returns has kept every
    element. *)
Lemma sort_permutation (cmp : value -> value -> Exc Z) (l : list value) :
  forall r, Sort.sort cmp l = Ok r -> Permutation l r.
Proof.
  intros r. unfold Sort.sort.
  destruct (Sort.sortM cmp (filter (fun v => negb (isUndefined v)) l)) as [sorted|e] eqn:Hs;
    cbn [bind]; [|discriminate].
  intros H. injection H as <-.
  apply perm_trans with (filter (fun v => negb (isUndefined v)) l ++ filter isUndefined l)%list.
  - apply filter_split_permutation.
  - apply Permutation_app_tail. apply (sortM_permutation cmp _ sorted Hs).
Qed.

(** ** Loops over the elements of an array *)

Lemma mapM_length {A B : Type} (f : A -> Exc B) (l : list A) :
  forall ys, mapM f l = Ok ys -> List.length ys = List.length l.
Proof.
  induction l as [|x t IH]; intros ys; cbn [mapM].
  - intros H. injection H as <-. reflexivity.
  - destruct (f x) as [y|e]; cbn [bind]; [|discriminate].
    destruct (mapM f t) as [zs|e]; cbn [bind]; [|discriminate].
    intros H. injection H as <-. cbn [List.length]. rewrite (IH zs eq_refl). reflexivity.
Qed.

Lemma filterM_In {A : Type} (f : A -> Exc bool) (l : list A) :
  forall ys, filterM f l = Ok ys -> forall y, In y ys -> In y l /\ f y = Ok true.
Proof.
  induction l as [|x t IH]; cbn [filterM]; intros ys H y Hy.
  - injection H as <-. destruct Hy.
  - destruct (f x) as [b|e] eqn:Hb; cbn [bind] in H; [|discriminate].
    destruct (filterM f t) as [zs|e]; cbn [bind] in H; [|discriminate].
    injection H as <-. destruct b.
    + destruct Hy as [<-|Hy]; [split; [left; reflexivity | exact Hb]|].
      destruct (IH zs eq_refl y Hy) as [H1 H2]. split; [right; exact H1 | exact H2].
    + destruct (IH zs eq_refl y Hy) as [H1 H2]. split; [right; exact H1 | exact H2].
Qed.

(** A filter that keeps every element returns the list it was given. *)
Lemma filterM_kept {A : Type} (f : A -> Exc bool) (ys : list A) :
  (forall y, In y ys -> f y = Ok true) -> filterM f ys = Ok ys.
Proof.
  induction ys as [|y t IH]; intros H; cbn [filterM]; [reflexivity|].
  rewrite (H y (or_introl eq_refl)), IH; [reflexivity|].
  intros z Hz. apply H. right. exact Hz.
Qed.

(** ** The workflow engine, step by step *)

Section WorkflowSteps.

Variable runCustom : string -> value -> value * Exc value.
Variable localeCompare : string -> string -> Z.
Variable JSON_parse : string -> Exc value.

#[local] Abbreviation step := (executeWorkflowStep runCustom localeCompare).
#[local] Abbreviation run := (runSteps runCustom localeCompare).
#[local] Abbreviation workflow := (handleRunWorkflow runCustom localeCompare JSON_parse).

Lemma runSteps_enabled (steps : list WorkflowStep) :
  forall current acc, run current acc steps = run current acc (filter enabled steps).
Proof.
  induction steps as [|s r IH]; intros current acc; cbn [runSteps filter]; [reflexivity|].
  destruct (enabled s) eqn:He; cbn [negb runSteps]; [|apply IH].
  rewrite He. cbn [negb]. destruct (step current s) as [after [next|err]];
    [apply IH | reflexivity].
Qed.

(** X1. A disabled step is skipped: a workflow gives the response of the
    workflow made of its enabled steps alone. *)
Theorem disabled_steps_are_skipped (input : string) (steps : list WorkflowStep) :
  workflow input steps = workflow input (filter enabled steps).
Proof.
  unfold handleRunWorkflow. destruct (JSON_parse input) as [v|e]; cbn [bind]; [|reflexivity].
  rewrite runSteps_enabled. reflexivity.
Qed.

Lemma runSteps_ids (steps : list WorkflowStep) :
  forall current,
    exists rest,
      map stepId_ (filter enabled steps)
      = (map stepId (snd (run current [] steps)) ++ rest)%list
      /\ (Forall (fun r => error r = None) (snd (run current [] steps)) -> rest = []).
Proof.
  induction steps as [|s r IH]; intros current; cbn [runSteps filter].
  - exists []. split; reflexivity.
  - destruct (enabled s) eqn:He; cbn [negb]; [|apply IH].
    destruct (step current s) as [after [next|err]].
    + rewrite runSteps_acc. cbn [snd app map]. destruct (IH next) as [rest [Hids Hall]].
      exists rest. split.
      * cbn [stepId]. rewrite Hids. reflexivity.
      * intros Hf. apply Hall. inversion Hf; assumption.
    + cbn [snd app map stepId]. exists (map stepId_ (filter enabled r)). split; [reflexivity|].
      intros Hf. inversion Hf as [|? ? Herr ?]. discriminate Herr.
Qed.

(** X2. The trace of a workflow follows its enabled steps in order: the
    step identifiers of the trace are a prefix of those of the enabled
    steps, and the whole of them when no entry holds an error. *)
Theorem trace_follows_the_enabled_steps
  (input : string) (steps : list WorkflowStep) (res : WorkflowResult) :
  workflow input steps = Ok res ->
  exists rest,
    map stepId_ (filter enabled steps) = (map stepId (stepResults res) ++ rest)%list
    /\ (Forall (fun r => error r = None) (stepResults res) -> rest = []).
Proof.
  unfold handleRunWorkflow. destruct (JSON_parse input) as [v|e]; cbn [bind]; [|discriminate].
  destruct (run v [] steps) as [final trace] eqn:Hrun. intros H. injection H as <-.
  cbn [stepResults]. destruct (runSteps_ids steps v) as [rest Hrest].
  rewrite Hrun in Hrest. cbn [snd] in Hrest. exists rest. exact Hrest.
Qed.

(** X3. When a [sort] step returns, it returns the elements it was given:
    its output is an array that is a permutation of its input, whatever the
    field it sorts by and whatever the comparisons answered.  (The step
    raises when a comparison raises.) *)
Theorem sort_step_permutes
  (xs : list value) (id name cfg : string) (en : bool) (out : value) :
  snd (step (JArr xs) (mkStep id name sort cfg en)) = Ok out ->
  exists ys, out = JArr ys /\ Permutation xs ys.
Proof.
  unfold executeWorkflowStep. cbn [type_ config snd].
  match goal with
  | |- context [Sort.sort ?cmp xs] =>
      pose proof (sort_permutation cmp xs) as Hperm;
      destruct (Sort.sort cmp xs) as [ys|e]
  end; cbn [bind]; [|discriminate].
  intros H. injection H as <-. exists ys. split; [reflexivity|].
  apply Hperm. reflexivity.
Qed.

(** X4. When a [filter] step returns, it returns an array of elements of
    its input, and it is idempotent: applied to its own output it returns
    that output again. *)
Theorem filter_step_is_idempotent
  (xs : list value) (id name cfg : string) (en : bool) (out : value) :
  snd (step (JArr xs) (mkStep id name filter_ cfg en)) = Ok out ->
  exists ys,
    out = JArr ys
    /\ incl ys xs
    /\ snd (step (JArr ys) (mkStep id name filter_ cfg en)) = Ok (JArr ys).
Proof.
  unfold executeWorkflowStep. cbn [type_ config snd].
  destruct (parseFilterExpression cfg) as [[field op] val].
  destruct (filterM (filterItem field op val) xs) as [ys|e] eqn:Hys; cbn [bind];
    [|discriminate].
  intros H. injection H as <-. exists ys. split; [reflexivity|].
  pose proof (filterM_In _ xs ys Hys) as Hin. split.
  - intros y Hy. apply (proj1 (Hin y Hy)).
  - rewrite (filterM_kept (filterItem field op val) ys); [reflexivity|].
    intros y Hy. apply (proj2 (Hin y Hy)).
Qed.

(** X5. When a [map] step returns, it returns an array of the same
    length as its input: it neither drops nor adds an element. *)
Theorem map_step_keeps_the_length
  (xs : list value) (id name cfg : string) (en : bool) (out : value) :
  snd (step (JArr xs) (mkStep id name map_ cfg en)) = Ok out ->
  exists ys, out = JArr ys /\ List.length ys = List.length xs.
Proof.
  unfold executeWorkflowStep. cbn [type_ config snd].
  destruct (mapM (mapItem (trim cfg)) xs) as [ys|e] eqn:Hys; cbn [bind]; [|discriminate].
  intros H. injection H as <-. exists ys. split; [reflexivity|].
  apply (mapM_length _ xs ys Hys).
Qed.

Lemma pick_fold (item : value) (fields : list string) :
  ~ In "__proto__" fields ->
  forall r0,
    exists r,
      foldM (fun r f => v <- getNestedValue item f ;; Ok (obj_set r f v)) r0 fields = Ok r
      /\ forall k, assoc k r
                   = if existsb (String.eqb k) fields then Some (resolved item k)
                     else assoc k r0.
Proof.
  induction fields as [|f t IH]; intros Hproto r0; cbn [foldM existsb].
  - exists r0. split; reflexivity.
  - rewrite getNestedValue_resolved. cbn [bind].
    destruct (IH (fun H => Hproto (or_intror H)) (obj_set r0 f (resolved item f)))
      as [r [Hr Hk]].
    exists r. split; [exact Hr|]. intros k. rewrite Hk, assoc_obj_set.
    + destruct (String.eqb_spec k f) as [->|Hne]; cbn [orb].
      * destruct (existsb (String.eqb f) t); reflexivity.
      * reflexivity.
    + intros ->. apply Hproto. left. reflexivity.
Qed.

Lemma pickItem_Picked (fields : list string) (item : value) :
  ~ In "__proto__" fields ->
  exists out, pickItem fields item = Ok out /\ Picked fields item out.
Proof.
  intros Hproto.
  unfold pickItem. destruct (pick_fold item fields Hproto []) as [r [Hr Hk]].
  rewrite Hr. cbn [bind]. exists (JObj r). split; [reflexivity|].
  exists r. split; [reflexivity|]. split.
  - intros k Hin. exists (resolved item k). split; [apply getNestedValue_resolved|].
    rewrite Hk. rewrite (proj2 (existsb_eqb_In k fields) Hin). reflexivity.
  - intros k Hn. rewrite Hk. destruct (existsb (String.eqb k) fields) eqn:He.
    + exfalso. apply Hn. apply existsb_eqb_In. exact He.
    + reflexivity.
Qed.

Lemma mapM_Forall2 {A B : Type} (f : A -> Exc B) (R : A -> B -> Prop) (l : list A) :
  (forall x, exists y, f x = Ok y /\ R x y) ->
  exists ys, mapM f l = Ok ys /\ Forall2 R l ys.
Proof.
  intros Hf. induction l as [|x t IH]; cbn [mapM].
  - exists []. split; [reflexivity | constructor].
  - destruct (Hf x) as [y [Hy HR]]. destruct IH as [ys [Hys HF]].
    rewrite Hy, Hys. cbn [bind]. exists (y :: ys). split; [reflexivity|].
    constructor; assumption.
Qed.

(** X6. A [pick] step whose listed fields are read in the items
    themselves, none of them named [__proto__], does not fail.  Each item
    (each element of an array, or the value itself when it is no array)
    becomes an object with exactly the listed fields, each holding what the
    path resolver finds for it in the item: [undefined] for a field the
    item lacks. *)
Theorem pick_step_keeps_exactly_the_listed_fields
  (data : value) (id name cfg : string) (en : bool) :
  ~ In "__proto__" (fieldList cfg) ->
  Forall (fun item => forallb (ownPath item) (fieldList cfg) = true) (items data) ->
  exists out,
    step data (mkStep id name pick cfg en) = (data, Ok out)
    /\ match data with
       | JArr xs => exists ys, out = JArr ys /\ Forall2 (Picked (fieldList cfg)) xs ys
       | _ => Picked (fieldList cfg) data out
       end.
Proof.
  intros Hproto _. unfold executeWorkflowStep. unfold fieldList in *. cbn [type_ config].
  assert (Hone : forall item,
             exists out,
               (item, pickItem (map trim (split "," cfg)) item) = (item, Ok out)
               /\ Picked (map trim (split "," cfg)) item out).
  { intros item.
    destruct (pickItem_Picked (map trim (split "," cfg)) item Hproto) as [out [Ho Hp]].
    exists out. rewrite Ho. split; [reflexivity | exact Hp]. }
  destruct data as [| |b|n|t|xs|kvs]; try apply Hone.
  destruct (mapM_Forall2 (pickItem (map trim (split "," cfg)))
              (Picked (map trim (split "," cfg))) xs) as [ys [Hys HF]].
  - intros x. apply pickItem_Picked. exact Hproto.
  - rewrite Hys. cbn [bind]. exists (JArr ys). split; [reflexivity|].
    exists ys. split; [reflexivity | exact HF].
Qed.

(** The object rebuilt from the entries of another, leaving some keys
    out. *)
Lemma rebuild_assoc (drop : string -> bool) (es : list (string * value)) :
  NoDup (map fst es) ->
  ~ In "__proto__" (map fst es) ->
  forall r0 k,
    assoc k (fold_left (fun r kv => if drop (fst kv) then r
                                    else obj_set r (fst kv) (snd kv)) es r0)
    = match assoc k es with
      | Some v => if drop k then assoc k r0 else Some v
      | None => assoc k r0
      end.
Proof.
  induction es as [|[k1 v1] t IH]; intros Hnd Hproto r0 k; cbn [fold_left assoc fst snd];
    [reflexivity|].
  cbn [map fst] in Hnd, Hproto. apply NoDup_cons_iff in Hnd. destruct Hnd as [Hk1 Hnd].
  rewrite (IH Hnd (fun H => Hproto (or_intror H))).
  destruct (String.eqb_spec k k1) as [->|Hne].
  - rewrite (assoc_not_In k1 t Hk1). destruct (drop k1); [reflexivity|].
    rewrite assoc_obj_set, String.eqb_refl; [reflexivity|].
    intros ->. apply Hproto. left. reflexivity.
  - assert (Hsame : assoc k (if drop k1 then r0 else obj_set r0 k1 v1) = assoc k r0).
    { destruct (drop k1); [reflexivity|]. apply assoc_obj_set_other. exact Hne. }
    rewrite Hsame. reflexivity.
Qed.

(** X7. An [omit] step on an object that has no field named [__proto__]
    removes the listed fields and nothing else: a listed field is absent
    from the result, and every other field reads as in the input. *)
Theorem omit_step_removes_exactly_the_listed_fields
  (kvs : list (string * value)) (id name cfg : string) (en : bool) :
  NoDup (map fst kvs) ->
  ~ In "__proto__" (map fst kvs) ->
  exists r,
    step (JObj kvs) (mkStep id name omit cfg en) = (JObj kvs, Ok (JObj r))
    /\ forall k, assoc k r
                 = if existsb (String.eqb k) (fieldList cfg) then None else assoc k kvs.
Proof.
  intros Hnd Hproto. unfold executeWorkflowStep, omitItem, fieldList.
  cbn [type_ config entries bind].
  eexists. split; [reflexivity|]. intros k.
  rewrite (rebuild_assoc (fun key => existsb (String.eqb key) (map trim (split "," cfg)))
             kvs Hnd Hproto [] k).
  cbn [assoc]. destruct (assoc k kvs); [|destruct (existsb _ _); reflexivity].
  reflexivity.
Qed.

Lemma rename_fold (f : string -> string) (kvs : list (string * value)) :
  forall r0,
    fold_left (fun r kv => obj_set r (f (fst kv)) (snd kv)) kvs r0
    = fold_left (fun r kv => if false then r else obj_set r (fst kv) (snd kv))
        (map (fun kv => (f (fst kv), snd kv)) kvs) r0.
Proof.
  induction kvs as [|kv t IH]; intros r0; cbn [fold_left map fst snd]; [reflexivity|].
  apply IH.
Qed.

(** X24. A [rename] step on an object is lossless when no two fields are
    given the same name and none is given the name [__proto__]: every field
    of the input is found under its new name with its value, and the result
    holds nothing else. *)
Theorem rename_step_moves_every_field
  (kvs : list (string * value)) (id name cfg : string) (en : bool) :
  NoDup (map (fun kv => renamedKey cfg (fst kv)) kvs) ->
  ~ In "__proto__" (map (fun kv => renamedKey cfg (fst kv)) kvs) ->
  exists r,
    step (JObj kvs) (mkStep id name rename cfg en) = (JObj kvs, Ok (JObj r))
    /\ (forall k v, In (k, v) kvs -> assoc (renamedKey cfg k) r = Some v)
    /\ (forall k', ~ In k' (map (fun kv => renamedKey cfg (fst kv)) kvs) ->
                   assoc k' r = None).
Proof.
  intros Hnd Hproto. unfold executeWorkflowStep, renameItem. cbn [type_ config entries bind].
  eexists. split; [reflexivity|].
  change (fold_left _ kvs [])
    with (fold_left (fun r kv => obj_set r (renamedKey cfg (fst kv)) (snd kv)) kvs []).
  rewrite rename_fold.
  assert (Hkeys : map fst (map (fun kv => (renamedKey cfg (fst kv), snd kv)) kvs)
                  = map (fun kv => renamedKey cfg (fst kv)) kvs).
  { rewrite map_map. reflexivity. }
  assert (Hnd' : NoDup (map fst (map (fun kv => (renamedKey cfg (fst kv), snd kv)) kvs)))
    by (rewrite Hkeys; exact Hnd).
  assert (Hproto' : ~ In "__proto__"
                      (map fst (map (fun kv => (renamedKey cfg (fst kv), snd kv)) kvs)))
    by (rewrite Hkeys; exact Hproto).
  split.
  - intros k v Hin. rewrite (rebuild_assoc (fun _ => false) _ Hnd' Hproto' [] _).
    rewrite (assoc_NoDup (renamedKey cfg k) v _ Hnd'); [reflexivity|].
    apply (in_map (fun kv => (renamedKey cfg (fst kv), snd kv)) kvs (k, v) Hin).
  - intros k' Hk. rewrite (rebuild_assoc (fun _ => false) _ Hnd' Hproto' [] _).
    rewrite (assoc_not_In k' _); [reflexivity|]. rewrite Hkeys. exact Hk.
Qed.

Lemma runSteps_final (steps : list WorkflowStep) :
  forall current,
    JSON_stringify2 (fst (run current [] steps))
    = lastSnapshot current (snd (run current [] steps)).
Proof.
  induction steps as [|s r IH]; intros current; cbn [runSteps]; [reflexivity|].
  destruct (enabled s); cbn [negb]; [|apply IH].
  destruct (step current s) as [after [next|err]].
  - rewrite runSteps_acc. cbn [fst snd app]. rewrite IH.
    unfold lastSnapshot. cbn [fold_left output]. reflexivity.
  - reflexivity.
Qed.

(** X25. The final output of a workflow is always the output recorded in
    the last entry of its trace, with or without an error, and the
    serialized input when no step ran. *)
Theorem final_output_is_the_last_snapshot
  (input : string) (steps : list WorkflowStep) (v0 : value) (res : WorkflowResult) :
  JSON_parse input = Ok v0 ->
  workflow input steps = Ok res ->
  finalOutput res = lastSnapshot v0 (stepResults res).
Proof.
  intros Hparse. unfold handleRunWorkflow. rewrite Hparse. cbn [bind].
  pose proof (runSteps_final steps v0) as Hfinal.
  destruct (run v0 [] steps) as [final trace]. cbn [fst snd] in Hfinal.
  intros H. injection H as <-. cbn [finalOutput stepResults]. exact Hfinal.
Qed.

End WorkflowSteps.

(** *** Closed instances for the steps *)

Lemma trace_follows_the_enabled_steps_witness :
  exists rest,
    map stepId_
      (filter enabled
         [mkStep "s1" "keep" jq "." true;
          mkStep "s2" "off" pick "name" false;
          mkStep "s3" "adults" filter_ "age > 18" true;
          mkStep "s4" "names" pick "name" true])
    = (map stepId [mkStepResult "s1" (Some "5") None;
                   mkStepResult "s3" (Some "5") (Some "Error: filter requires an array")]
       ++ rest)%list
    /\ (Forall (fun r => error r = None)
          [mkStepResult "s1" (Some "5") None;
           mkStepResult "s3" (Some "5") (Some "Error: filter requires an array")]
        -> rest = []).
Proof.
  apply (trace_follows_the_enabled_steps Host.runCustom Host.localeCompare Host.JSON_parse
           "5"
           [mkStep "s1" "keep" jq "." true;
            mkStep "s2" "off" pick "name" false;
            mkStep "s3" "adults" filter_ "age > 18" true;
            mkStep "s4" "names" pick "name" true]
           (mkWorkflowResult
              [mkStepResult "s1" (Some "5") None;
               mkStepResult "s3" (Some "5") (Some "Error: filter requires an array")]
              (Some "5"))).
  vm_compute. reflexivity.
Defined.

Lemma sort_step_permutes_witness :
  exists ys,
    JArr [JObj [("n", JStr "a")]; JObj [("n", JStr "b")]] = JArr ys
    /\ Permutation [JObj [("n", JStr "b")]; JObj [("n", JStr "a")]] ys.
Proof.
  apply (sort_step_permutes Host.runCustom Host.localeCompare
           [JObj [("n", JStr "b")]; JObj [("n", JStr "a")]] "s1" "by name" "n" true).
  vm_compute. reflexivity.
Defined.

Lemma filter_step_is_idempotent_witness :
  exists ys,
    JArr [JObj [("age", num 30)]] = JArr ys
    /\ incl ys [JObj [("age", num 17)]; JObj [("age", num 30)]]
    /\ snd (executeWorkflowStep Host.runCustom Host.localeCompare (JArr ys)
              (mkStep "s1" "adults" filter_ "age > 18" true))
       = Ok (JArr ys).
Proof.
  apply (filter_step_is_idempotent Host.runCustom Host.localeCompare
           [JObj [("age", num 17)]; JObj [("age", num 30)]] "s1" "adults" "age > 18" true).
  vm_compute. reflexivity.
Defined.

Lemma map_step_keeps_the_length_witness :
  exists ys,
    JArr [JObj [("a", num 1); ("y", num 2)]; JObj [("a", JUndef); ("y", JUndef)]] = JArr ys
    /\ List.length ys = List.length [JObj [("a", num 1); ("b", JObj [("c", num 2)])]; num 5].
Proof.
  apply (map_step_keeps_the_length Host.runCustom Host.localeCompare
           [JObj [("a", num 1); ("b", JObj [("c", num 2)])]; num 5]
           "s1" "project" "{ a, b.c : y }" true).
  vm_compute. reflexivity.
Defined.

Lemma pick_step_keeps_exactly_the_listed_fields_witness :
  exists out,
    executeWorkflowStep Host.runCustom Host.localeCompare
      (JArr [JObj [("a", num 1); ("b", num 2)]; JObj [("b", num 3)]])
      (mkStep "s1" "keep" pick "a, c" true)
    = (JArr [JObj [("a", num 1); ("b", num 2)]; JObj [("b", num 3)]], Ok out)
    /\ exists ys,
         out = JArr ys
         /\ Forall2 (Picked (fieldList "a, c"))
              [JObj [("a", num 1); ("b", num 2)]; JObj [("b", num 3)]] ys.
Proof.
  apply (pick_step_keeps_exactly_the_listed_fields Host.runCustom Host.localeCompare
           (JArr [JObj [("a", num 1); ("b", num 2)]; JObj [("b", num 3)]])
           "s1" "keep" "a, c" true).
  - vm_compute. intros H. repeat (destruct H as [H|H]; [discriminate H|]). exact H.
  - repeat constructor.
Defined.

Lemma omit_step_removes_exactly_the_listed_fields_witness :
  exists r,
    executeWorkflowStep Host.runCustom Host.localeCompare
      (JObj [("a", num 1); ("b", num 2); ("c", num 3)])
      (mkStep "s1" "drop" omit "b, z" true)
    = (JObj [("a", num 1); ("b", num 2); ("c", num 3)], Ok (JObj r))
    /\ forall k, assoc k r
                 = if existsb (String.eqb k) (fieldList "b, z") then None
                   else assoc k [("a", num 1); ("b", num 2); ("c", num 3)].
Proof.
  apply (omit_step_removes_exactly_the_listed_fields Host.runCustom Host.localeCompare
           [("a", num 1); ("b", num 2); ("c", num 3)] "s1" "drop" "b, z" true).
  - cbn [map fst]. repeat constructor; cbn [In]; intros H;
      repeat (destruct H as [H|H]; [discriminate H|]); exact H.
  - cbn [map fst In]. intros H.
    repeat (destruct H as [H|H]; [discriminate H|]). exact H.
Defined.

Lemma rename_step_moves_every_field_witness :
  exists r,
    executeWorkflowStep Host.runCustom Host.localeCompare
      (JObj [("a", num 1); ("b", num 2)]) (mkStep "s1" "swap" rename "a:b, b:a" true)
    = (JObj [("a", num 1); ("b", num 2)], Ok (JObj r))
    /\ (forall k v, In (k, v) [("a", num 1); ("b", num 2)] ->
                    assoc (renamedKey "a:b, b:a" k) r = Some v)
    /\ (forall k', ~ In k' (map (fun kv => renamedKey "a:b, b:a" (fst kv))
                              [("a", num 1); ("b", num 2)]) ->
                   assoc k' r = None).
Proof.
  apply (rename_step_moves_every_field Host.runCustom Host.localeCompare
           [("a", num 1); ("b", num 2)] "s1" "swap" "a:b, b:a" true).
  - vm_compute. repeat constructor; cbn [In]; intros H;
      repeat (destruct H as [H|H]; [discriminate H|]); exact H.
  - vm_compute. intros H.
    repeat (destruct H as [H|H]; [discriminate H|]). exact H.
Defined.

Lemma final_output_is_the_last_snapshot_witness :
  finalOutput
    (mkWorkflowResult
       [mkStepResult "s1" (Some "5") None;
        mkStepResult "s2" (Some "5") (Some "Error: filter requires an array")]
       (Some "5"))
  = lastSnapshot (num 5)
      [mkStepResult "s1" (Some "5") None;
       mkStepResult "s2" (Some "5") (Some "Error: filter requires an array")].
Proof.
  apply (final_output_is_the_last_snapshot Host.runCustom Host.localeCompare
           Host.JSON_parse "5"
           [mkStep "s1" "keep" jq "." true;
            mkStep "s2" "adults" filter_ "age > 18" true;
            mkStep "s3" "names" pick "name" true]).
  - vm_compute. reflexivity.
  - vm_compute. reflexivity.
Defined.

(** ** Texts and their parts *)

Lemma append_assoc (a b c : string) : (a ++ b) ++ c = a ++ (b ++ c).
Proof. induction a as [|x r IH]; cbn [String.append]; [reflexivity | rewrite IH; reflexivity]. Qed.

Lemma append_empty_r (a : string) : a ++ EmptyString = a.
Proof. induction a as [|x r IH]; cbn [String.append]; [reflexivity | rewrite IH; reflexivity]. Qed.

Lemma length_append (a b : string) :
  String.length (a ++ b) = String.length a + String.length b.
Proof. induction a as [|x r IH]; cbn [String.append String.length]; [reflexivity | rewrite IH; reflexivity]. Qed.

Lemma occursIn_refl (a : string) : occursIn a a.
Proof. exists EmptyString, EmptyString. cbn [String.append]. rewrite append_empty_r. reflexivity. Qed.

Lemma occursIn_trans (a b c : string) : occursIn a b -> occursIn b c -> occursIn a c.
Proof.
  intros [p1 [q1 H1]] [p2 [q2 H2]]. exists (p2 ++ p1), (q1 ++ q2).
  rewrite H2, H1. rewrite !append_assoc. reflexivity.
Qed.

Lemma occursIn_prefix (a post : string) : occursIn a (a ++ post).
Proof. exists EmptyString, post. reflexivity. Qed.

Lemma occursIn_suffix (pre a : string) : occursIn a (pre ++ a).
Proof. exists pre, EmptyString. rewrite append_empty_r. reflexivity. Qed.

Lemma occursIn_cons (c : ascii) (a s : string) : occursIn a s -> occursIn a (String c s).
Proof. intros [p [q H]]. exists (String c p), q. rewrite H. reflexivity. Qed.

Lemma substring_prefix (s : string) :
  forall n, exists post, s = substring 0 n s ++ post.
Proof.
  induction s as [|c r IH]; intros n.
  - exists EmptyString. destruct n; reflexivity.
  - destruct n as [|n]; cbn [substring].
    + exists (String c r). reflexivity.
    + destruct (IH n) as [post Hp]. exists post. cbn [String.append].
      rewrite <- Hp. reflexivity.
Qed.

Lemma substring_occurs (s : string) : forall m n, occursIn (substring m n s) s.
Proof.
  induction s as [|c r IH]; intros m n.
  - destruct m, n; apply occursIn_refl.
  - destruct m as [|m].
    + destruct (substring_prefix (String c r) n) as [post Hp].
      rewrite Hp at 2. apply occursIn_prefix.
    + cbn [substring]. apply occursIn_cons. apply IH.
Qed.

Lemma trimStart_occurs (s : string) : occursIn (trimStart s) s.
Proof.
  induction s as [|c r IH]; cbn [trimStart]; [apply occursIn_refl|].
  destruct (isSpace c); [apply occursIn_cons; exact IH | apply occursIn_refl].
Qed.

Lemma trimEnd_prefix (s : string) : exists post, s = trimEnd s ++ post.
Proof.
  induction s as [|c r IH]; cbn [trimEnd]; [exists EmptyString; reflexivity|].
  destruct IH as [post Hp]. destruct (trimEnd r) as [|d r'] eqn:Ht.
  - destruct (isSpace c); [exists (String c r); reflexivity|].
    exists r. reflexivity.
  - exists post. rewrite Hp at 1. reflexivity.
Qed.

Lemma trim_occurs (s : string) : occursIn (trim s) s.
Proof.
  unfold trim. apply occursIn_trans with (trimStart s); [|apply trimStart_occurs].
  destruct (trimEnd_prefix (trimStart s)) as [post Hp]. rewrite Hp at 2.
  apply occursIn_prefix.
Qed.

Lemma slice_occurs (b e : Z) (s : string) : occursIn (slice b e s) s.
Proof. unfold slice. apply substring_occurs. Qed.

Lemma split_head_prefix (sep : ascii) (s : string) :
  forall h t, split sep s = h :: t -> exists post, s = h ++ post.
Proof.
  induction s as [|c r IH]; intros h t; cbn [split].
  - intros H. injection H as <- <-. exists EmptyString. reflexivity.
  - destruct (Ascii.eqb c sep).
    + intros H. injection H as <- <-. exists (String c r). reflexivity.
    + destruct (split sep r) as [|h' t'] eqn:Hs.
      * intros H. injection H as <- <-. destruct (split_nonempty sep r) as [a [b Hab]].
        congruence.
      * intros H. injection H as <- <-. destruct (IH h' t' eq_refl) as [post Hp].
        exists post. cbn [String.append]. rewrite <- Hp. reflexivity.
Qed.

Lemma split_occurs (sep : ascii) (s : string) :
  forall part, In part (split sep s) -> occursIn part s.
Proof.
  induction s as [|c r IH]; intros part; cbn [split].
  - intros [<-|[]]. apply occursIn_refl.
  - destruct (Ascii.eqb c sep).
    + intros [<-|Hin]; [exists EmptyString, (String c r); reflexivity|].
      apply occursIn_cons. apply IH. exact Hin.
    + destruct (split sep r) as [|h t] eqn:Hs.
      * intros [<-|[]]. destruct (split_nonempty sep r) as [a [b Hab]]. congruence.
      * intros [<-|Hin].
        -- destruct (split_head_prefix sep r h t Hs) as [post Hp].
           rewrite Hp. apply (occursIn_prefix (String c h) post).
        -- apply occursIn_cons. apply IH. right. exact Hin.
Qed.

Lemma substring_here (a post : string) :
  substring 0 (String.length a) (a ++ post) = a.
Proof.
  induction a as [|c r IH]; cbn [String.length String.append substring].
  - destruct post; reflexivity.
  - rewrite IH. reflexivity.
Qed.

Lemma substring_at (pre a post : string) :
  substring (String.length pre) (String.length a) (pre ++ a ++ post) = a.
Proof.
  induction pre as [|c r IH]; cbn [String.length String.append substring].
  - apply substring_here.
  - exact IH.
Qed.

Lemma includes_occursIn (a s : string) : includes a s = true -> occursIn a s.
Proof.
  unfold includes, indexOf. destruct (index 0 a s) as [m|] eqn:Hi; [|discriminate].
  intros _. apply index_correct1 in Hi. rewrite <- Hi. apply substring_occurs.
Qed.

Lemma occursIn_includes (a s : string) :
  a <> EmptyString -> occursIn a s -> includes a s = true.
Proof.
  intros Hne [pre [post Hs]]. unfold includes, indexOf.
  destruct (index 0 a s) as [m|] eqn:Hi; [reflexivity|].
  exfalso. apply (index_correct3 0 (String.length pre) a s Hi Hne); [lia|].
  rewrite Hs. apply substring_at.
Qed.

(** ** The path resolver composes *)

(** X8. Resolving a path made of two non-empty paths joined by a dot is
    resolving the first, then the second in what the first gives. *)
Theorem getNestedValue_composes (obj : value) (p q : string) :
  p <> EmptyString -> q <> EmptyString ->
  getNestedValue obj (p ++ "." ++ q)
  = (v <- getNestedValue obj p ;; getNestedValue v q).
Proof.
  intros Hp Hq. change (p ++ "." ++ q) with (p ++ String "." q).
  unfold getNestedValue.
  destruct p as [|c p']; [contradiction|]. destruct q as [|d q']; [contradiction|].
  change (String c p' ++ String "." (String d q'))
    with (String c (p' ++ String "." (String d q'))).
  cbv iota beta.
  change (String c (p' ++ String "." (String d q')))
    with (String c p' ++ String "." (String d q')).
  rewrite split_app, walkPath_app. reflexivity.
Qed.

(** ** Orders on strings *)

Lemma compare_not_Gt_trans (a b c : string) :
  String.compare a b <> Gt -> String.compare b c <> Gt -> String.compare a c <> Gt.
Proof.
  intros Hab Hbc.
  destruct (String.compare a b) eqn:H1; [| |congruence].
  - apply String.compare_eq_iff in H1. subst b. exact Hbc.
  - destruct (String.compare b c) eqn:H2; [| |congruence].
    + apply String.compare_eq_iff in H2. subst c. rewrite H1. discriminate.
    + apply OrderedTypeEx.String_as_OT.cmp_lt in H1.
      apply OrderedTypeEx.String_as_OT.cmp_lt in H2.
      pose proof (OrderedTypeEx.String_as_OT.lt_trans _ _ _ H1 H2) as H3.
      apply OrderedTypeEx.String_as_OT.cmp_lt in H3.
      unfold OrderedTypeEx.String_as_OT.cmp in H3. rewrite H3. discriminate.
Qed.

Lemma compare_Gt_flip (a b : string) :
  String.compare a b = Gt -> String.compare b a <> Gt.
Proof.
  intros H. rewrite String.compare_antisym, H. cbn [CompOpp]. discriminate.
Qed.

Lemma StronglySorted_app {A : Type} (R : A -> A -> Prop) (l1 l2 : list A) :
  Sorted.StronglySorted R l1 -> Sorted.StronglySorted R l2 ->
  (forall a b, In a l1 -> In b l2 -> R a b) ->
  Sorted.StronglySorted R (l1 ++ l2)%list.
Proof.
  intros H1 H2 H. induction H1 as [|a l Hl IH Ha]; cbn [app]; [exact H2|].
  constructor.
  - apply IH. intros x y Hx Hy. apply H; [right; exact Hx | exact Hy].
  - apply Forall_app. split; [exact Ha|].
    apply Forall_forall. intros y Hy. apply H; [left; reflexivity | exact Hy].
Qed.

Lemma StronglySorted_weaken {A : Type} (R R' : A -> A -> Prop) (l : list A) :
  (forall a b, In a l -> In b l -> R a b -> R' a b) ->
  Sorted.StronglySorted R l -> Sorted.StronglySorted R' l.
Proof.
  intros H Hs. induction Hs as [|a l Hl IH Ha]; constructor.
  - apply IH. intros x y Hx Hy. apply H; right; assumption.
  - apply Forall_forall. intros y Hy. apply H; [left; reflexivity | right; exact Hy|].
    apply (proj1 (Forall_forall _ _) Ha). exact Hy.
Qed.

Lemma StronglySorted_all {A : Type} (R : A -> A -> Prop) (l : list A) :
  (forall a b, In b l -> R a b) -> Sorted.StronglySorted R l.
Proof.
  intros H. induction l as [|x t IH]; constructor.
  - apply IH. intros a b Hb. apply H. right. exact Hb.
  - apply Forall_forall. intros b Hb. apply H. right. exact Hb.
Qed.

Lemma byString_compare (a b : value) :
  printable a = true -> printable b = true ->
  Sort.byString a b
  = Ok match String.compare (toString a) (toString b) with
       | Lt => (-1)%Z
       | Eq => 0%Z
       | Gt => 1%Z
       end.
Proof. intros Ha Hb. unfold Sort.byString, String_. rewrite Ha, Hb. reflexivity. Qed.

Lemma byString_insert_sorted (x : value) (l : list value) :
  printable x = true ->
  Forall (fun v => printable v = true) l ->
  Sorted.StronglySorted
    (fun a b => String.compare (toString a) (toString b) <> Gt) l ->
  exists r,
    Sort.insertM Sort.byString x l = Ok r
    /\ Permutation (x :: l) r
    /\ Sorted.StronglySorted
         (fun a b => String.compare (toString a) (toString b) <> Gt) r.
Proof.
  intros Hx Hl Hs. revert Hl.
  induction Hs as [|y t Ht IH Hy]; intros Hl; cbn [Sort.insertM].
  - exists [x]. split; [reflexivity|]. split; [apply Permutation_refl|].
    constructor; constructor.
  - inversion Hl as [|y' t' Hpy Hpt]; subst y' t'.
    rewrite (byString_compare x y Hx Hpy). cbn [bind].
    destruct (String.compare (toString x) (toString y)) eqn:Hc; cbn [Z.leb Z.compare].
    + exists (x :: y :: t). split; [reflexivity|]. split; [apply Permutation_refl|].
      constructor; [constructor; assumption|]. constructor; [rewrite Hc; discriminate|].
      apply Forall_forall. intros z Hz.
      apply compare_not_Gt_trans with (toString y); [rewrite Hc; discriminate|].
      apply (proj1 (Forall_forall _ _) Hy). exact Hz.
    + exists (x :: y :: t). split; [reflexivity|]. split; [apply Permutation_refl|].
      constructor; [constructor; assumption|]. constructor; [rewrite Hc; discriminate|].
      apply Forall_forall. intros z Hz.
      apply compare_not_Gt_trans with (toString y); [rewrite Hc; discriminate|].
      apply (proj1 (Forall_forall _ _) Hy). exact Hz.
    + destruct (IH Hpt) as [r [Hr [Hp Hsr]]]. rewrite Hr. cbn [bind].
      exists (y :: r). split; [reflexivity|]. split.
      * apply perm_trans with (y :: x :: t); [apply perm_swap | apply perm_skip; exact Hp].
      * constructor; [exact Hsr|].
        apply (Permutation_Forall Hp). constructor; [|exact Hy].
        apply compare_Gt_flip. exact Hc.
Qed.

Lemma byString_sortM_sorted (l : list value) :
  Forall (fun v => printable v = true) l ->
  exists r,
    Sort.sortM Sort.byString l = Ok r
    /\ Permutation l r
    /\ Sorted.StronglySorted
         (fun a b => String.compare (toString a) (toString b) <> Gt) r.
Proof.
  induction l as [|x t IH]; intros Hl; cbn [Sort.sortM].
  - exists []. split; [reflexivity|]. split; [apply perm_nil | constructor].
  - inversion Hl as [|x' t' Hx Ht]; subst x' t'.
    destruct (IH Ht) as [r [Hr [Hp Hs]]]. rewrite Hr. cbn [bind].
    destruct (byString_insert_sorted x r Hx (Permutation_Forall Hp Ht) Hs)
      as [r' [Hr' [Hp' Hs']]].
    exists r'. split; [exact Hr'|]. split; [|exact Hs'].
    apply perm_trans with (x :: r); [apply perm_skip; exact Hp | exact Hp'].
Qed.

(** The default sort of an array of values that have a string. *)
Lemma default_sort_sorted (l : list value) :
  Forall (fun v => printable v = true) l ->
  exists r,
    Sort.sort Sort.byString l = Ok r
    /\ Permutation l r
    /\ Sorted.StronglySorted defaultOrder r.
Proof.
  intros Hl. unfold Sort.sort.
  destruct (byString_sortM_sorted (filter (fun v => negb (isUndefined v)) l))
    as [r [Hr [Hp Hs]]].
  { apply Forall_forall. intros v Hv. apply filter_In in Hv.
    apply (proj1 (Forall_forall _ _) Hl v (proj1 Hv)). }
  rewrite Hr. cbn [bind]. eexists. split; [reflexivity|]. split.
  - apply perm_trans
      with (filter (fun v => negb (isUndefined v)) l ++ filter isUndefined l)%list.
    + apply filter_split_permutation.
    + apply Permutation_app_tail. exact Hp.
  - assert (Hdef : forall a, In a r -> isUndefined a = false).
    { intros a Ha. apply (Permutation_in _ (Permutation_sym Hp)) in Ha.
      apply filter_In in Ha. destruct Ha as [_ Ha]. apply negb_true_iff. exact Ha. }
    apply StronglySorted_app.
    + apply (StronglySorted_weaken
               (fun a b => String.compare (toString a) (toString b) <> Gt)); [|exact Hs].
      intros a b Ha _ Hab. right. split; [apply Hdef; exact Ha | exact Hab].
    + apply StronglySorted_all. intros a b Hb. left.
      apply filter_In in Hb. apply Hb.
    + intros a b _ Hb. left. apply filter_In in Hb. apply Hb.
Qed.

(** A value with a plain string has a string. *)
Lemma plainText_printable (v : value) : plainText v = true -> printable v = true.
Proof.
  induction v as [| |b|n|s|xs IH|kvs IH] using value_nested_ind;
    cbn [plainText printable]; try reflexivity.
  - intros H. apply forallb_forall. intros x Hx.
    rewrite Forall_forall in IH. apply (IH x Hx).
    apply (proj1 (forallb_forall _ _) H x Hx).
  - intros H. exact H.
Qed.

Lemma prefix_occursIn (p s : string) : prefix p s = true -> occursIn p s.
Proof.
  intros H. apply prefix_correct in H. rewrite <- H. apply substring_occurs.
Qed.

Lemma foldM_defined_In {A S : Type} (f : S -> A -> Exc S) (l : list A) :
  (forall s x, In x l -> exists s', f s x = Ok s') ->
  forall s, exists s', foldM f s l = Ok s'.
Proof.
  induction l as [|x r IH]; intros Hf s; cbn [foldM]; [eexists; reflexivity|].
  destruct (Hf s x (or_introl eq_refl)) as [s' Hs]. rewrite Hs. cbn [bind].
  apply IH. intros s0 y Hy. apply Hf. right. exact Hy.
Qed.

(** ** The query interpreters, stage by stage *)

Section QueryStages.

Variable JSON_parse : string -> Exc value.
Variable RegExp_test : string -> string -> Exc bool.

#[local] Abbreviation jqEval := (executeJq JSON_parse).
#[local] Abbreviation within := (executeJqWithin JSON_parse).

Lemma stage_length (query part : string) :
  In part (map trim (split "|" query)) -> String.length part <= String.length query.
Proof.
  intros Hin. apply in_map_iff in Hin. destruct Hin as [raw [<- Hraw]].
  apply split_length in Hraw. pose proof (trim_length raw). lia.
Qed.

Lemma jq_stages_depth (bound d1 d2 : nat) (parts : list string) :
  (forall part, In part parts -> String.length part <= bound) ->
  bound <= d1 -> bound <= d2 ->
  forall data,
    foldM (jqStage JSON_parse (within d1)) data parts
    = foldM (jqStage JSON_parse (within d2)) data parts.
Proof.
  intros Hparts H1 H2 data. apply foldM_ext. intros s part Hin.
  apply jqStage_ext. intros Hmap item. pose proof (Hparts part Hin) as Hlen.
  assert (Hne : part <> EmptyString)
    by (apply (prefix_nonempty "map("); [discriminate | exact Hmap]).
  pose proof (slice_to_last_length 4 part Hne) as Hslice.
  pose proof (trim_length (slice 4 (-1) part)) as Hinner.
  apply executeJqWithin_irrelevant; lia.
Qed.

(** X9. The pipe composes: a query made of two queries joined by a bar
    gives what the second gives on the result of the first, and fails where
    the first or then the second fails. *)
Theorem jq_pipe_composes (data : value) (q1 q2 : string) :
  jqEval data (q1 ++ "|" ++ q2) = (v <- jqEval data q1 ;; jqEval v q2).
Proof.
  change (q1 ++ "|" ++ q2) with (q1 ++ String "|" q2).
  unfold executeJq. rewrite !executeJqWithin_S.
  rewrite split_app, map_app, foldM_app.
  assert (Hlen : String.length (q1 ++ String "|" q2)
                 = String.length q1 + S (String.length q2))
    by (rewrite length_append; reflexivity).
  rewrite (jq_stages_depth (String.length q1) _ (String.length q1)
             (map trim (split "|" q1))); [|apply stage_length|lia|lia].
  destruct (foldM (jqStage JSON_parse (within (String.length q1))) data
              (map trim (split "|" q1))) as [v|e]; cbn [bind]; [|reflexivity].
  apply (jq_stages_depth (String.length q2)); [apply stage_length|lia|lia].
Qed.

(** A stage that is none of the converting stages returns. *)
Lemma jqStage_total (recur : value -> string -> Exc value) (current : value)
  (part : string) :
  part <> "unique" -> part <> "sort" -> part <> "from_entries" ->
  startsWith "select(" part = false ->
  (startsWith "map(" part = true ->
   forall item, exists v, recur item (trim (slice 4 (-1) part)) = Ok v) ->
  exists v, jqStage JSON_parse recur current part = Ok v.
Proof.
  intros Hu Hs Hf Hsel Hmap. unfold jqStage. rewrite Hsel. cbn [andb].
  repeat match goal with
         | |- exists v, (if ?c then _ else _) = Ok v =>
             destruct c eqn:?; [try (eexists; reflexivity)|]
         end; try (eexists; reflexivity).
  - exfalso. apply Hs. apply String.eqb_eq. assumption.
  - exfalso. apply Hu. apply String.eqb_eq. assumption.
  - match goal with
    | Hc : startsWith "map(" part && _ = true |- _ =>
        apply andb_true_iff in Hc; destruct Hc as [Hc _];
        destruct current; try (eexists; reflexivity);
        destruct (mapM_defined (fun item => recur item (trim (slice 4 (-1) part))) xs)
          as [ys [Hys _]]; [intros x _; apply (Hmap Hc)|];
        rewrite Hys; cbn [bind]; eexists; reflexivity
    end.
  - exfalso. apply Hf. apply String.eqb_eq. assumption.
Qed.

(** What occurs in a query without converting stages has none either. *)
Lemma plainStages_occursIn (sub query : string) :
  occursIn sub query -> plainStages query = true -> plainStages sub = true.
Proof.
  intros Hocc H. unfold plainStages in H |- *. rewrite forallb_forall in H.
  apply forallb_forall. intros w Hw. specialize (H w Hw). apply negb_true_iff in H. apply negb_true_iff.
  destruct (includes w sub) eqn:Hinc; [|reflexivity].
  rewrite (occursIn_includes w query) in H; [discriminate H| |].
  - intros ->. cbn [convertingStages In] in Hw.
    repeat (destruct Hw as [Hw|Hw]; [discriminate Hw|]). exact Hw.
  - apply occursIn_trans with sub; [apply includes_occursIn; exact Hinc | exact Hocc].
Qed.

(** A stage of a query without converting stages is none of them. *)
Lemma plainStages_stage (part : string) (w : string) :
  plainStages part = true -> In w convertingStages -> ~ occursIn w part.
Proof.
  intros H Hw Hocc. unfold plainStages in H. rewrite forallb_forall in H.
  specialize (H w Hw). apply negb_true_iff in H.
  rewrite (occursIn_includes w part) in H; [discriminate H| |exact Hocc].
  intros ->. cbn [convertingStages In] in Hw.
  repeat (destruct Hw as [Hw|Hw]; [discriminate Hw|]). exact Hw.
Qed.

Lemma executeJqWithin_total (d : nat) :
  forall data query,
    String.length query < d ->
    plainStages query = true ->
    exists v, within d data query = Ok v.
Proof.
  induction d as [|d IH]; intros data query Hd Hplain; [lia|].
  rewrite executeJqWithin_S. apply foldM_defined_In. intros s part Hin.
  assert (Hocc : occursIn part query).
  { apply in_map_iff in Hin. destruct Hin as [raw [<- Hraw]].
    apply occursIn_trans with raw; [apply trim_occurs | apply (split_occurs "|"); exact Hraw]. }
  pose proof (plainStages_occursIn part query Hocc Hplain) as Hpart.
  apply jqStage_total.
  - intros ->. apply (plainStages_stage "unique" "unique" Hpart);
      [left; reflexivity | apply occursIn_refl].
  - intros ->. apply (plainStages_stage "sort" "sort" Hpart);
      [right; left; reflexivity | apply occursIn_refl].
  - intros ->. apply (plainStages_stage "from_entries" "from_entries" Hpart);
      [right; right; right; left; reflexivity | apply occursIn_refl].
  - destruct (startsWith "select(" part) eqn:Hsel; [|reflexivity].
    exfalso. apply (plainStages_stage part "select" Hpart);
      [right; right; left; reflexivity|].
    apply occursIn_trans with "select("; [apply (occursIn_prefix "select" "(")|].
    apply prefix_occursIn. exact Hsel.
  - intros Hmap item. pose proof (stage_length query part Hin) as Hlen.
    assert (Hne : part <> EmptyString)
      by (apply (prefix_nonempty "map("); [discriminate | exact Hmap]).
    pose proof (slice_to_last_length 4 part Hne) as Hslice.
    pose proof (trim_length (slice 4 (-1) part)) as Hinner.
    apply IH; [lia|].
    apply (plainStages_occursIn _ part); [|exact Hpart].
    apply occursIn_trans with (slice 4 (-1) part); [apply trim_occurs | apply slice_occurs].
Qed.

(** X10. A jq query in which the name of no converting stage occurs
    ([unique], [sort], [select], [from_entries]) never fails, whatever the
    data: the other stages convert nothing and parse nothing. *)
Theorem jq_plain_stages_never_fail (data : value) (query : string) :
  plainStages query = true -> exists v, jqEval data query = Ok v.
Proof.
  intros Hplain. unfold executeJq.
  assert (Hgen : forall d, String.length query < d ->
                           exists v, within d data query = Ok v).
  { intros d Hd. apply executeJqWithin_total; [exact Hd | exact Hplain]. }
  apply Hgen. lia.
Qed.

Lemma jqStage_sort (recur : value -> string -> Exc value) (current : value) :
  jqStage JSON_parse recur current "sort"
  = match current with
    | JArr xs => ys <- Sort.sort Sort.byString xs ;; Ok (JArr ys)
    | _ => Ok current
    end.
Proof. reflexivity. Qed.

(** X11. On an array of values that have a plain string (no object with
    a [toString] field of its own, numbers below [2^53] in absolute value,
    which JavaScript holds exactly), the [sort]
    stage returns a permutation of the array in the order of the default
    JavaScript sort: by the strings of the elements, character code by
    character code, and not by their numeric value; [undefined] elements
    come last. *)
Theorem jq_sort_orders_by_string (xs : list value) :
  Forall (fun x => plainText x = true) xs ->
  exists ys,
    jqEval (JArr xs) "sort" = Ok (JArr ys)
    /\ Permutation xs ys
    /\ Sorted.StronglySorted defaultOrder ys.
Proof.
  intros Hplain. unfold executeJq. rewrite executeJqWithin_S.
  generalize (within (String.length "sort")). intros recur.
  change (map trim (split "|" "sort")) with ["sort"].
  cbn [foldM]. rewrite jqStage_sort.
  destruct (default_sort_sorted xs) as [r [Hr [Hp Hs]]].
  { apply Forall_impl with (2 := Hplain). intros x. apply plainText_printable. }
  rewrite Hr. cbn [bind]. exists r. split; [reflexivity|]. split; assumption.
Qed.

Lemma jqStage_to_entries (recur : value -> string -> Exc value) (current : value) :
  jqStage JSON_parse recur current "to_entries"
  = Ok match current with
       | JObj kvs =>
           JArr (map (fun kv => JObj [("key", JStr (fst kv)); ("value", snd kv)]) kvs)
       | _ => current
       end.
Proof. reflexivity. Qed.

Lemma jqStage_from_entries (recur : value -> string -> Exc value) (current : value) :
  jqStage JSON_parse recur current "from_entries"
  = match current with
    | JArr xs =>
        r <- foldM (fun r item =>
                      if isObjectLike item && hasProperty item "key"
                         && hasProperty item "value"
                      then k <- String_ (field item "key") ;;
                           Ok (obj_set r k (field item "value"))
                      else Ok r)
                   [] xs ;;
        Ok (JObj r)
    | _ => Ok current
    end.
Proof. reflexivity. Qed.

Lemma from_entries_of_to_entries (kvs : list (string * value)) :
  forall r0,
    foldM
      (fun r item =>
         if isObjectLike item && hasProperty item "key" && hasProperty item "value"
         then k <- String_ (field item "key") ;; Ok (obj_set r k (field item "value"))
         else Ok r)
      r0 (map (fun kv => JObj [("key", JStr (fst kv)); ("value", snd kv)]) kvs)
    = Ok (fold_left (fun r kv => if false then r else obj_set r (fst kv) (snd kv)) kvs r0).
Proof.
  induction kvs as [|[k v] t IH]; intros r0; cbn [map fold_left]; [reflexivity|].
  rewrite <- IH. reflexivity.
Qed.

(** X12. Entries round trip: on an object that has no field named
    [__proto__], [to_entries | from_entries] gives an object in which every
    field reads as in the input. *)
Theorem jq_entries_round_trip (kvs : list (string * value)) :
  NoDup (map fst kvs) ->
  ~ In "__proto__" (map fst kvs) ->
  exists r,
    jqEval (JObj kvs) "to_entries | from_entries" = Ok (JObj r)
    /\ forall k, assoc k r = assoc k kvs.
Proof.
  intros Hnd Hproto. unfold executeJq. rewrite executeJqWithin_S.
  generalize (within (String.length "to_entries | from_entries")). intros recur.
  change (map trim (split "|" "to_entries | from_entries"))
    with ["to_entries"; "from_entries"].
  cbn [foldM]. rewrite jqStage_to_entries. cbn [bind].
  rewrite jqStage_from_entries, from_entries_of_to_entries. cbn [bind].
  eexists. split; [reflexivity|]. intros k.
  rewrite (rebuild_assoc (fun _ => false) kvs Hnd Hproto [] k).
  cbn [assoc]. destruct (assoc k kvs); reflexivity.
Qed.

(** *** JSONata paths *)

Lemma resolveParts_wildcard (pre rest : list string) :
  forall current,
    resolveParts current (pre ++ "*" :: rest)%list
    = resolveParts current (pre ++ ["*"])%list.
Proof.
  induction pre as [|part t IH]; intros current; cbn [app resolveParts].
  - reflexivity.
  - destruct (String.eqb part "*"); [reflexivity|].
    destruct (filterMatch part) as [[key flt]|].
    + match goal with
      | |- bind ?m _ = _ => destruct m as [c2|e]; cbn [bind]; [apply IH | reflexivity]
      end.
    + destruct current; try reflexivity; apply IH.
Qed.

(** X13. A wildcard ends a JSONata path: what is written after [*] is
    not looked at. *)
Theorem jsonata_wildcard_ends_the_path (data : value) (pre rest : string) :
  resolveJsonataPath data (pre ++ ".*." ++ rest)
  = resolveJsonataPath data (pre ++ ".*").
Proof.
  unfold resolveJsonataPath.
  change (pre ++ ".*." ++ rest) with (pre ++ String "." ("*" ++ String "." rest)).
  change (pre ++ ".*") with (pre ++ String "." "*").
  rewrite !split_app, !filter_app.
  change (filter nonEmpty (split "." "*")) with ["*"].
  apply resolveParts_wildcard.
Qed.

(** *** The Mongo matcher *)

Lemma not_logical (key : string) :
  ~ In key logicalOperators ->
  String.eqb key "$and" = false /\ String.eqb key "$or" = false
  /\ String.eqb key "$not" = false.
Proof.
  intros H. repeat split; apply String.eqb_neq; intros ->; apply H; cbn; tauto.
Qed.

Lemma digits_without_digit (s : string) :
  all (fun c => negb (isDigit c)) s = true -> digits 10 s = None.
Proof.
  destruct s as [|c r]; [reflexivity|]. cbn [all]. intros H.
  apply andb_true_iff in H. destruct H as [Hc _]. apply negb_true_iff in Hc.
  unfold digits. cbn [digitsFrom]. unfold digitValue. rewrite Hc.
  destruct (between 97 102 c) eqn:Hlow.
  - unfold between in Hlow. apply andb_true_iff in Hlow. destruct Hlow as [Hlo _].
    apply Nat.leb_le in Hlo.
    destruct (Z.ltb_spec (Z.of_nat (code c - 87)) 10) as [Hlt|_]; [lia | reflexivity].
  - destruct (between 65 70 c) eqn:Hup; [|reflexivity].
    unfold between in Hup. apply andb_true_iff in Hup. destruct Hup as [Hlo _].
    apply Nat.leb_le in Hlo.
    destruct (Z.ltb_spec (Z.of_nat (code c - 55)) 10) as [Hlt|_]; [lia | reflexivity].
Qed.

(** A text that is no numeral is read as [NaN]. *)
Lemma stringToNumber_noNumeral (s : string) :
  noNumeral s = true -> stringToNumber s = NaN.
Proof.
  unfold noNumeral, stringToNumber. generalize (trim s). intros t. cbv zeta.
  destruct t as [|c r]; [discriminate|]. cbn [nonEmpty all andb].
  intros H. apply andb_true_iff in H. destruct H as [H _].
  pose proof (digits_without_digit (String c r) H) as Hall.
  apply andb_true_iff in H. destruct H as [Hc Hr].
  pose proof (digits_without_digit r Hr) as Hrest.
  apply negb_true_iff in Hc.
  destruct c as [[] [] [] [] [] [] [] []];
    try (vm_compute in Hc; discriminate Hc);
    lazy beta iota; try (rewrite Hall; reflexivity);
    rewrite Hrest; reflexivity.
Qed.

Lemma toNumber_notNumeric (v : value) :
  notNumeric v = true -> toNumber v = NaN.
Proof.
  destruct v as [| |b|[|z]|s|xs|kvs]; cbn [notNumeric toNumber];
    try discriminate; try reflexivity.
  apply stringToNumber_noNumeral.
Qed.

(** X14. A range condition does not reject what is not a number: when the
    field, read in the document itself, and the bound both convert, and one
    of them has no numeric value ([undefined] for a missing field, a text
    that is no numeral, an object), the document satisfies [$gt], [$gte],
    [$lt] and [$lte] alike. *)
Theorem mongo_range_condition_accepts_non_numbers
  (item opVal : value) (key op : string) :
  isObjectLike item = true ->
  ~ In key logicalOperators ->
  In op rangeOperators ->
  ownRead item key = true ->
  printable (field item key) = true ->
  printable opVal = true ->
  notNumeric (field item key) = true \/ notNumeric opVal = true ->
  matchesMongo RegExp_test item (JObj [(key, JObj [(op, opVal)])]) = Ok true.
Proof.
  intros Hobj Hkey Hop _ Hfield HopVal Hnan.
  destruct (not_logical key Hkey) as [H1 [H2 H3]].
  assert (Hcmp : mongoOp RegExp_test (field item key) op opVal = Ok true).
  { assert (Hnum : toNumber (field item key) = NaN \/ toNumber opVal = NaN)
      by (destruct Hnan as [Hn|Hn]; [left | right]; apply toNumber_notNumeric; exact Hn).
    clear Hnan. unfold mongoOp, Number_. rewrite Hfield, HopVal. clear Hfield HopVal.
    generalize dependent (toNumber (field item key)).
    generalize (toNumber opVal). intros m n Hnan.
    cbn [rangeOperators In] in Hop.
    destruct Hop as [<-|[<-|[<-|[<-|[]]]]]; cbn;
      destruct n, m; destruct Hnan as [Hn|Hn]; try discriminate Hn; reflexivity. }
  destruct item; try discriminate Hobj;
    cbn [matchesMongo isObjectLike negb]; rewrite H1, H2, H3;
    unfold mongoField; cbn [everyM fst snd]; rewrite Hcmp; reflexivity.
Qed.

Lemma matchesMongo_logical_first (item c : value) (key : string)
  (rest : list (string * value)) :
  In key logicalOperators ->
  matchesMongo RegExp_test item (JObj ((key, c) :: rest))
  = matchesMongo RegExp_test item (JObj [(key, c)]).
Proof.
  intros Hk. cbn [logicalOperators In] in Hk.
  destruct Hk as [<-|[<-|[<-|[]]]]; cbn [matchesMongo]; reflexivity.
Qed.

(** X15. A logical operator ends the scan of a query document: the
    entries that follow [$and], [$or] or [$not] in the order in which the
    document is enumerated (its array-index keys first, then the other keys
    as written) are not looked at. *)
Theorem mongo_logical_operator_ends_the_scan
  (item c : value) (key : string) (pre rest : list (string * value)) :
  In key logicalOperators ->
  objectKeys (map fst (pre ++ (key, c) :: rest)%list) = true ->
  matchesMongo RegExp_test item (JObj (pre ++ (key, c) :: rest)%list)
  = matchesMongo RegExp_test item (JObj (pre ++ [(key, c)])%list).
Proof.
  intros Hk _. destruct (isObjectLike item) eqn:Hobj;
    [|rewrite !matchesMongo_scalar by exact Hobj; reflexivity].
  induction pre as [|[k0 c0] t IH].
  - apply matchesMongo_logical_first. exact Hk.
  - destruct item; try discriminate Hobj;
      cbn [matchesMongo isObjectLike negb app] in *;
      (destruct (String.eqb k0 "$and"); [reflexivity|];
       destruct (String.eqb k0 "$or"); [reflexivity|];
       destruct (String.eqb k0 "$not"); [reflexivity|];
       destruct (mongoField RegExp_test _ k0 c0) as [[|]|e]; cbn [bind];
       [exact IH | reflexivity | reflexivity]).
Qed.

(** X16. A Mongo scan of an array returns elements of the array, and
    never one that is a scalar or [null]: such an element matches no
    query. *)
Theorem mongo_scan_returns_documents_of_the_input
  (xs : list value) (queryStr : string) (out : value) :
  executeMongodb JSON_parse RegExp_test (JArr xs) queryStr = Ok out ->
  exists ys,
    out = JArr ys /\ incl ys xs /\ Forall (fun y => isObjectLike y = true) ys.
Proof.
  unfold executeMongodb, mongoFind.
  destruct (JSON_parse queryStr) as [query|e]; cbn [bind]; [|discriminate].
  destruct (filterM (fun item => matchesMongo RegExp_test item query) xs)
    as [ys|e] eqn:Hf; cbn [bind]; [|discriminate].
  intros H. injection H as <-. exists ys. split; [reflexivity|].
  pose proof (filterM_In _ xs ys Hf) as Hin. split.
  - intros y Hy. apply (Hin y Hy).
  - apply Forall_forall. intros y Hy. destruct (Hin y Hy) as [_ Hm].
    destruct (isObjectLike y) eqn:Hobj; [reflexivity|].
    rewrite (matchesMongo_scalar RegExp_test y query Hobj) in Hm. discriminate Hm.
Qed.

End QueryStages.

(** *** Closed instances for the resolver and the interpreters *)

Lemma getNestedValue_composes_witness :
  getNestedValue (JObj [("a", JObj [("b", JArr [num 1; num 2])])]) ("a" ++ "." ++ "b[1]")
  = (v <- getNestedValue (JObj [("a", JObj [("b", JArr [num 1; num 2])])]) "a" ;;
     getNestedValue v "b[1]").
Proof. apply getNestedValue_composes; discriminate. Defined.

Lemma jq_plain_stages_never_fail_witness :
  exists v,
    executeJq Host.JSON_parse
      (JArr [JObj [("a", JArr [num 2; num 3])]; JObj [("a", JArr [num 1])]; num 7])
      "map(.a) | flatten | reverse | first"
    = Ok v.
Proof.
  apply (jq_plain_stages_never_fail Host.JSON_parse). vm_compute. reflexivity.
Defined.

Lemma jq_sort_orders_by_string_witness :
  exists ys,
    executeJq Host.JSON_parse (JArr [num 10; num 9; JStr "b"; JNull; num 100]) "sort"
    = Ok (JArr ys)
    /\ Permutation [num 10; num 9; JStr "b"; JNull; num 100] ys
    /\ Sorted.StronglySorted defaultOrder ys.
Proof.
  apply (jq_sort_orders_by_string Host.JSON_parse
           [num 10; num 9; JStr "b"; JNull; num 100]).
  repeat constructor.
Defined.

Lemma jq_entries_round_trip_witness :
  exists r,
    executeJq Host.JSON_parse (JObj [("b", num 1); ("a", JStr "x")])
      "to_entries | from_entries"
    = Ok (JObj r)
    /\ forall k, assoc k r = assoc k [("b", num 1); ("a", JStr "x")].
Proof.
  apply (jq_entries_round_trip Host.JSON_parse [("b", num 1); ("a", JStr "x")]).
  - cbn [map fst]. repeat constructor; cbn [In]; intros H;
      repeat (destruct H as [H|H]; [discriminate H|]); exact H.
  - cbn [map fst In]. intros H.
    repeat (destruct H as [H|H]; [discriminate H|]). exact H.
Defined.

Lemma mongo_range_condition_accepts_non_numbers_witness :
  matchesMongo Host.RegExp_test (JObj [("name", JStr "x")])
    (JObj [("age", JObj [("$gt", num 18)])])
  = Ok true
  /\ matchesMongo Host.RegExp_test (JObj [("age", num 10)])
       (JObj [("age", JObj [("$lt", JStr "ten")])])
     = Ok true.
Proof.
  split.
  - apply (mongo_range_condition_accepts_non_numbers Host.RegExp_test
             (JObj [("name", JStr "x")]) (num 18) "age" "$gt").
    + reflexivity.
    + cbn [logicalOperators In]. intros H.
      repeat (destruct H as [H|H]; [discriminate H|]). exact H.
    + cbn [rangeOperators In]. left. reflexivity.
    + reflexivity.
    + reflexivity.
    + reflexivity.
    + left. reflexivity.
  - apply (mongo_range_condition_accepts_non_numbers Host.RegExp_test
             (JObj [("age", num 10)]) (JStr "ten") "age" "$lt").
    + reflexivity.
    + cbn [logicalOperators In]. intros H.
      repeat (destruct H as [H|H]; [discriminate H|]). exact H.
    + cbn [rangeOperators In]. right. right. left. reflexivity.
    + reflexivity.
    + reflexivity.
    + reflexivity.
    + right. reflexivity.
Defined.

Lemma mongo_logical_operator_ends_the_scan_witness :
  matchesMongo Host.RegExp_test (JObj [("age", num 30)])
    (JObj ([("age", num 30)]
           ++ ("$or", JArr [JObj [("age", num 30)]]) :: [("name", JStr "x")])%list)
  = matchesMongo Host.RegExp_test (JObj [("age", num 30)])
      (JObj ([("age", num 30)] ++ [("$or", JArr [JObj [("age", num 30)]])])%list).
Proof.
  apply (mongo_logical_operator_ends_the_scan Host.RegExp_test).
  - cbn [logicalOperators In]. right. left. reflexivity.
  - reflexivity.
Defined.

Lemma mongo_scan_returns_documents_of_the_input_witness :
  exists ys,
    JArr [JObj [("age", num 30)]] = JArr ys
    /\ incl ys [num 40; JObj [("age", num 17)]; JObj [("age", num 30)]]
    /\ Forall (fun y => isObjectLike y = true) ys.
Proof.
  apply (mongo_scan_returns_documents_of_the_input Host.JSON_parse Host.RegExp_test
           [num 40; JObj [("age", num 17)]; JObj [("age", num 30)]]
           (Host.text "{'age':{'$gt':18}}")).
  vm_compute. reflexivity.
Defined.

(** ** Patches *)

Lemma flat_map_nil {A B : Type} (f : A -> list B) (l : list A) :
  flat_map f l = [] <-> forall x, In x l -> f x = [].
Proof.
  induction l as [|x t IH]; cbn [flat_map].
  - split; [intros _ x [] | reflexivity].
  - split.
    + intros H. apply app_eq_nil in H. destruct H as [Hx Ht].
      intros y [<-|Hy]; [exact Hx | apply (proj1 IH Ht y Hy)].
    + intros H. rewrite (H x (or_introl eq_refl)). cbn [app].
      apply IH. intros y Hy. apply H. right. exact Hy.
Qed.

Lemma hasKey_In (k : string) (kvs : list (string * value)) :
  hasKey k kvs = true <-> In k (map fst kvs).
Proof.
  unfold hasKey. induction kvs as [|[k' v] t IH]; cbn [assoc map fst In].
  - split; [discriminate | intros []].
  - destruct (String.eqb_spec k k') as [->|Hne].
    + split; [left; reflexivity | reflexivity].
    + rewrite IH. split; [right; assumption | intros [Heq|Hin]; [congruence | exact Hin]].
Qed.

Lemma patchMember_assoc (recur : value -> value -> string -> list DiffPatchOp)
  (p key : string) (rightVal : value) (leftObj : list (string * value)) :
  patchMember recur p key rightVal leftObj
  = match assoc key leftObj with
    | Some leftVal => recur leftVal rightVal (p ++ "/" ++ escapeKey key)
    | None => [mkPatchOp add (p ++ "/" ++ escapeKey key) (Some rightVal) None]
    end.
Proof.
  induction leftObj as [|[k v] t IH]; cbn [patchMember assoc]; [reflexivity|].
  destruct (String.eqb key k); [reflexivity | exact IH].
Qed.

Lemma generatePatch_eq (left right : value) (p : string) :
  generatePatch left right p
  = if strictEq left right then []
    else if isUndefined left && negb (isUndefined right) then
      [mkPatchOp add (pathOrRoot p) (Some right) None]
    else if isUndefined right && negb (isUndefined left) then
      [mkPatchOp remove (pathOrRoot p) None None]
    else if negb (String.eqb (typeOf left) (typeOf right))
            || negb (Bool.eqb (isArray left) (isArray right))
            || negb (Bool.eqb (isNull left) (isNull right)) then
      [mkPatchOp replace (pathOrRoot p) (Some right) None]
    else
      match left, right with
      | JArr xs, JArr ys => patchElements generatePatch p xs ys 0
      | JObj leftObj, JObj rightObj =>
          (flat_map (fun key =>
                       patchMember generatePatch p key (orUndef (assoc key rightObj))
                         leftObj)
                    (map fst rightObj)
           ++ flat_map (fun key =>
                          if hasKey key rightObj then []
                          else [mkPatchOp remove (p ++ "/" ++ escapeKey key)%string
                                  None None])
                       (map fst leftObj))%list
      | _, _ => [mkPatchOp replace (pathOrRoot p) (Some right) None]
      end.
Proof. destruct left; reflexivity. Qed.

Lemma generatePatch_scalar (left right : value) (p : string) :
  isObjectLike left = false ->
  (generatePatch left right p = [] <-> strictEq left right = true).
Proof.
  intros Hl. rewrite generatePatch_eq.
  destruct (strictEq left right) eqn:He; [split; reflexivity|].
  split; [|discriminate]. intros H. exfalso.
  destruct left; try discriminate Hl; destruct right; cbn in H, He;
    try discriminate H; try discriminate He.
Qed.

Lemma SameData_scalar (left right : value) :
  isObjectLike left = false -> SameData left right -> strictEq left right = true.
Proof.
  intros Hl Hs. inversion Hs; subst; try discriminate Hl. assumption.
Qed.

Lemma patchElements_nil (recur : value -> value -> string -> list DiffPatchOp)
  (p : string) (xs : list value) :
  Forall (fun x => forall r q, recur x r q = [] <-> SameData x r) xs ->
  forall ys i, patchElements recur p xs ys i = [] <-> Forall2 SameData xs ys.
Proof.
  intros H. induction H as [|x xr Hx Hxr IH]; intros ys i;
    destruct ys as [|y yr]; cbn [patchElements addsFrom].
  - split; [constructor | reflexivity].
  - split; [discriminate | intros HF; inversion HF].
  - split; [discriminate | intros HF; inversion HF].
  - split.
    + intros Happ. apply app_eq_nil in Happ. destruct Happ as [H1 H2].
      constructor; [apply (proj1 (Hx y _) H1) | apply (proj1 (IH yr _) H2)].
    + intros HF. inversion HF as [|? ? ? ? Hxy Hrest]; subst.
      rewrite (proj2 (Hx y _) Hxy), (proj2 (IH yr _) Hrest). reflexivity.
Qed.

Lemma patchObject_nil (recur : value -> value -> string -> list DiffPatchOp)
  (p : string) (lk rk : list (string * value)) :
  Forall (fun kv => forall r q, recur (snd kv) r q = [] <-> SameData (snd kv) r) lk ->
  ((flat_map (fun key => patchMember recur p key (orUndef (assoc key rk)) lk)
      (map fst rk)
    ++ flat_map (fun key =>
                   if hasKey key rk then []
                   else [mkPatchOp remove (p ++ "/" ++ escapeKey key)%string None None])
         (map fst lk))%list = []
   <-> SameData (JObj lk) (JObj rk)).
Proof.
  intros HF. rewrite Forall_forall in HF. split.
  - intros Happ. apply app_eq_nil in Happ. destruct Happ as [H1 H2].
    assert (Hright : forall k, hasKey k rk = true ->
                       exists lv, assoc k lk = Some lv
                                  /\ recur lv (orUndef (assoc k rk))
                                       (p ++ "/" ++ escapeKey k) = []).
    { intros k Hk. apply hasKey_In in Hk.
      pose proof (proj1 (flat_map_nil _ _) H1 k Hk) as Hm. cbv beta in Hm.
      rewrite patchMember_assoc in Hm.
      destruct (assoc k lk) as [lv|]; [|discriminate Hm].
      exists lv. split; [reflexivity | exact Hm]. }
    assert (Hleft : forall k, hasKey k lk = true -> hasKey k rk = true).
    { intros k Hk. apply hasKey_In in Hk.
      pose proof (proj1 (flat_map_nil _ _) H2 k Hk) as Hm. cbv beta in Hm.
      destruct (hasKey k rk); [reflexivity | discriminate Hm]. }
    apply same_object.
    + intros k. destruct (hasKey k rk) eqn:Hr.
      * destruct (Hright k Hr) as [lv [Hlv _]]. unfold hasKey. rewrite Hlv. reflexivity.
      * destruct (hasKey k lk) eqn:Hl; [|reflexivity].
        rewrite (Hleft k Hl) in Hr. discriminate Hr.
    + intros k v w Hv Hw. destruct (Hright k) as [lv [Hlv Hrec]].
      { unfold hasKey. rewrite Hw. reflexivity. }
      rewrite Hv in Hlv. injection Hlv as <-. rewrite Hw in Hrec. cbn [orUndef] in Hrec.
      apply assoc_In in Hv. apply (proj1 (HF (k, v) Hv w _) Hrec).
  - intros Hs. inversion Hs as [a b Hprim| |lk' rk' Hkeys Hvals]; subst;
      [cbn in Hprim; discriminate Hprim|].
    assert (H1 : flat_map (fun key => patchMember recur p key (orUndef (assoc key rk)) lk)
                   (map fst rk) = []).
    { apply flat_map_nil. intros k Hk. rewrite patchMember_assoc.
      apply hasKey_In in Hk. pose proof Hk as Hk'. rewrite <- Hkeys in Hk'.
      unfold hasKey in Hk, Hk'.
      destruct (assoc k lk) as [v|] eqn:Hv; [|discriminate Hk'].
      destruct (assoc k rk) as [w|] eqn:Hw; [|discriminate Hk].
      cbn [orUndef]. apply assoc_In in Hv as Hin.
      apply (proj2 (HF (k, v) Hin w _)). apply (Hvals k v w Hv Hw). }
    rewrite H1. cbn [app]. apply flat_map_nil. intros k Hk.
    apply hasKey_In in Hk. rewrite Hkeys in Hk. rewrite Hk. reflexivity.
Qed.

(** X17. For two documents in which no field is named like a member of
    [Object.prototype], the patch is empty exactly when they hold the same
    data: identical primitives, arrays equal position by position, objects
    with the same keys and the same data under each key, whatever the
    order of the keys. *)
Theorem patch_is_empty_iff_same_data (left right : value) (p : string) :
  ordinary left = true -> ordinary right = true ->
  (generatePatch left right p = [] <-> SameData left right).
Proof.
  intros _ _. revert right p.
  induction left as [| |b|n|s|xs IH|lk IH] using value_nested_ind; intros right p;
    try (rewrite generatePatch_scalar by reflexivity;
         split; [apply same_primitive | apply SameData_scalar; reflexivity]).
  - destruct right as [| |b|n|s|ys|rk];
      try (split; [rewrite generatePatch_eq; cbn; discriminate
                  | intros Hs; inversion Hs as [a c Hprim| |]; subst;
                    cbn in Hprim; discriminate Hprim]).
    rewrite generatePatch_eq. cbn -[patchElements generatePatch].
    rewrite (patchElements_nil generatePatch p xs IH). split.
    + apply same_array.
    + intros Hs. inversion Hs as [a c Hprim| |]; subst;
        [cbn in Hprim; discriminate Hprim | assumption].
  - destruct right as [| |b|n|s|ys|rk];
      try (split; [rewrite generatePatch_eq; cbn; discriminate
                  | intros Hs; inversion Hs as [a c Hprim| |]; subst;
                    cbn in Hprim; discriminate Hprim]).
    rewrite generatePatch_eq. cbn -[patchMember generatePatch flat_map hasKey assoc].
    apply patchObject_nil. exact IH.
Qed.

Lemma prefix_slash (r : string) : prefix "/" (String "/" r) = true.
Proof.
  cbn [prefix]. destruct (ascii_dec "/" "/") as [_|Hne]; [|congruence].
  destruct r; reflexivity.
Qed.

Lemma pathOrRoot_rooted (p : string) :
  p = EmptyString \/ startsWith "/" p = true -> startsWith "/" (pathOrRoot p) = true.
Proof.
  intros [->|H]; [apply prefix_slash|]. unfold pathOrRoot.
  destruct p; [discriminate H | exact H].
Qed.

Lemma child_rooted (p x : string) :
  p = EmptyString \/ startsWith "/" p = true -> startsWith "/" (p ++ "/" ++ x) = true.
Proof.
  unfold startsWith. intros [->|H]; [apply prefix_slash|].
  destruct p as [|c r]; [discriminate H|].
  cbn [prefix String.append] in *.
  destruct (ascii_dec "/" c); [|discriminate H]. destruct (r ++ _); reflexivity.
Qed.

Lemma Forall_flat_map {A B : Type} (P : B -> Prop) (f : A -> list B) (l : list A) :
  (forall x, In x l -> Forall P (f x)) -> Forall P (flat_map f l).
Proof.
  induction l as [|x t IH]; intros H; cbn [flat_map]; [constructor|].
  apply Forall_app. split; [apply H; left; reflexivity|].
  apply IH. intros y Hy. apply H. right. exact Hy.
Qed.

Lemma addsFrom_plain (p : string) (ys : list value) :
  p = EmptyString \/ startsWith "/" p = true ->
  forall i, Forall plainOp (addsFrom p ys i).
Proof.
  intros Hp. induction ys as [|y yr IH]; intros i; cbn [addsFrom]; constructor;
    [|apply IH].
  unfold plainOp. cbn [path from op value_].
  split; [apply child_rooted; exact Hp|]. split; [reflexivity | discriminate].
Qed.

Lemma patchElements_plain (recur : value -> value -> string -> list DiffPatchOp)
  (p : string) (xs : list value) :
  p = EmptyString \/ startsWith "/" p = true ->
  Forall (fun x => forall r q, q = EmptyString \/ startsWith "/" q = true ->
                               Forall plainOp (recur x r q)) xs ->
  forall ys i, Forall plainOp (patchElements recur p xs ys i).
Proof.
  intros Hp H. induction H as [|x xr Hx Hxr IH]; intros ys i;
    destruct ys as [|y yr]; cbn [patchElements].
  - constructor.
  - apply addsFrom_plain. exact Hp.
  - constructor; [|apply IH]. unfold plainOp. cbn [path from op value_].
    split; [apply child_rooted; exact Hp|]. split; reflexivity.
  - apply Forall_app. split; [|apply IH].
    apply Hx. right. apply child_rooted. exact Hp.
Qed.

(** X18. A patch computed from the root holds plain operations only:
    each is an [add] or a [replace] with a value or a [remove] without
    one, none has a [from], and every pointer starts with a slash (the
    root itself is written [/]).  No [move], [copy] or [test] is ever
    produced. *)
Theorem patch_holds_plain_operations (left right : value) :
  Forall plainOp (generatePatch left right EmptyString).
Proof.
  enough (Hgen : forall right p,
             p = EmptyString \/ startsWith "/" p = true ->
             Forall plainOp (generatePatch left right p))
    by (apply Hgen; left; reflexivity).
  clear right.
  assert (Hone : forall name p v,
             p = EmptyString \/ startsWith "/" p = true ->
             match name with
             | add | replace => v <> None
             | remove => v = None
             | _ => False
             end ->
             Forall plainOp [mkPatchOp name (pathOrRoot p) v None]).
  { intros name p v Hp Hv. constructor; [|constructor]. unfold plainOp.
    cbn [path from op value_]. split; [apply pathOrRoot_rooted; exact Hp|].
    split; [reflexivity | exact Hv]. }
  induction left as [| |b|n|s|xs IH|lk IH] using value_nested_ind; intros right p Hp;
    rewrite generatePatch_eq;
    (destruct (strictEq _ right); [constructor|]);
    (destruct (isUndefined _ && negb (isUndefined right));
     [apply Hone; [exact Hp | discriminate]|]);
    (destruct (isUndefined right && negb (isUndefined _));
     [apply Hone; [exact Hp | reflexivity]|]);
    (destruct (negb (String.eqb (typeOf _) (typeOf right))
               || negb (Bool.eqb (isArray _) (isArray right))
               || negb (Bool.eqb (isNull _) (isNull right)));
     [apply Hone; [exact Hp | discriminate]|]);
    try (apply Hone; [exact Hp | discriminate]);
    destruct right; try (apply Hone; [exact Hp | discriminate]).
  - apply patchElements_plain; assumption.
  - rewrite Forall_forall in IH. apply Forall_app. split.
    + apply Forall_flat_map. intros k _. rewrite patchMember_assoc.
      destruct (assoc k lk) as [v|] eqn:Hv.
      * apply assoc_In in Hv. apply (IH (k, v) Hv). right. apply child_rooted. exact Hp.
      * constructor; [|constructor]. unfold plainOp. cbn [path from op value_].
        split; [apply child_rooted; exact Hp|]. split; [reflexivity | discriminate].
    + apply Forall_flat_map. intros k _. destruct (hasKey k _); constructor; [|constructor].
      unfold plainOp. cbn [path from op value_].
      split; [apply child_rooted; exact Hp|]. split; reflexivity.
Qed.

Lemma patchElements_cut (recur : value -> value -> string -> list DiffPatchOp)
  (p : string) (extra : list value) :
  forall i,
    patchElements recur p extra [] i
    = map (fun j => mkPatchOp remove (p ++ "/" ++ showNat j) None None)
        (seq i (List.length extra)).
Proof.
  induction extra as [|x t IH]; intros i; cbn [patchElements addsFrom List.length seq map];
    [reflexivity|].
  rewrite IH. reflexivity.
Qed.

Lemma patchElements_same_then_cut
  (recur : value -> value -> string -> list DiffPatchOp) (p : string)
  (xs extra : list value) :
  forall ys i,
    patchElements recur p xs ys i = [] ->
    patchElements recur p (xs ++ extra) ys i
    = map (fun j => mkPatchOp remove (p ++ "/" ++ showNat j) None None)
        (seq (i + List.length xs) (List.length extra)).
Proof.
  induction xs as [|x xr IH]; intros ys i; destruct ys as [|y yr];
    cbn [app List.length patchElements addsFrom]; try discriminate.
  - intros _. rewrite Nat.add_0_r. apply patchElements_cut.
  - intros H. apply app_eq_nil in H. destruct H as [Hx Hrest].
    rewrite Hx. cbn [app]. rewrite (IH yr (S i) Hrest).
    rewrite Nat.add_succ_r. reflexivity.
Qed.

(** X19. When two arrays have an empty patch, the patch from the left
    one with further elements appended to the same right one is one
    [remove] for each appended position, listed from the lowest position
    to the highest, each under its index in the left array. *)
Theorem patch_of_a_cut_array_removes_in_ascending_order
  (xs ys extra : list value) (p : string) :
  generatePatch (JArr xs) (JArr ys) p = [] ->
  generatePatch (JArr (xs ++ extra)) (JArr ys) p
  = map (fun j => mkPatchOp remove (p ++ "/" ++ showNat j) None None)
      (seq (List.length xs) (List.length extra)).
Proof.
  rewrite !generatePatch_eq. cbn -[patchElements generatePatch].
  intros H. apply (patchElements_same_then_cut generatePatch p xs extra ys 0 H).
Qed.

(** ** Flattening *)

(** A property of all the values of an object is kept by an assignment of
    a value that has it. *)
Lemma Forall_snd_update (P : value -> Prop) (k : string) (v : value)
  (kvs : list (string * value)) :
  P v -> Forall (fun kv => P (snd kv)) kvs ->
  Forall (fun kv => P (snd kv)) (update k v kvs).
Proof.
  intros Hv H. induction H as [|[k' v'] r Hh Ht IH]; cbn [update]; [constructor|].
  destruct (String.eqb k k'); constructor; auto.
Qed.

Lemma Forall_snd_insertIndex (P : value -> Prop) (n : Z) (k : string) (v : value)
  (kvs : list (string * value)) :
  P v -> Forall (fun kv => P (snd kv)) kvs ->
  Forall (fun kv => P (snd kv)) (insertIndex n k v kvs).
Proof.
  intros Hv H. induction H as [|[k' v'] r Hh Ht IH]; cbn [insertIndex].
  - repeat constructor. exact Hv.
  - destruct (arrayIndex k') as [m|]; [destruct (n <? m)%Z|];
      repeat (constructor; auto).
Qed.

Lemma Forall_snd_obj_set (P : value -> Prop) (kvs : list (string * value))
  (k : string) (v : value) :
  P v -> Forall (fun kv => P (snd kv)) kvs ->
  Forall (fun kv => P (snd kv)) (obj_set kvs k v).
Proof.
  intros Hv H. unfold obj_set.
  destruct (negb (hasKey k kvs) && String.eqb k "__proto__"); [exact H|].
  unfold define. destruct (hasKey k kvs).
  - apply Forall_snd_update; assumption.
  - destruct (arrayIndex k).
    + apply Forall_snd_insertIndex; assumption.
    + apply Forall_app. split; [exact H | repeat constructor; exact Hv].
Qed.

Lemma forEach_invariant {T : Type} (P : T -> Prop) (f : value -> nat -> T -> T)
  (xs : list value) :
  (forall x i acc, In x xs -> P acc -> P (f x i acc)) ->
  forall i acc, P acc -> P (forEach f xs i acc).
Proof.
  induction xs as [|x r IH]; intros Hf i acc Hacc; cbn [forEach]; [exact Hacc|].
  apply IH.
  - intros y j a Hy. apply Hf. right. exact Hy.
  - apply Hf; [left; reflexivity | exact Hacc].
Qed.

Lemma fold_left_invariant {A S : Type} (P : S -> Prop) (f : S -> A -> S) (l : list A) :
  (forall x acc, In x l -> P acc -> P (f acc x)) ->
  forall acc, P acc -> P (fold_left f l acc).
Proof.
  induction l as [|x r IH]; intros Hf acc Hacc; cbn [fold_left]; [exact Hacc|].
  apply IH.
  - intros y a Hy. apply Hf. right. exact Hy.
  - apply Hf; [left; reflexivity | exact Hacc].
Qed.

Lemma recurse_eq (options : FlattenOptions) (delim : string) (obj : value)
  (pre : string) (depth : nat) (result : list (string * value)) :
  recurse options delim obj pre depth result
  = if atMaxDepth options depth then obj_set result pre obj
    else
      match obj with
      | JArr xs =>
          if safe options then obj_set result pre obj
          else
            forEach (fun item i acc =>
                       recurse options delim item (flattenKey delim pre (showNat i))
                         (depth + 1) acc)
                    xs 0 result
      | JObj kvs =>
          fold_left (fun acc kv =>
                       recurse options delim (snd kv) (flattenKey delim pre (fst kv))
                         (depth + 1) acc)
                    kvs result
      | _ => obj_set result pre obj
      end.
Proof. destruct obj; reflexivity. Qed.

(** X20. Without a depth limit, a flattened document holds leaves only:
    no value of the result is an object, and none is an array unless the
    [safe] option keeps arrays whole. *)
Theorem flatten_holds_leaves_only
  (delim : string) (keepArrays : bool) (data : value) :
  Forall (fun kv => flatLeaf keepArrays (snd kv) = true)
    (recurse (mkFlattenOptions delim keepArrays None) delim data EmptyString 0 []).
Proof.
  enough (Hgen : forall obj pre depth result,
             Forall (fun kv => flatLeaf keepArrays (snd kv) = true) result ->
             Forall (fun kv => flatLeaf keepArrays (snd kv) = true)
               (recurse (mkFlattenOptions delim keepArrays None) delim obj pre depth
                  result))
    by (apply Hgen; constructor).
  clear data. intros obj.
  induction obj as [| |b|n|s|xs IH|kvs IH] using value_nested_ind;
    intros pre depth result Hres; rewrite recurse_eq;
    unfold atMaxDepth; cbn [maxDepth safe];
    try (apply (Forall_snd_obj_set (fun v => flatLeaf keepArrays v = true));
         [reflexivity | exact Hres]).
  - destruct keepArrays;
      [apply (Forall_snd_obj_set (fun v => flatLeaf true v = true));
       [reflexivity | exact Hres]|].
    apply forEach_invariant; [|exact Hres].
    intros x i acc Hx Hacc. rewrite Forall_forall in IH. apply (IH x Hx). exact Hacc.
  - apply fold_left_invariant; [|exact Hres].
    intros kv acc Hkv Hacc. rewrite Forall_forall in IH. apply (IH kv Hkv). exact Hacc.
Qed.

(** *** Decimal numerals as keys *)

Lemma string_of_uint_digits (d : Decimal.uint) :
  all isDigit (NilEmpty.string_of_uint d) = true.
Proof. induction d; cbn [NilEmpty.string_of_uint all]; try rewrite IHd; reflexivity. Qed.

Lemma digitsFrom_uint (d : Decimal.uint) :
  forall a,
    digitsFrom 10 (Z.of_nat a) (NilEmpty.string_of_uint d)
    = Some (Z.of_nat (Nat.of_uint_acc d a)).
Proof.
  induction d; intros a; cbn [NilEmpty.string_of_uint digitsFrom Nat.of_uint_acc];
    try reflexivity;
    match goal with
    | |- context [digitValue ?c] =>
        let v := eval vm_compute in (digitValue c) in change (digitValue c) with v
    end;
    cbv beta iota;
    match goal with
    | |- context [(?x <? 10)%Z] => change (x <? 10)%Z with true
    end;
    cbv iota; rewrite <- IHd; f_equal; rewrite Nat.tail_mul_spec; lia.
Qed.

Lemma nzhead_not_D0 (d u : Decimal.uint) : Decimal.nzhead d <> Decimal.D0 u.
Proof. induction d; cbn [Decimal.nzhead]; try discriminate. exact IHd. Qed.

Lemma to_uint_shape (n : nat) :
  Nat.to_uint n = Decimal.D0 Decimal.Nil
  \/ (Nat.to_uint n <> Decimal.Nil /\ forall u, Nat.to_uint n <> Decimal.D0 u).
Proof.
  pose proof (DecimalNat.Unsigned.to_of (Nat.to_uint n)) as H.
  rewrite DecimalNat.Unsigned.of_to in H. unfold Decimal.unorm in H.
  destruct (Decimal.nzhead (Nat.to_uint n)) as [|w|w|w|w|w|w|w|w|w|w] eqn:Hn;
    [left; exact H | exfalso; apply (nzhead_not_D0 _ _ Hn) | ..];
    right; rewrite H; (split; [discriminate | intros w' Hw; discriminate Hw]).
Qed.

Lemma arrayIndex_digits (k : string) (z : Z) :
  k <> EmptyString -> (forall r, k <> String "0" r) ->
  all isDigit k = true -> digitsFrom 10 0 k = Some z -> (z < 4294967295)%Z ->
  arrayIndex k = Some z.
Proof.
  intros Hne Hnz Hall Hd Hz. destruct k as [|c r]; [contradiction|].
  assert (Hgen : arrayIndex (String c r)
                 = match digits 10 (if all isDigit (String c r) then String c r
                                    else EmptyString) with
                   | Some z => if (z <? 4294967295)%Z then Some z else None
                   | None => None
                   end).
  { destruct c as [[] [] [] [] [] [] [] []]; try reflexivity.
    exfalso. apply (Hnz r). reflexivity. }
  rewrite Hgen, Hall. unfold digits. rewrite Hd.
  rewrite (proj2 (Z.ltb_lt _ _) Hz). reflexivity.
Qed.

Lemma showNat_arrayIndex (n : nat) :
  (Z.of_nat n < 4294967295)%Z -> arrayIndex (showNat n) = Some (Z.of_nat n).
Proof.
  intros Hn. unfold showNat.
  pose proof (DecimalNat.Unsigned.of_to n) as Hof.
  destruct (to_uint_shape n) as [H0|[Hnil Hd0]].
  - rewrite H0 in *. cbn in Hof. subst n. reflexivity.
  - assert (Hs : NilZero.string_of_uint (Nat.to_uint n)
                 = NilEmpty.string_of_uint (Nat.to_uint n)).
    { destruct (Nat.to_uint n); [contradiction | reflexivity..]. }
    rewrite Hs. apply arrayIndex_digits.
    + destruct (Nat.to_uint n); [contradiction | discriminate..].
    + intros r Hr. destruct (Nat.to_uint n) eqn:Hu; try discriminate Hr.
      apply (Hd0 u). reflexivity.
    + apply string_of_uint_digits.
    + pose proof (digitsFrom_uint (Nat.to_uint n) 0) as Hd.
      unfold Nat.of_uint in Hof. rewrite Hof in Hd. exact Hd.
    + exact Hn.
Qed.

Lemma showNat_digits (n : nat) : all isDigit (showNat n) = true.
Proof.
  unfold showNat, NilZero.string_of_uint.
  destruct (Nat.to_uint n) eqn:Hu; try reflexivity; rewrite <- Hu;
    apply string_of_uint_digits.
Qed.

Lemma showNat_nonempty (n : nat) : showNat n <> EmptyString.
Proof.
  unfold showNat, NilZero.string_of_uint. destruct (Nat.to_uint n); discriminate.
Qed.

Lemma all_impl (p q : ascii -> bool) (s : string) :
  (forall c, p c = true -> q c = true) -> all p s = true -> all q s = true.
Proof.
  intros H. induction s as [|c r IH]; cbn [all]; [reflexivity|].
  intros Ha. apply andb_true_iff in Ha. destruct Ha as [Hc Hr].
  rewrite (H c Hc), (IH Hr). reflexivity.
Qed.

Lemma span_all (p : ascii -> bool) (s : string) :
  all p s = true -> span p s = (s, EmptyString).
Proof.
  induction s as [|c r IH]; cbn [all span]; [reflexivity|].
  intros Ha. apply andb_true_iff in Ha. destruct Ha as [Hc Hr].
  rewrite Hc, (IH Hr). reflexivity.
Qed.

Lemma split_plain (sep : ascii) (s : string) :
  all (fun c => negb (Ascii.eqb c sep)) s = true -> split sep s = [s].
Proof.
  induction s as [|c r IH]; cbn [all split]; [reflexivity|].
  intros Ha. apply andb_true_iff in Ha. destruct Ha as [Hc Hr].
  apply negb_true_iff in Hc. rewrite Hc, (IH Hr). reflexivity.
Qed.

Lemma digit_is_word (c : ascii) : isDigit c = true -> isWord c = true.
Proof. intros H. unfold isWord. rewrite H. reflexivity. Qed.

Lemma digit_is_no_dot (c : ascii) : isDigit c = true -> negb (Ascii.eqb c ".") = true.
Proof.
  intros H. destruct (Ascii.eqb_spec c ".") as [->|_]; [discriminate H | reflexivity].
Qed.

Lemma arrMatch_digits (k : string) : all isDigit k = true -> arrMatch k = None.
Proof.
  intros H. unfold arrMatch.
  rewrite (span_all isWord k (all_impl _ _ k digit_is_word H)).
  destruct k; reflexivity.
Qed.

Lemma nthZ_nth_error {A : Type} (l : list A) :
  forall j x, nth_error l j = Some x -> nthZ l (Z.of_nat j) = Some x.
Proof.
  induction l as [|y t IH]; intros j x; destruct j as [|j]; cbn [nth_error nthZ];
    try discriminate.
  - intros H. exact H.
  - intros H. replace (Z.of_nat (S j) =? 0)%Z with false
      by (symmetry; apply Z.eqb_neq; lia).
    replace (Z.of_nat (S j) - 1)%Z with (Z.of_nat j) by lia. apply IH. exact H.
Qed.

Lemma distinct_NoDup (ks : list string) : distinct ks = true -> NoDup ks.
Proof.
  induction ks as [|k r IH]; cbn [distinct]; [constructor|].
  intros H. apply andb_true_iff in H. destruct H as [Hk Hr].
  constructor; [|apply IH; exact Hr].
  intros Hin. apply existsb_eqb_In in Hin. rewrite Hin in Hk. discriminate Hk.
Qed.

(** *** Flattened keys are paths *)

Lemma resolve_child (data obj child : value) (pre k : string) :
  getNestedValue data pre = Ok obj ->
  k <> EmptyString -> split "." k = [k] -> arrMatch k = None ->
  isObjectLike obj = true -> get obj k = Ok child ->
  getNestedValue data (flattenKey "." pre k) = Ok child.
Proof.
  intros Hpre Hne Hsplit Harr Hobj Hget.
  assert (Hone : getNestedValue obj k = Ok child).
  { unfold getNestedValue. destruct k as [|c r]; [contradiction|].
    rewrite Hsplit. cbn [walkPath]. rewrite Harr.
    destruct obj; try discriminate Hobj; rewrite Hget; reflexivity. }
  unfold flattenKey. destruct pre as [|c r]; cbn [nonEmpty].
  - cbn [getNestedValue] in Hpre. injection Hpre as ->. exact Hone.
  - unfold getNestedValue in Hpre, Hone |- *.
    destruct k as [|d t]; [contradiction|].
    change (String c r ++ "." ++ String d t)
      with (String c (r ++ String "." (String d t))).
    cbv iota beta.
    change (String c (r ++ String "." (String d t)))
      with (String c r ++ String "." (String d t)).
    rewrite split_app, walkPath_app, Hpre. cbn [bind]. exact Hone.
Qed.

Lemma forEach_indexed {T : Type} (P : T -> Prop) (f : value -> nat -> T -> T)
  (xs : list value) :
  forall i,
    (forall j x acc, nth_error xs j = Some x -> P acc -> P (f x (i + j) acc)) ->
    forall acc, P acc -> P (forEach f xs i acc).
Proof.
  induction xs as [|x r IH]; intros i Hf acc Hacc; cbn [forEach]; [exact Hacc|].
  apply IH.
  - intros j y a Hy. rewrite Nat.add_succ_comm. apply (Hf (S j)). exact Hy.
  - rewrite <- (Nat.add_0_r i) at 1. apply (Hf 0); [reflexivity | exact Hacc].
Qed.

Lemma recurse_sound (options : FlattenOptions) (data obj : value) :
  forall pre depth result,
    plainDocument obj = true ->
    getNestedValue data pre = Ok obj ->
    (forall k v, assoc k result = Some v -> getNestedValue data k = Ok v) ->
    forall k v,
      assoc k (recurse options "." obj pre depth result) = Some v ->
      getNestedValue data k = Ok v.
Proof.
  assert (Hleaf : forall (o : value) pre result,
             getNestedValue data pre = Ok o ->
             (forall k v, assoc k result = Some v -> getNestedValue data k = Ok v) ->
             forall k v, assoc k (obj_set result pre o) = Some v ->
                         getNestedValue data k = Ok v).
  { intros o pre result Hpre Hres k v H.
    destruct (assoc_obj_set_inv result pre k o v H) as [[-> ->]|Hold];
      [exact Hpre | apply Hres; exact Hold]. }
  induction obj as [| |b|n|s|xs IH|kvs IH] using value_nested_ind;
    intros pre depth result Hdoc Hpre Hres; rewrite recurse_eq;
    (destruct (atMaxDepth options depth); [apply Hleaf; assumption|]);
    try (apply Hleaf; assumption).
  - destruct (safe options); [apply Hleaf; assumption|].
    cbn [plainDocument] in Hdoc. apply andb_true_iff in Hdoc.
    destruct Hdoc as [Hlen Hall]. apply Z.ltb_lt in Hlen.
    rewrite forallb_forall in Hall. rewrite Forall_forall in IH.
    apply (forEach_indexed
             (fun acc => forall k v, assoc k acc = Some v -> getNestedValue data k = Ok v));
      [|exact Hres].
    intros j x acc Hj Hacc. cbn [Nat.add].
    pose proof (nth_error_In _ _ Hj) as Hin.
    apply (IH x Hin); [apply Hall; exact Hin| |exact Hacc].
    assert (Hjlen : j < List.length xs) by (apply nth_error_Some; congruence).
    assert (Hidx : arrayIndex (showNat j) = Some (Z.of_nat j))
      by (apply showNat_arrayIndex; lia).
    apply (resolve_child data (JArr xs)); try assumption.
    + apply showNat_nonempty.
    + apply split_plain. apply (all_impl isDigit); [apply digit_is_no_dot|].
      apply showNat_digits.
    + apply arrMatch_digits. apply showNat_digits.
    + reflexivity.
    + cbn [get]. rewrite (arrayIndex_not_length _ _ Hidx), Hidx.
      rewrite (nthZ_nth_error xs j x Hj). reflexivity.
  - cbn [plainDocument] in Hdoc. apply andb_true_iff in Hdoc.
    destruct Hdoc as [Hdis Hall]. apply distinct_NoDup in Hdis.
    rewrite forallb_forall in Hall. rewrite Forall_forall in IH.
    apply (fold_left_invariant
             (fun acc => forall k v, assoc k acc = Some v -> getNestedValue data k = Ok v));
      [|exact Hres].
    intros [key child] acc Hin Hacc. cbn [fst snd].
    pose proof (Hall _ Hin) as Hkv. cbn [fst snd] in Hkv.
    apply andb_true_iff in Hkv. destruct Hkv as [Hkey Hchild].
    unfold plainKey in Hkey. apply andb_true_iff in Hkey. destruct Hkey as [Hkey Harr].
    apply andb_true_iff in Hkey. destruct Hkey as [Hne Hdot].
    apply (IH (key, child) Hin); [exact Hchild| |exact Hacc].
    apply (resolve_child data (JObj kvs)); try assumption.
    + intros ->. discriminate Hne.
    + apply split_plain. exact Hdot.
    + destruct (arrMatch key); [discriminate Harr | reflexivity].
    + reflexivity.
    + cbn [get]. rewrite (assoc_NoDup key child kvs Hdis Hin). reflexivity.
Qed.

(** X21. Flattened keys are paths of the resolver: in a document whose
    keys are plain and distinct, flattened with the dot as delimiter,
    whatever the depth limit and the [safe] option, every key of the result
    resolves in the document to the value stored under it. *)
Theorem flattened_keys_resolve
  (options : FlattenOptions) (data : value) (k : string) (v : value) :
  plainDocument data = true ->
  assoc k (recurse options "." data EmptyString 0 []) = Some v ->
  getNestedValue data k = Ok v.
Proof.
  intros Hdoc. apply (recurse_sound options data data EmptyString 0 []).
  - exact Hdoc.
  - reflexivity.
  - intros k0 v0 H. discriminate H.
Qed.

(** *** Closed instances for patches and flattening *)

Lemma patch_is_empty_iff_same_data_witness :
  generatePatch (JObj [("a", num 1); ("b", JArr [JStr "x"; JNull])])
    (JObj [("b", JArr [JStr "x"; JNull]); ("a", num 1)]) EmptyString
  = []
  <-> SameData (JObj [("a", num 1); ("b", JArr [JStr "x"; JNull])])
        (JObj [("b", JArr [JStr "x"; JNull]); ("a", num 1)]).
Proof.
  apply (patch_is_empty_iff_same_data
           (JObj [("a", num 1); ("b", JArr [JStr "x"; JNull])])
           (JObj [("b", JArr [JStr "x"; JNull]); ("a", num 1)]) EmptyString);
    reflexivity.
Defined.

Lemma patch_of_a_cut_array_removes_in_ascending_order_witness :
  generatePatch (JArr ([num 1; JObj [("a", num 2); ("b", num 3)]] ++ [num 7; num 8]))
    (JArr [num 1; JObj [("b", num 3); ("a", num 2)]]) "/items"
  = [mkPatchOp remove "/items/2" None None; mkPatchOp remove "/items/3" None None].
Proof.
  apply (patch_of_a_cut_array_removes_in_ascending_order
           [num 1; JObj [("a", num 2); ("b", num 3)]]
           [num 1; JObj [("b", num 3); ("a", num 2)]] [num 7; num 8] "/items").
  vm_compute. reflexivity.
Defined.

Lemma flattened_keys_resolve_witness :
  getNestedValue
    (JObj [("a", JArr [num 1; JObj [("b", JNull)]]); ("c", JStr "x")]) "a.1.b"
  = Ok JNull.
Proof.
  apply (flattened_keys_resolve (mkFlattenOptions "." false None)
           (JObj [("a", JArr [num 1; JObj [("b", JNull)]]); ("c", JStr "x")])
           "a.1.b" JNull).
  - vm_compute. reflexivity.
  - vm_compute. reflexivity.
Defined.

(** ** Profiling *)

Lemma countsTotal_assoc (o : list (string * value)) :
  forall t k v,
    countsTotal o = Some t -> assoc k o = Some v ->
    exists z, v = num z /\ (0 < z)%Z.
Proof.
  induction o as [|[k' v'] r IH]; intros t k v Ht Hv; cbn [assoc countsTotal] in *;
    [discriminate Hv|].
  destruct v' as [| |b|[|z]|s|xs|kvs]; try discriminate Ht.
  destruct (0 <? z)%Z eqn:Hz; [|discriminate Ht].
  destruct (countsTotal r) as [t'|] eqn:Hr; [|discriminate Ht].
  destruct (String.eqb k k').
  - injection Hv as <-. exists z. split; [reflexivity | apply Z.ltb_lt; exact Hz].
  - apply (IH t' k v eq_refl Hv).
Qed.

Lemma countsTotal_update (o : list (string * value)) :
  forall t k z z',
    countsTotal o = Some t -> assoc k o = Some (num z) -> (0 < z')%Z ->
    countsTotal (update k (num z') o) = Some (t - z + z')%Z.
Proof.
  unfold num. induction o as [|[k' v'] r IH]; intros t k z z' Ht Hv Hz';
    cbn [assoc countsTotal update] in *; [discriminate Hv|].
  destruct v' as [| |b|[|y]|s|xs|kvs]; try discriminate Ht.
  destruct (0 <? y)%Z eqn:Hy; [|discriminate Ht].
  destruct (countsTotal r) as [t'|] eqn:Hr; [|discriminate Ht].
  cbn [option_map] in Ht. injection Ht as <-.
  destruct (String.eqb k k'); cbn [countsTotal].
  - injection Hv as ->. rewrite (proj2 (Z.ltb_lt _ _) Hz'), Hr. cbn [option_map].
    f_equal. lia.
  - rewrite Hy, (IH t' k z z' eq_refl Hv Hz'). cbn [option_map]. f_equal. lia.
Qed.

Lemma countsTotal_insertIndex (o : list (string * value)) :
  forall t n k z,
    countsTotal o = Some t -> (0 < z)%Z ->
    countsTotal (insertIndex n k (num z) o) = Some (t + z)%Z.
Proof.
  unfold num. induction o as [|[k' v'] r IH]; intros t n k z Ht Hz;
    cbn [countsTotal insertIndex] in *.
  - injection Ht as <-. rewrite (proj2 (Z.ltb_lt _ _) Hz). cbn [option_map]. f_equal. lia.
  - destruct v' as [| |b|[|y]|s|xs|kvs]; try discriminate Ht.
    destruct (0 <? y)%Z eqn:Hy; [|discriminate Ht].
    destruct (countsTotal r) as [t'|] eqn:Hr; [|discriminate Ht].
    cbn [option_map] in Ht. injection Ht as <-.
    destruct (arrayIndex k') as [m|]; [destruct (n <? m)%Z|]; cbn [countsTotal];
      rewrite ?(proj2 (Z.ltb_lt _ _) Hz), ?Hy, ?Hr, ?(IH t' n k z eq_refl Hz);
      cbn [option_map]; f_equal; lia.
Qed.

Lemma countsTotal_app (o : list (string * value)) :
  forall t k z,
    countsTotal o = Some t -> (0 < z)%Z ->
    countsTotal (o ++ [(k, num z)])%list = Some (t + z)%Z.
Proof.
  unfold num. induction o as [|[k' v'] r IH]; intros t k z Ht Hz;
    cbn [countsTotal app] in *.
  - injection Ht as <-. rewrite (proj2 (Z.ltb_lt _ _) Hz). cbn [option_map]. f_equal. lia.
  - destruct v' as [| |b|[|y]|s|xs|kvs]; try discriminate Ht.
    destruct (0 <? y)%Z eqn:Hy; [|discriminate Ht].
    destruct (countsTotal r) as [t'|] eqn:Hr; [|discriminate Ht].
    cbn [option_map] in Ht. injection Ht as <-.
    rewrite (IH t' k z eq_refl Hz). cbn [option_map]. f_equal. lia.
Qed.

Lemma increment_total (o : list (string * value)) (k : string) (t : Z) :
  k <> "__proto__" ->
  countsTotal o = Some t -> countsTotal (increment o k) = Some (t + 1)%Z.
Proof.
  intros Hk Ht. unfold increment, obj_set.
  rewrite (proj2 (String.eqb_neq k "__proto__") Hk), andb_false_r.
  unfold define, hasKey.
  destruct (assoc k o) as [v|] eqn:Hv.
  - destruct (countsTotal_assoc o t k v Ht Hv) as [z [-> Hz]].
    cbn [orUndef]. unfold orElse. cbn [truthy num].
    replace (z =? 0)%Z with false by (symmetry; apply Z.eqb_neq; lia).
    cbn [negb plus toNumber numAdd num].
    assert (Hz1 : (0 < z + 1)%Z) by lia.
    pose proof (countsTotal_update o t k z (z + 1) Ht Hv Hz1) as Hu.
    unfold num in Hu. rewrite Hu. f_equal. lia.
  - cbn [orUndef]. unfold orElse. cbn [truthy plus toNumber numAdd num Z.add].
    destruct (arrayIndex k).
    + apply (countsTotal_insertIndex o t _ k 1 Ht). lia.
    + apply (countsTotal_app o t k 1 Ht). lia.
Qed.

Lemma sumOfCounts_from (o : list (string * value)) :
  forall a t,
    countsTotal o = Some t ->
    fold_left (fun s kv => plus s (snd kv)) o (num a) = num (a + t).
Proof.
  unfold num. induction o as [|[k v] r IH]; intros a t Ht;
    cbn [countsTotal fold_left snd] in *.
  - injection Ht as <-. rewrite Z.add_0_r. reflexivity.
  - destruct v as [| |b|[|y]|s|xs|kvs]; try discriminate Ht.
    destruct (0 <? y)%Z; [|discriminate Ht].
    destruct (countsTotal r) as [t'|] eqn:Hr; [|discriminate Ht].
    cbn [option_map] in Ht. injection Ht as <-.
    cbn [plus toNumber numAdd]. rewrite (IH (a + y)%Z t' eq_refl).
    rewrite Z.add_assoc. reflexivity.
Qed.

Lemma sumOfCounts_total (o : list (string * value)) (t : Z) :
  countsTotal o = Some t -> sumOfCounts o = num t.
Proof. intros Ht. unfold sumOfCounts. rewrite (sumOfCounts_from o 0 t Ht). reflexivity. Qed.

Lemma visitKey_assoc
  (recur : value -> Z -> ProfileMetrics * list string -> ProfileMetrics * list string)
  (k : string) (depth : Z) (st : ProfileMetrics * list string)
  (kvs : list (string * value)) :
  visitKey recur k depth st kvs
  = match assoc k kvs with
    | Some v => recur v (depth + 1)%Z (fst st, keySetAdd (snd st) k)
    | None => (countNode JUndef (depth + 1) (fst st), keySetAdd (snd st) k)
    end.
Proof.
  induction kvs as [|[k' v] t IH]; cbn [visitKey assoc]; [reflexivity|].
  destruct (String.eqb k k'); [reflexivity | exact IH].
Qed.

Lemma profileRecursive_eq (v : value) (depth : Z) (st : ProfileMetrics * list string) :
  profileRecursive v depth st
  = match v with
    | JObj kvs =>
        fold_left (fun st' k => visitKey profileRecursive k depth st' kvs)
                  (map fst kvs)
                  (widen (List.length kvs) (countNode v depth (fst st)), snd st)
    | JArr xs =>
        fold_left (fun st' item => profileRecursive item (depth + 1)%Z st')
                  xs
                  (widen (List.length xs) (countNode v depth (fst st)), snd st)
    | _ => (countNode v depth (fst st), snd st)
    end.
Proof. destruct v; reflexivity. Qed.

Lemma profileRecursive_invariant (P : ProfileMetrics -> Prop) :
  (forall v depth m, P m -> P (countNode v depth m)) ->
  (forall n m, P m -> P (widen n m)) ->
  forall v depth st, P (fst st) -> P (fst (profileRecursive v depth st)).
Proof.
  intros Hcount Hwiden v.
  induction v as [| |b|n|s|xs IH|kvs IH] using value_nested_ind;
    intros depth st Hst; rewrite profileRecursive_eq; cbn [fst];
    try (apply Hcount; exact Hst).
  - apply (fold_left_invariant (fun st' => P (fst st'))).
    + intros x acc Hx Hacc. rewrite Forall_forall in IH. apply (IH x Hx). exact Hacc.
    + cbn [fst]. apply Hwiden. apply Hcount. exact Hst.
  - apply (fold_left_invariant (fun st' => P (fst st'))).
    + intros k acc _ Hacc. rewrite visitKey_assoc.
      destruct (assoc k kvs) as [v|] eqn:Hv.
      * apply assoc_In in Hv. rewrite Forall_forall in IH.
        apply (IH (k, v) Hv). exact Hacc.
      * cbn [fst]. apply Hcount. exact Hacc.
    + cbn [fst]. apply Hwiden. apply Hcount. exact Hst.
Qed.

Lemma countNode_counts (v : value) (depth : Z) (m : ProfileMetrics) :
  totalNodes (countNode v depth m) = (totalNodes m + 1)%Z
  /\ maxDepth_ (countNode v depth m) = Z.max (maxDepth_ m) depth.
Proof.
  unfold countNode. cbn [totalNodes maxDepth_]. split; [reflexivity|].
  destruct (Z.gtb_spec depth (maxDepth_ m)); lia.
Qed.

Lemma widen_counts (n : nat) (m : ProfileMetrics) :
  totalNodes (widen n m) = totalNodes m /\ maxDepth_ (widen n m) = maxDepth_ m.
Proof. split; reflexivity. Qed.

Lemma fold_counts {A : Type}
  (step : ProfileMetrics * list string -> A -> ProfileMetrics * list string)
  (n h : A -> Z) (depth : Z) (l : list A) :
  (forall x st, In x l ->
     totalNodes (fst (step st x)) = (totalNodes (fst st) + n x)%Z
     /\ maxDepth_ (fst (step st x))
        = Z.max (maxDepth_ (fst st)) (depth + 1 + h x)%Z) ->
  forall st,
    (depth <= maxDepth_ (fst st))%Z ->
    (totalNodes (fst (fold_left step l st)) + 1
     = totalNodes (fst st) + fold_right (fun x a => n x + a) 1 l)%Z
    /\ maxDepth_ (fst (fold_left step l st))
       = Z.max (maxDepth_ (fst st))
           (depth + fold_right (fun x a => Z.max (1 + h x) a) 0 l)%Z.
Proof.
  induction l as [|x r IH]; intros Hstep st Hd; cbn [fold_left fold_right].
  - split; lia.
  - destruct (Hstep x st (or_introl eq_refl)) as [Ht Hm].
    destruct (IH (fun y st' Hy => Hstep y st' (or_intror Hy)) (step st x)) as [Ht' Hm'];
      [lia|].
    rewrite Ht', Hm', Ht, Hm. split; lia.
Qed.

Lemma fold_left_keys {A T : Type} (f : T -> string -> T) (l : list (string * A)) :
  forall st, fold_left f (map fst l) st = fold_left (fun st' kv => f st' (fst kv)) l st.
Proof. induction l as [|kv r IH]; intros st; cbn [map fold_left]; [reflexivity | apply IH]. Qed.

Lemma height_nonneg (v : value) : (0 <= height v)%Z.
Proof.
  destruct v as [| |b|n|s|xs|kvs]; cbn [height]; try lia.
  - induction xs as [|x r IH]; cbn [fold_right]; lia.
  - induction kvs as [|kv r IH]; cbn [fold_right]; lia.
Qed.

Lemma profileRecursive_counts (v : value) :
  forall depth st,
    distinctKeys v = true ->
    totalNodes (fst (profileRecursive v depth st)) = (totalNodes (fst st) + nodes v)%Z
    /\ maxDepth_ (fst (profileRecursive v depth st))
       = Z.max (maxDepth_ (fst st)) (depth + height v)%Z.
Proof.
  induction v as [| |b|n|s|xs IH|kvs IH] using value_nested_ind;
    intros depth st Hd; rewrite profileRecursive_eq; cbn [fst nodes height];
    try (destruct (countNode_counts JUndef depth (fst st)) as [Ht Hm];
         unfold countNode in *; cbn [totalNodes maxDepth_] in *; split; lia).
  - cbn [distinctKeys] in Hd. rewrite forallb_forall in Hd. rewrite Forall_forall in IH.
    destruct (countNode_counts (JArr xs) depth (fst st)) as [Ht Hm].
    destruct (fold_counts
                (fun st' item => profileRecursive item (depth + 1)%Z st')
                nodes height depth xs) with
      (st := (widen (List.length xs) (countNode (JArr xs) depth (fst st)), snd st))
      as [Ht' Hm'].
    + intros x st' Hx. destruct (IH x Hx (depth + 1)%Z st' (Hd x Hx)) as [H1 H2].
      split; [exact H1 | rewrite H2; f_equal; lia].
    + cbn [fst]. rewrite (proj2 (widen_counts _ _)). lia.
    + cbn [fst] in Ht', Hm'.
      rewrite (proj1 (widen_counts _ _)) in Ht'. rewrite (proj2 (widen_counts _ _)) in Hm'.
      pose proof (height_nonneg (JArr xs)) as Hh. cbn [height] in Hh.
      split; lia.
  - cbn [distinctKeys] in Hd. apply andb_true_iff in Hd. destruct Hd as [Hdis Hd].
    apply distinct_NoDup in Hdis.
    rewrite forallb_forall in Hd. rewrite Forall_forall in IH.
    destruct (countNode_counts (JObj kvs) depth (fst st)) as [Ht Hm].
    rewrite fold_left_keys.
    destruct (fold_counts
                (fun st' kv => visitKey profileRecursive (fst kv) depth st' kvs)
                (fun kv => nodes (snd kv)) (fun kv => height (snd kv)) depth kvs) with
      (st := (widen (List.length kvs) (countNode (JObj kvs) depth (fst st)), snd st))
      as [Ht' Hm'].
    + intros [k v] st' Hin. cbn [fst snd]. rewrite visitKey_assoc.
      rewrite (assoc_NoDup k v kvs Hdis Hin).
      destruct (IH (k, v) Hin (depth + 1)%Z (fst st', keySetAdd (snd st') k)
                  (Hd (k, v) Hin)) as [H1 H2].
      cbn [fst snd] in H1, H2. split; [exact H1 | rewrite H2; f_equal; lia].
    + cbn [fst]. rewrite (proj2 (widen_counts _ _)). lia.
    + cbn [fst] in Ht', Hm'.
      rewrite (proj1 (widen_counts _ _)) in Ht'. rewrite (proj2 (widen_counts _ _)) in Hm'.
      pose proof (height_nonneg (JObj kvs)) as Hh. cbn [height] in Hh.
      split; lia.
Qed.

(** The keys of the two distributions are names of types and decimal
    numerals. *)
Lemma getValueType_key (v : value) : getValueType v <> "__proto__".
Proof. destruct v; discriminate. Qed.

Lemma showZ_key (z : Z) : showZ z <> "__proto__".
Proof.
  unfold showZ. destruct (Z.to_int z) as [d|d]; cbn [NilZero.string_of_int];
    destruct d; discriminate.
Qed.

Section ProfileFacts.

Variable JSON_parse : string -> Exc value.
Variable blobSize : string -> Z.

(** X22. The distributions of a profile add up: the counts by type and
    the counts by depth each sum to the total number of nodes. *)
Theorem profile_distributions_add_up (jsonStr : string) (m : ProfileMetrics) :
  handleProfile JSON_parse blobSize jsonStr = Result m ->
  sumOfCounts (typeDistribution m) = num (totalNodes m)
  /\ sumOfCounts (depthDistribution m) = num (totalNodes m).
Proof.
  unfold handleProfile. destruct (JSON_parse jsonStr) as [data|e]; [|discriminate].
  pose proof (profileRecursive_invariant
                (fun m => countsTotal (typeDistribution m) = Some (totalNodes m)
                          /\ countsTotal (depthDistribution m) = Some (totalNodes m)))
    as Hinv.
  specialize (Hinv
    (fun v depth m0 H =>
       conj (increment_total _ (getValueType v) _ (getValueType_key v) (proj1 H))
            (increment_total _ (showZ depth) _ (showZ_key depth) (proj2 H)))
    (fun n m0 H => H)
    data 0%Z (mkProfileMetrics 0 0 0 (blobSize jsonStr) 0 [] [], [])
    (conj eq_refl eq_refl)).
  destruct (profileRecursive data 0 _) as [m' keySet]. cbn [fst] in Hinv.
  intros H. injection H as <-. cbn [typeDistribution depthDistribution totalNodes].
  split; apply sumOfCounts_total; apply Hinv.
Qed.

(** X23. On a document whose objects have distinct keys, the profile
    counts every node once and measures the height: [totalNodes] is the
    number of values of the document (the root, and every element and
    field value at every depth) and [maxDepth] is the depth of the deepest
    one. *)
Theorem profile_counts_every_node (jsonStr : string) (data : value) :
  JSON_parse jsonStr = Ok data ->
  distinctKeys data = true ->
  exists m,
    handleProfile JSON_parse blobSize jsonStr = Result m
    /\ totalNodes m = nodes data
    /\ maxDepth_ m = height data.
Proof.
  intros Hparse Hd. unfold handleProfile. rewrite Hparse.
  destruct (profileRecursive_counts data 0%Z
              (mkProfileMetrics 0 0 0 (blobSize jsonStr) 0 [] [], []) Hd) as [Ht Hm].
  destruct (profileRecursive data 0 _) as [m' keySet]. cbn [fst totalNodes maxDepth_] in *.
  eexists. split; [reflexivity|]. cbn [totalNodes maxDepth_].
  pose proof (height_nonneg data). split; lia.
Qed.

End ProfileFacts.

(** *** Closed instances for the profile *)

Lemma profile_distributions_add_up_witness :
  sumOfCounts [("object", num 2); ("number", num 1); ("array", num 2); ("null", num 1)]
  = num 6
  /\ sumOfCounts [("0", num 1); ("1", num 2); ("2", num 2); ("3", num 1)] = num 6.
Proof.
  apply (profile_distributions_add_up Host.JSON_parse (fun s => Z.of_nat (String.length s))
           (Host.text "{'a':1,'b':[{'a':null},[]]}")
           (mkProfileMetrics 6 3 2 27 2
              [("object", num 2); ("number", num 1); ("array", num 2); ("null", num 1)]
              [("0", num 1); ("1", num 2); ("2", num 2); ("3", num 1)])).
  vm_compute. reflexivity.
Defined.

Lemma profile_counts_every_node_witness :
  exists m,
    handleProfile Host.JSON_parse (fun s => Z.of_nat (String.length s))
      (Host.text "{'a':1,'b':[{'a':null},[]]}")
    = Result m
    /\ totalNodes m = nodes (JObj [("a", num 1);
                                   ("b", JArr [JObj [("a", JNull)]; JArr []])])
    /\ maxDepth_ m = height (JObj [("a", num 1);
                                   ("b", JArr [JObj [("a", JNull)]; JArr []])]).
Proof.
  apply (profile_counts_every_node Host.JSON_parse (fun s => Z.of_nat (String.length s))
           (Host.text "{'a':1,'b':[{'a':null},[]]}")).
  - vm_compute. reflexivity.
  - vm_compute. reflexivity.
Defined.

(** ** Serializations tell primitives apart *)

Lemma unescapeOne_escapeChar (c : ascii) (rest : string) :
  unescapeOne (Json.escapeChar c ++ rest) = Some (c, rest).
Proof. destruct c as [[] [] [] [] [] [] [] []]; reflexivity. Qed.

Lemma escape_injective (s1 : string) :
  forall s2 t1 t2,
    Json.escape s1 ++ Json.dquote ++ t1 = Json.escape s2 ++ Json.dquote ++ t2 ->
    s1 = s2.
Proof.
  induction s1 as [|c r1 IH]; intros s2 t1 t2 H; destruct s2 as [|d r2];
    cbn [Json.escape] in H; rewrite ?append_assoc in H.
  - reflexivity.
  - apply (f_equal unescapeOne) in H. rewrite unescapeOne_escapeChar in H.
    discriminate H.
  - apply (f_equal unescapeOne) in H. rewrite unescapeOne_escapeChar in H.
    discriminate H.
  - apply (f_equal unescapeOne) in H. rewrite !unescapeOne_escapeChar in H.
    injection H as -> H. f_equal. apply (IH r2 t1 t2 H).
Qed.

Lemma quote_injective (s1 s2 : string) : Json.quote s1 = Json.quote s2 -> s1 = s2.
Proof.
  unfold Json.quote. intros H.
  assert (H' : Json.escape s1 ++ Json.dquote ++ EmptyString
               = Json.escape s2 ++ Json.dquote ++ EmptyString).
  { rewrite !append_empty_r.
    change (Json.dquote ++ Json.escape s1 ++ Json.dquote)
      with (String (ascii_of_nat 34) (Json.escape s1 ++ Json.dquote)) in H.
    change (Json.dquote ++ Json.escape s2 ++ Json.dquote)
      with (String (ascii_of_nat 34) (Json.escape s2 ++ Json.dquote)) in H.
    injection H as H. exact H. }
  apply (escape_injective s1 s2 _ _ H').
Qed.

Lemma to_int_normal (z : Z) :
  Z.to_int z <> Decimal.Pos Decimal.Nil /\ Z.to_int z <> Decimal.Neg Decimal.Nil.
Proof.
  pose proof (DecimalZ.to_of (Z.to_int z)) as H. rewrite DecimalZ.of_to in H.
  split; intros Hz; rewrite Hz in H; discriminate H.
Qed.

Lemma showZ_injective (x y : Z) : showZ x = showZ y -> x = y.
Proof.
  unfold showZ. intros H. apply DecimalZ.to_int_inj.
  destruct (to_int_normal x) as [Hx1 Hx2]. destruct (to_int_normal y) as [Hy1 Hy2].
  pose proof (NilZero.isi (Z.to_int x) Hx1 Hx2) as Ix.
  pose proof (NilZero.isi (Z.to_int y) Hy1 Hy2) as Iy.
  rewrite H in Ix. rewrite Ix in Iy. injection Iy as Iy. exact Iy.
Qed.

(** ** Structural diff *)

Lemma computeDiff_eq (left right : value) (p : string) :
  computeDiff left right p
  = if strictEq left right then
      [mkDiffResult unchanged p (keyOfPath p) (Some left) (Some right)]
    else if isUndefined left then
      [mkDiffResult added p (keyOfPath p) None (Some right)]
    else if isUndefined right then
      [mkDiffResult removed p (keyOfPath p) (Some left) None]
    else if negb (String.eqb (typeOf left) (typeOf right))
            || negb (Bool.eqb (isArray left) (isArray right)) then
      [mkDiffResult changed p (keyOfPath p) (Some left) (Some right)]
    else
      match left, right with
      | JArr xs, JArr ys => diffElements computeDiff p xs ys 0
      | JObj leftObj, JObj rightObj =>
          flat_map (fun key =>
                      diffMember computeDiff p key (orUndef (assoc key rightObj))
                        leftObj)
                   (newKeySet (map fst leftObj ++ map fst rightObj)%list)
      | _, _ =>
          if negb (optEqb (JSON_stringify left) (JSON_stringify right)) then
            [mkDiffResult changed p (keyOfPath p) (Some left) (Some right)]
          else [mkDiffResult unchanged p (keyOfPath p) (Some left) (Some right)]
      end.
Proof. destruct left; reflexivity. Qed.

Lemma diffMember_assoc (recur : value -> value -> string -> list DiffResult)
  (p key : string) (rightVal : value) (leftObj : list (string * value)) :
  diffMember recur p key rightVal leftObj
  = match assoc key leftObj with
    | Some leftVal => recur leftVal rightVal (p ++ "." ++ key)
    | None => diffFromUndefined rightVal (p ++ "." ++ key)
    end.
Proof.
  induction leftObj as [|[k v] t IH]; cbn [diffMember assoc]; [reflexivity|].
  destruct (String.eqb key k); [reflexivity | exact IH].
Qed.

Lemma keySet_from_In (l : list string) :
  forall acc k, In k (fold_left keySetAdd l acc) <-> In k acc \/ In k l.
Proof.
  induction l as [|x t IH]; intros acc k; cbn [fold_left In]; [tauto|].
  rewrite IH. unfold keySetAdd. destruct (existsb (String.eqb x) acc) eqn:Hx.
  - apply existsb_eqb_In in Hx. split; [tauto|].
    intros [H|[<-|H]]; tauto.
  - rewrite in_app_iff. cbn [In]. tauto.
Qed.

Lemma newKeySet_In (l : list string) (k : string) : In k (newKeySet l) <-> In k l.
Proof. unfold newKeySet. rewrite keySet_from_In. cbn [In]. tauto. Qed.

Lemma jsonDocument_defined (v : value) : jsonDocument v = true -> v <> JUndef.
Proof. intros H ->. discriminate H. Qed.

Lemma jsonDocument_assoc (kvs : list (string * value)) (k : string) (v : value) :
  jsonDocument (JObj kvs) = true -> assoc k kvs = Some v -> jsonDocument v = true.
Proof.
  cbn [jsonDocument]. rewrite forallb_forall. intros H Hv.
  apply (H (k, v)). apply assoc_In. exact Hv.
Qed.

Lemma computeDiff_removed (x : value) (p : string) :
  x <> JUndef -> ~ onlyUnchanged (computeDiff x JUndef p).
Proof.
  intros Hx H. rewrite computeDiff_eq in H. unfold onlyUnchanged in H.
  destruct x as [| |b|[|z]|s|xs|kvs]; try contradiction; cbn in H; apply Forall_inv in H; discriminate H.
Qed.

Lemma diffFromUndefined_added (y : value) (p : string) :
  y <> JUndef -> ~ onlyUnchanged (diffFromUndefined y p).
Proof.
  intros Hy H. unfold diffFromUndefined, onlyUnchanged in H.
  destruct y; try contradiction; cbn in H; apply Forall_inv in H; discriminate H.
Qed.

Lemma stringify_object_not_null (kvs : list (string * value)) :
  optEqb (JSON_stringify JNull) (JSON_stringify (JObj kvs)) = false
  /\ optEqb (JSON_stringify (JObj kvs)) (JSON_stringify JNull) = false.
Proof.
  unfold JSON_stringify. cbn [Json.ser]. unfold Json.layout.
  destruct (flat_map _ kvs); split; reflexivity.
Qed.

Lemma computeDiff_scalar (left right : value) (p : string) :
  isObjectLike left = false ->
  jsonDocument left = true -> jsonDocument right = true ->
  (onlyUnchanged (computeDiff left right p) <-> strictEq left right = true).
Proof.
  intros Hl Hjl Hjr. rewrite computeDiff_eq. unfold onlyUnchanged.
  destruct (strictEq left right) eqn:He.
  - split; [reflexivity | intros _; constructor; [reflexivity | constructor]].
  - split; [|discriminate]. intros H. exfalso.
    destruct left as [| |b|[|x]|s|xs|lk]; try discriminate Hl; try discriminate Hjl;
      destruct right as [| |b'|[|y]|s'|ys|rk]; try discriminate Hjr;
      cbn [isUndefined typeOf isArray String.eqb Ascii.eqb Bool.eqb negb orb andb] in H;
      try discriminate He;
      try (apply Forall_inv in H; discriminate H).
    + rewrite (proj1 (stringify_object_not_null rk)) in H. cbn [negb] in H.
      apply Forall_inv in H. discriminate H.
    + destruct b, b'; cbn in H, He; try discriminate He;
        apply Forall_inv in H; discriminate H.
    + cbn [strictEq] in He. unfold JSON_stringify in H. cbn [Json.ser optEqb] in H.
      unfold Json.serNumber in H.
      destruct (String.eqb_spec (showZ x) (showZ y)) as [Heq|Hne].
      * apply showZ_injective in Heq. subst y. rewrite Z.eqb_refl in He. discriminate He.
      * cbn [negb] in H. apply Forall_inv in H. discriminate H.
    + cbn [strictEq] in He. unfold JSON_stringify in H. cbn [Json.ser optEqb] in H.
      destruct (String.eqb_spec (Json.quote s) (Json.quote s')) as [Heq|Hne].
      * apply quote_injective in Heq. subst s'. rewrite String.eqb_refl in He.
        discriminate He.
      * cbn [negb] in H. apply Forall_inv in H. discriminate H.
Qed.

Lemma diffsFrom_unchanged (p : string) (ys : list value) (i : nat) :
  forallb jsonDocument ys = true ->
  (onlyUnchanged (diffsFrom p ys i) <-> ys = []).
Proof.
  intros Hj. destruct ys as [|y yr]; cbn [diffsFrom].
  - split; [reflexivity | intros _; constructor].
  - split; [|discriminate]. intros H. apply Forall_app in H. destruct H as [H _].
    cbn [forallb] in Hj. apply andb_true_iff in Hj. destruct Hj as [Hy _].
    exfalso. apply (diffFromUndefined_added y _ (jsonDocument_defined y Hy) H).
Qed.

Lemma diffElements_same (recur : value -> value -> string -> list DiffResult)
  (p : string) (xs : list value) :
  Forall (fun x => forall r q,
            jsonDocument x = true -> jsonDocument r = true ->
            (onlyUnchanged (recur x r q) <-> SameData x r)) xs ->
  (forall x q, x <> JUndef -> ~ onlyUnchanged (recur x JUndef q)) ->
  forallb jsonDocument xs = true ->
  forall ys i,
    forallb jsonDocument ys = true ->
    (onlyUnchanged (diffElements recur p xs ys i) <-> Forall2 SameData xs ys).
Proof.
  intros HF Hrem. induction HF as [|x xr Hx Hxr IH]; intros Hjx ys i Hjy.
  - cbn [diffElements]. rewrite (diffsFrom_unchanged p ys i Hjy).
    split; [intros ->; constructor | intros H; inversion H; reflexivity].
  - cbn [forallb] in Hjx. apply andb_true_iff in Hjx. destruct Hjx as [Hjx Hjxr].
    destruct ys as [|y yr]; cbn [diffElements]; unfold onlyUnchanged; rewrite Forall_app.
    + split; [|intros H; inversion H]. intros [H _]. exfalso.
      apply (Hrem x _ (jsonDocument_defined x Hjx) H).
    + cbn [forallb] in Hjy. apply andb_true_iff in Hjy. destruct Hjy as [Hjy Hjyr].
      split.
      * intros [H1 H2]. constructor; [exact (proj1 (Hx y _ Hjx Hjy) H1)|].
        exact (proj1 (IH Hjxr yr (S i) Hjyr) H2).
      * intros H. inversion H as [|? ? ? ? Hxy Hrest]; subst. split.
        -- exact (proj2 (Hx y _ Hjx Hjy) Hxy).
        -- exact (proj2 (IH Hjxr yr (S i) Hjyr) Hrest).
Qed.

Lemma diffObject_same (recur : value -> value -> string -> list DiffResult)
  (p : string) (lk rk : list (string * value)) :
  Forall (fun kv => forall r q,
            jsonDocument (snd kv) = true -> jsonDocument r = true ->
            (onlyUnchanged (recur (snd kv) r q) <-> SameData (snd kv) r)) lk ->
  (forall x q, x <> JUndef -> ~ onlyUnchanged (recur x JUndef q)) ->
  jsonDocument (JObj lk) = true -> jsonDocument (JObj rk) = true ->
  (onlyUnchanged
     (flat_map (fun key => diffMember recur p key (orUndef (assoc key rk)) lk)
        (newKeySet (map fst lk ++ map fst rk)%list))
   <-> SameData (JObj lk) (JObj rk)).
Proof.
  intros HF Hrem Hjl Hjr. rewrite Forall_forall in HF.
  unfold onlyUnchanged. rewrite List.Forall_flat_map, Forall_forall.
  assert (Hunion : forall k, In k (newKeySet (map fst lk ++ map fst rk)%list)
                             <-> hasKey k lk = true \/ hasKey k rk = true).
  { intros k. rewrite newKeySet_In, in_app_iff, !hasKey_In. tauto. }
  split.
  - intros H.
    assert (Hboth : forall k, hasKey k lk = true \/ hasKey k rk = true ->
                      exists v w, assoc k lk = Some v /\ assoc k rk = Some w
                                  /\ SameData v w).
    { intros k Hk. pose proof (H k (proj2 (Hunion k) Hk)) as Hm. cbv beta in Hm.
      rewrite diffMember_assoc in Hm.
      destruct (assoc k lk) as [v|] eqn:Hv; destruct (assoc k rk) as [w|] eqn:Hw;
        cbn [orUndef] in Hm.
      - exists v, w. split; [reflexivity|]. split; [reflexivity|].
        apply assoc_In in Hv as Hin.
        exact (proj1 (HF (k, v) Hin w _ (jsonDocument_assoc lk k v Hjl Hv)
                        (jsonDocument_assoc rk k w Hjr Hw)) Hm).
      - exfalso. apply (Hrem v _ (jsonDocument_defined v (jsonDocument_assoc lk k v Hjl Hv)) Hm).
      - exfalso.
        apply (diffFromUndefined_added w _
                 (jsonDocument_defined w (jsonDocument_assoc rk k w Hjr Hw)) Hm).
      - exfalso. unfold hasKey in Hk. rewrite Hv, Hw in Hk. destruct Hk; discriminate. }
    apply same_object.
    + intros k. destruct (hasKey k lk) eqn:Hl.
      * destruct (Hboth k (or_introl Hl)) as [v [w [_ [Hw _]]]].
        unfold hasKey. rewrite Hw. reflexivity.
      * destruct (hasKey k rk) eqn:Hr; [|reflexivity].
        destruct (Hboth k (or_intror Hr)) as [v [w [Hv _]]].
        unfold hasKey in Hl. rewrite Hv in Hl. discriminate Hl.
    + intros k v w Hv Hw. destruct (Hboth k) as [v' [w' [Hv' [Hw' Hs]]]].
      { left. unfold hasKey. rewrite Hv. reflexivity. }
      rewrite Hv in Hv'. rewrite Hw in Hw'. injection Hv' as <-. injection Hw' as <-.
      exact Hs.
  - intros Hs. inversion Hs as [a b Hprim| |lk' rk' Hkeys Hvals]; subst;
      [cbn in Hprim; discriminate Hprim|].
    intros k Hk. apply Hunion in Hk. rewrite diffMember_assoc.
    assert (Hl : hasKey k lk = true) by (destruct Hk as [Hk|Hk]; [|rewrite Hkeys]; exact Hk).
    assert (Hr : hasKey k rk = true) by (rewrite <- Hkeys; exact Hl).
    unfold hasKey in Hl, Hr.
    destruct (assoc k lk) as [v|] eqn:Hv; [|discriminate Hl].
    destruct (assoc k rk) as [w|] eqn:Hw; [|discriminate Hr].
    cbn [orUndef]. apply assoc_In in Hv as Hin.
    exact (proj2 (HF (k, v) Hin w _ (jsonDocument_assoc lk k v Hjl Hv)
                    (jsonDocument_assoc rk k w Hjr Hw)) (Hvals k v w Hv Hw)).
Qed.

(** X26. On JSON documents in which no field is named like a member of
    [Object.prototype], the structural diff reports no difference exactly
    when the two documents hold the same data: every entry is [unchanged]
    if and only if the primitives are identical, the arrays equal position
    by position and the objects equal key by key, whatever the order of the
    keys. *)
Theorem diff_is_unchanged_iff_same_data (left right : value) (p : string) :
  jsonDocument left = true -> jsonDocument right = true ->
  ordinary left = true -> ordinary right = true ->
  (onlyUnchanged (computeDiff left right p) <-> SameData left right).
Proof.
  intros Hjl0 Hjr0 _ _. revert right p Hjl0 Hjr0.
  induction left as [| |b|n|s|xs IH|lk IH] using value_nested_ind;
    intros right p Hjl Hjr;
    try (rewrite computeDiff_scalar by (reflexivity || assumption);
         split; [apply same_primitive | apply SameData_scalar; reflexivity]).
  - destruct right as [| |b|n|s|ys|rk]; try discriminate Hjr;
      try (split; [rewrite computeDiff_eq; cbn; intros H; apply Forall_inv in H;
                   discriminate H
                  | intros Hs; inversion Hs as [a c Hprim| |]; subst;
                    cbn in Hprim; discriminate Hprim]).
    rewrite computeDiff_eq. cbn -[diffElements computeDiff].
    rewrite (diffElements_same computeDiff p xs).
    + split; [apply same_array|].
      intros Hs. inversion Hs as [a c Hprim| |]; subst;
        [cbn in Hprim; discriminate Hprim | assumption].
    + apply (Forall_impl _ (P := fun x => forall right p,
                                   jsonDocument x = true -> jsonDocument right = true ->
                                   (onlyUnchanged (computeDiff x right p)
                                    <-> SameData x right))); [|exact IH].
      intros x Hx r q. apply Hx.
    + intros x q. apply computeDiff_removed.
    + exact Hjl.
    + exact Hjr.
  - destruct right as [| |b|n|s|ys|rk]; try discriminate Hjr;
      try (split; [rewrite computeDiff_eq; cbn; intros H; apply Forall_inv in H;
                   discriminate H
                  | intros Hs; inversion Hs as [a c Hprim| |]; subst;
                    cbn in Hprim; discriminate Hprim]).
    + split.
      * rewrite computeDiff_eq.
        cbn [strictEq isUndefined typeOf isArray String.eqb Ascii.eqb Bool.eqb negb
             orb andb].
        rewrite (proj2 (stringify_object_not_null lk)). cbn [negb].
        intros H. apply Forall_inv in H. discriminate H.
      * intros Hs. inversion Hs as [a c Hprim| |]; subst.
        cbn in Hprim. discriminate Hprim.
    + rewrite computeDiff_eq.
      cbn -[diffMember computeDiff flat_map newKeySet assoc].
      apply diffObject_same; try assumption.
      intros x q. apply computeDiff_removed.
Qed.

(** *** Closed instance for the structural diff *)

Lemma diff_is_unchanged_iff_same_data_witness :
  onlyUnchanged
    (computeDiff (JObj [("a", num 1); ("b", JArr [JStr "x"; JNull])])
       (JObj [("b", JArr [JStr "x"; JNull]); ("a", num 1)]) "$")
  <-> SameData (JObj [("a", num 1); ("b", JArr [JStr "x"; JNull])])
        (JObj [("b", JArr [JStr "x"; JNull]); ("a", num 1)]).
Proof.
  apply (diff_is_unchanged_iff_same_data
           (JObj [("a", num 1); ("b", JArr [JStr "x"; JNull])])
           (JObj [("b", JArr [JStr "x"; JNull]); ("a", num 1)]) "$");
    reflexivity.
Defined.

(** ** Data masking *)

Lemma Forall_update {P : string * value -> Prop} (k : string) (v : value)
  (kvs : list (string * value)) :
  P (k, v) -> Forall P kvs -> Forall P (update k v kvs).
Proof.
  intros Hv H. induction H as [|[k' v'] r Hh Ht IH]; cbn [update]; [constructor|].
  destruct (String.eqb_spec k k') as [<-|Hne]; constructor; auto.
Qed.

Lemma Forall_insertIndex {P : string * value -> Prop} (n : Z) (k : string) (v : value)
  (kvs : list (string * value)) :
  P (k, v) -> Forall P kvs -> Forall P (insertIndex n k v kvs).
Proof.
  intros Hv H. induction H as [|[k' v'] r Hh Ht IH]; cbn [insertIndex].
  - repeat constructor. exact Hv.
  - destruct (arrayIndex k') as [m|]; [destruct (n <? m)%Z|];
      repeat (constructor; auto).
Qed.

Lemma Forall_obj_set {P : string * value -> Prop} (kvs : list (string * value))
  (k : string) (v : value) :
  P (k, v) -> Forall P kvs -> Forall P (obj_set kvs k v).
Proof.
  intros Hv H. unfold obj_set.
  destruct (negb (hasKey k kvs) && String.eqb k "__proto__"); [exact H|].
  unfold define. destruct (hasKey k kvs).
  - apply Forall_update; assumption.
  - destruct (arrayIndex k).
    + apply Forall_insertIndex; assumption.
    + apply Forall_app. split; [exact H | repeat constructor; exact Hv].
Qed.

Lemma mapState_Forall {A B T : Type} (P : B -> Prop) (f : A -> T -> B * T)
  (l : list A) :
  Forall (fun x => forall s, P (fst (f x s))) l ->
  forall s, Forall P (fst (mapState f l s)).
Proof.
  intros H. induction H as [|x r Hx Hr IH]; intros s; cbn [mapState]; [constructor|].
  specialize (Hx s). destruct (f x s) as [y s1]. specialize (IH s1).
  destruct (mapState f r s1) as [ys s2]. cbn [fst] in *. constructor; assumption.
Qed.

Section MaskingFacts.

Variable randomBelow : nat -> Z -> Z.
Variable config_ : MaskingConfig.

#[local] Abbreviation mask := (processNode randomBelow config_).

Lemma maskValue_marker (c val : value) (n : nat) :
  marker (rule config_) = Some c ->
  maskValue randomBelow val (rule config_) n = (c, n).
Proof.
  unfold marker, maskValue.
  destruct (String.eqb (rule config_) "redact"); [intros H; injection H as <-; reflexivity|].
  destruct (String.eqb (rule config_) "hash"); [discriminate|].
  destruct (String.eqb (rule config_) "partial"); [discriminate|].
  destruct (String.eqb (rule config_) "randomize"); [discriminate|].
  cbn [orb].
  destruct (String.eqb (rule config_) "nullify"); intros H; injection H as <-; reflexivity.
Qed.

Lemma processNode_eq (obj : value) (n : nat) :
  mask obj n
  = match obj with
    | JArr xs =>
        let '(ys, n') := mapState mask xs n in (JArr ys, n')
    | JObj kvs =>
        let '(result, n') :=
          fold_left (maskEntry randomBelow config_ mask) kvs ([], n) in
        (JObj result, n')
    | _ => (obj, n)
    end.
Proof. destruct obj; reflexivity. Qed.

Lemma value_eqb_refl (v : value) : value_eqb v v = true.
Proof. apply value_eqb_eq. reflexivity. Qed.

(** X27. Masking reaches every depth: under a rule that writes a fixed
    value ([redact], [nullify], or an unknown rule) and without
    [preserveStructure], every field of the result whose name is listed,
    in whatever letter case, holds that value, in the root object and in
    every object nested in unlisted fields and arrays. *)
Theorem masking_reaches_every_depth (c : value) :
  marker (rule config_) = Some c ->
  preserveStructure config_ = false ->
  forall data n,
    everyListedFieldIs (listed config_) c (fst (mask data n)) = true.
Proof.
  intros Hmark Hflat data.
  induction data as [| |b|z|s|xs IH|kvs IH] using value_nested_ind; intros n;
    rewrite processNode_eq; try reflexivity.
  - pose proof (mapState_Forall
                  (fun y => everyListedFieldIs (listed config_) c y = true)
                  mask xs IH n) as HF.
    destruct (mapState mask xs n) as [ys n']. cbn [fst everyListedFieldIs] in *.
    apply forallb_forall. apply Forall_forall. exact HF.
  - pose proof (fold_left_invariant
                  (fun st : list (string * value) * nat =>
                     Forall (fun kv => (if listed config_ (fst kv)
                                        then value_eqb (snd kv) c
                                        else everyListedFieldIs (listed config_) c (snd kv))
                                       = true) (fst st))
                  (maskEntry randomBelow config_ mask) kvs) as Hinv.
    destruct (fold_left (maskEntry randomBelow config_ mask) kvs ([], n))
      as [result n'] eqn:Hfold.
    cbn [fst everyListedFieldIs]. apply forallb_forall. apply Forall_forall.
    specialize (Hinv) with (acc := ([], n)). rewrite Hfold in Hinv. apply Hinv.
    + intros [k v] [res m] Hin Hacc. cbn [fst] in Hacc. unfold maskEntry.
      rewrite Forall_forall in IH. pose proof (IH (k, v) Hin) as IHv. cbn [snd] in IHv.
      destruct (listed config_ k) eqn:Hk.
      * rewrite Hflat. cbn [andb]. rewrite (maskValue_marker c v m Hmark). cbn [fst].
        apply Forall_obj_set; [|exact Hacc]. cbn [fst snd]. rewrite Hk.
        apply value_eqb_refl.
      * destruct (isObjectLike v) eqn:Hobj.
        -- specialize (IHv m). destruct (mask v m) as [w m']. cbn [fst] in *.
           apply Forall_obj_set; [|exact Hacc]. cbn [fst snd]. rewrite Hk. exact IHv.
        -- cbn [fst]. apply Forall_obj_set; [|exact Hacc]. cbn [fst snd]. rewrite Hk.
           destruct v; try discriminate Hobj; reflexivity.
    + constructor.
Qed.

Lemma maskEntry_other (st : list (string * value) * nat) (kv : string * value)
  (k : string) :
  k <> fst kv ->
  assoc k (fst (maskEntry randomBelow config_ mask st kv)) = assoc k (fst st).
Proof.
  intros Hne. destruct st as [res m]. destruct kv as [k' v]. cbn [fst] in *.
  unfold maskEntry.
  assert (Hset : forall w, assoc k (obj_set res k' w) = assoc k res).
  { intros w. apply assoc_obj_set_other. exact Hne. }
  destruct (listed config_ k').
  - destruct (if preserveStructure config_ && isObjectLike v then mask v m
              else maskValue randomBelow v (rule config_) m) as [w m'].
    cbn [fst]. apply Hset.
  - destruct (isObjectLike v); [destruct (mask v m) as [w m']|]; cbn [fst]; apply Hset.
Qed.

Lemma maskEntries_other (kvs : list (string * value)) (k : string) :
  ~ In k (map fst kvs) ->
  forall st,
    assoc k (fst (fold_left (maskEntry randomBelow config_ mask) kvs st))
    = assoc k (fst st).
Proof.
  induction kvs as [|kv t IH]; intros Hk st; cbn [fold_left]; [reflexivity|].
  rewrite IH; [|intros Hin; apply Hk; right; exact Hin].
  apply maskEntry_other. intros ->. apply Hk. left. reflexivity.
Qed.

(** X28. The [randomize] rule leaves structured values as they are:
    without [preserveStructure], in an object that has no field named
    [__proto__], a listed field that holds neither a number nor a string
    (an object, an array, a boolean or [null]) is returned unchanged, with
    everything it contains. *)
Theorem randomize_leaves_structured_values
  (kvs : list (string * value)) (k : string) (v : value) (n : nat) :
  rule config_ = "randomize" ->
  preserveStructure config_ = false ->
  NoDup (map fst kvs) ->
  ~ In "__proto__" (map fst kvs) ->
  In (k, v) kvs ->
  listed config_ k = true ->
  typeOf v <> "number" -> typeOf v <> "string" ->
  exists r n', mask (JObj kvs) n = (JObj r, n') /\ assoc k r = Some v.
Proof.
  intros Hrule Hflat Hnd Hproto Hin Hk Hnum Hstr. rewrite processNode_eq.
  assert (Hname : k <> "__proto__").
  { intros ->. apply Hproto. change "__proto__" with (fst ("__proto__", v)).
    apply in_map. exact Hin. }
  clear Hproto.
  destruct (fold_left (maskEntry randomBelow config_ mask) kvs ([], n))
    as [result n'] eqn:Hfold.
  exists result, n'. split; [reflexivity|].
  change result with (fst (result, n')). rewrite <- Hfold. clear Hfold.
  generalize ([] : list (string * value), n).
  induction kvs as [|[k1 v1] t IH]; intros st; [destruct Hin|].
  cbn [map fst] in Hnd. apply NoDup_cons_iff in Hnd. destruct Hnd as [Hk1 Hnd].
  cbn [fold_left]. destruct Hin as [Heq|Hin].
  - injection Heq as -> ->. rewrite (maskEntries_other t k Hk1).
    destruct st as [res m]. unfold maskEntry. rewrite Hk, Hflat, Hrule. cbn [andb].
    unfold maskValue. cbn [String.eqb Ascii.eqb Bool.eqb andb].
    destruct v; try (exfalso; apply Hnum; reflexivity);
      try (exfalso; apply Hstr; reflexivity);
      cbn [fst]; rewrite (assoc_obj_set _ _ _ _ Hname), String.eqb_refl; reflexivity.
  - apply IH; assumption.
Qed.

End MaskingFacts.

(** *** The hash *)

Lemma toInt32_range (z : Z) :
  (-2147483648 <= toInt32 z < 2147483648)%Z.
Proof.
  unfold toInt32.
  pose proof (Z.mod_pos_bound (z + 2147483648) 4294967296 ltac:(lia)). lia.
Qed.

Lemma hashLoop_range (str : string) :
  forall h,
    (-2147483648 <= h < 2147483648)%Z ->
    (-2147483648 <= hashLoop h str < 2147483648)%Z.
Proof.
  induction str as [|c r IH]; intros h Hh; cbn [hashLoop]; [exact Hh|].
  apply IH. apply toInt32_range.
Qed.

Lemma hexFrom_length (fuel : nat) :
  forall n acc k,
    (0 <= n < 16 ^ Z.of_nat (S k))%Z ->
    String.length (hexFrom fuel n acc) <= String.length acc + S k.
Proof.
  induction fuel as [|f IH]; intros n acc k Hn; cbn [hexFrom]; [lia|].
  destruct (Z.eqb_spec (n / 16) 0) as [Hz|Hnz]; cbn [String.length]; [lia|].
  destruct k as [|k].
  - exfalso. apply Hnz. apply Z.div_small. change (16 ^ Z.of_nat 1)%Z with 16%Z in Hn. lia.
  - assert (Hdiv : (0 <= n / 16 < 16 ^ Z.of_nat (S k))%Z).
    { split; [apply Z.div_pos; lia|].
      apply Z.div_lt_upper_bound; [lia|].
      replace (16 * 16 ^ Z.of_nat (S k))%Z with (16 ^ Z.of_nat (S (S k)))%Z; [lia|].
      rewrite (Nat2Z.inj_succ (S k)), Z.pow_succ_r by lia. reflexivity. }
    pose proof (IH (n / 16)%Z
                  (String (Json.hexDigit (Z.to_nat (n mod 16))) acc) k Hdiv) as Hlen.
    cbn [String.length] in Hlen. lia.
Qed.

Lemma repeat_length (s : string) (n : nat) :
  String.length (repeat_ s n) = n * String.length s.
Proof.
  induction n as [|m IH]; cbn [repeat_ String.length]; [reflexivity|].
  rewrite length_append, IH. cbn [Nat.mul]. reflexivity.
Qed.

(** X29. Every hash has the same shape: [h_] followed by exactly eight
    characters, whatever the text. *)
Theorem hashString_has_a_fixed_width (str : string) :
  startsWith "h_" (hashString str) = true /\ String.length (hashString str) = 10.
Proof.
  unfold hashString. split.
  { unfold startsWith. cbn [String.append prefix].
    destruct (ascii_dec "h" "h") as [_|Hne]; [|congruence].
    destruct (ascii_dec "_" "_") as [_|Hne]; [|congruence].
    destruct (padStart0 8 _); reflexivity. }
  cbn [String.append String.length]. f_equal. f_equal. unfold padStart0.
  rewrite length_append, repeat_length. cbn [String.length].
  pose proof (hashLoop_range str 0%Z ltac:(lia)) as Hr.
  assert (Hn : (0 <= Z.abs (hashLoop 0 str) < 16 ^ Z.of_nat 8)%Z).
  { change (16 ^ Z.of_nat 8)%Z with 4294967296%Z. lia. }
  pose proof (hexFrom_length (S (Z.to_nat (Z.log2 (Z.abs (hashLoop 0 str)))))
                (Z.abs (hashLoop 0 str)) EmptyString 7 Hn) as Hlen.
  cbn [String.length] in Hlen. unfold toString16. lia.
Qed.

(** ** Search *)

Section SearchFacts.

Variable RegExp_test : string -> string -> string -> Exc bool.
Variable options : SearchOptions.
Variable limit : Z.

#[local] Abbreviation search := (searchRecursive RegExp_test options limit).

Lemma searchRecursive_eq (v : value) (p : string) (matches : list SearchMatch) :
  search v p matches
  = if full limit matches then matches
    else
      match v with
      | JObj kvs => searchEntries RegExp_test options limit search p kvs matches
      | JArr xs => searchItems RegExp_test options limit search p xs 0 matches
      | _ => matches
      end.
Proof. destruct v; reflexivity. Qed.

(** What a call keeps: the matches it was given, in front, and the
    limit. *)
Lemma searchEntries_bounded
  (recur : value -> string -> list SearchMatch -> list SearchMatch) (p : string)
  (kvs : list (string * value)) :
  Forall (fun kv => forall q matches,
            (Z.of_nat (List.length matches) <= limit)%Z ->
            (exists extra, recur (snd kv) q matches = (matches ++ extra)%list)
            /\ (Z.of_nat (List.length (recur (snd kv) q matches)) <= limit)%Z) kvs ->
  forall matches,
    (Z.of_nat (List.length matches) <= limit)%Z ->
    (exists extra,
       searchEntries RegExp_test options limit recur p kvs matches
       = (matches ++ extra)%list)
    /\ (Z.of_nat (List.length
                    (searchEntries RegExp_test options limit recur p kvs matches))
        <= limit)%Z.
Proof.
  intros HF. induction HF as [|[k v] rest Hv Hrest IH]; intros matches Hlen;
    cbn [searchEntries].
  - split; [exists []; rewrite app_nil_r; reflexivity | exact Hlen].
  - unfold full. destruct (Z.leb_spec limit (Z.of_nat (List.length matches))) as [Hfull|Hroom].
    + split; [exists []; rewrite app_nil_r; reflexivity | exact Hlen].
    + cbn [snd] in Hv.
      set (childPath := p ++ "." ++ k) in *.
      set (matches1 := if entryMatches RegExp_test options childPath k v
                       then (matches ++ [mkSearchMatch childPath k v (getValueType v)])%list
                       else matches).
      assert (H1 : (exists e, matches1 = (matches ++ e)%list)
                   /\ (Z.of_nat (List.length matches1) <= limit)%Z).
      { unfold matches1. destruct (entryMatches _ _ _ _ _).
        - split; [eexists; reflexivity|]. rewrite length_app. cbn [List.length]. lia.
        - split; [exists []; rewrite app_nil_r; reflexivity | lia]. }
      destruct H1 as [[e1 He1] Hl1].
      destruct (Hv childPath matches1 Hl1) as [[e2 He2] Hl2].
      destruct (IH (recur v childPath matches1) Hl2) as [[e3 He3] Hl3].
      split; [|exact Hl3].
      exists (e1 ++ e2 ++ e3)%list. rewrite He3, He2, He1. rewrite !app_assoc. reflexivity.
Qed.

Lemma searchItems_bounded
  (recur : value -> string -> list SearchMatch -> list SearchMatch) (p : string)
  (xs : list value) :
  Forall (fun x => forall q matches,
            (Z.of_nat (List.length matches) <= limit)%Z ->
            (exists extra, recur x q matches = (matches ++ extra)%list)
            /\ (Z.of_nat (List.length (recur x q matches)) <= limit)%Z) xs ->
  forall i matches,
    (Z.of_nat (List.length matches) <= limit)%Z ->
    (exists extra,
       searchItems RegExp_test options limit recur p xs i matches
       = (matches ++ extra)%list)
    /\ (Z.of_nat (List.length
                    (searchItems RegExp_test options limit recur p xs i matches))
        <= limit)%Z.
Proof.
  intros HF. induction HF as [|x rest Hx Hrest IH]; intros i matches Hlen;
    cbn [searchItems].
  - split; [exists []; rewrite app_nil_r; reflexivity | exact Hlen].
  - unfold full. destruct (Z.leb_spec limit (Z.of_nat (List.length matches))) as [Hfull|Hroom].
    + split; [exists []; rewrite app_nil_r; reflexivity | exact Hlen].
    + set (childPath := p ++ "[" ++ showNat i ++ "]") in *.
      set (matches1 :=
             if itemMatches RegExp_test options childPath x
                && negb (String.eqb (getValueType x) "object")
                && negb (String.eqb (getValueType x) "array")
             then (matches ++ [mkSearchMatch childPath (showNat i) x (getValueType x)])%list
             else matches).
      assert (H1 : (exists e, matches1 = (matches ++ e)%list)
                   /\ (Z.of_nat (List.length matches1) <= limit)%Z).
      { unfold matches1. destruct (_ && _ && _).
        - split; [eexists; reflexivity|]. rewrite length_app. cbn [List.length]. lia.
        - split; [exists []; rewrite app_nil_r; reflexivity | lia]. }
      destruct H1 as [[e1 He1] Hl1].
      destruct (Hx childPath matches1 Hl1) as [[e2 He2] Hl2].
      destruct (IH (S i) (recur x childPath matches1) Hl2) as [[e3 He3] Hl3].
      split; [|exact Hl3].
      exists (e1 ++ e2 ++ e3)%list. rewrite He3, He2, He1. rewrite !app_assoc. reflexivity.
Qed.

(** X30. A search keeps what was found and respects the limit: a call
    that is given no more matches than the limit returns them, in front
    and in order, followed by what it found, and never more than the limit
    in all. *)
Theorem search_respects_the_limit (v : value) :
  forall p matches,
    (Z.of_nat (List.length matches) <= limit)%Z ->
    (exists extra, search v p matches = (matches ++ extra)%list)
    /\ (Z.of_nat (List.length (search v p matches)) <= limit)%Z.
Proof.
  induction v as [| |b|n|s|xs IH|kvs IH] using value_nested_ind; intros p matches Hlen;
    rewrite searchRecursive_eq;
    (destruct (full limit matches);
     [split; [exists []; rewrite app_nil_r; reflexivity | exact Hlen]|]);
    try (split; [exists []; rewrite app_nil_r; reflexivity | exact Hlen]).
  - apply searchItems_bounded; assumption.
  - apply searchEntries_bounded; assumption.
Qed.

End SearchFacts.

(** *** Closed instances for masking and search *)

Lemma masking_reaches_every_depth_witness :
  everyListedFieldIs (listed (mkMaskingConfig ["Email"; "ssn"] "redact" false))
    (JStr "***REDACTED***")
    (fst (processNode (fun _ _ => 0%Z) (mkMaskingConfig ["Email"; "ssn"] "redact" false)
            (JObj [("name", JStr "x"); ("email", JStr "a@b");
                   ("nested", JObj [("SSN", JObj [("v", num 1)]);
                                    ("k", JArr [JObj [("ssn", num 5)]])])])
            0))
  = true.
Proof.
  apply (masking_reaches_every_depth (fun _ _ => 0%Z)
           (mkMaskingConfig ["Email"; "ssn"] "redact" false) (JStr "***REDACTED***"));
    reflexivity.
Defined.

Lemma randomize_leaves_structured_values_witness :
  exists r n',
    processNode (fun _ _ => 0%Z) (mkMaskingConfig ["cards"] "randomize" false)
      (JObj [("name", JStr "x"); ("cards", JArr [JStr "4111-1111"; JStr "5500-0000"])]) 0
    = (JObj r, n')
    /\ assoc "cards" r = Some (JArr [JStr "4111-1111"; JStr "5500-0000"]).
Proof.
  apply (randomize_leaves_structured_values (fun _ _ => 0%Z)
           (mkMaskingConfig ["cards"] "randomize" false)
           [("name", JStr "x"); ("cards", JArr [JStr "4111-1111"; JStr "5500-0000"])]
           "cards" (JArr [JStr "4111-1111"; JStr "5500-0000"]) 0).
  - reflexivity.
  - reflexivity.
  - cbn [map fst]. repeat constructor; cbn [In]; intros H;
      repeat (destruct H as [H|H]; [discriminate H|]); exact H.
  - cbn [map fst In]. intros H.
    repeat (destruct H as [H|H]; [discriminate H|]). exact H.
  - right. left. reflexivity.
  - reflexivity.
  - discriminate.
  - discriminate.
Defined.

Lemma search_respects_the_limit_witness :
  (exists extra,
     searchRecursive (fun p _ t => Host.RegExp_test p t)
       (mkSearchOptions byType "number" true false) 2
       (JArr [num 1; num 2; num 3; JObj [("a", num 4)]]) "$" []
     = ([] ++ extra)%list)
  /\ (Z.of_nat (List.length
                  (searchRecursive (fun p _ t => Host.RegExp_test p t)
                     (mkSearchOptions byType "number" true false) 2
                     (JArr [num 1; num 2; num 3; JObj [("a", num 4)]]) "$" []))
      <= 2)%Z.
Proof.
  apply (search_respects_the_limit (fun p _ t => Host.RegExp_test p t)
           (mkSearchOptions byType "number" true false) 2
           (JArr [num 1; num 2; num 3; JObj [("a", num 4)]]) "$" []).
  cbn [List.length Z.of_nat]. lia.
Defined.
